(** * GICS Python client: a shallow embedding of [clients/python/gics_client.py]

    The client talks to a local daemon over newline-delimited JSON-RPC.  The
    embedding follows the Python class method by method: the instance
    attributes are a record, the methods are programs of a small
    state/exception/trace monad, and everything the operating system or the
    daemon decides (connect, send, recv, the token files) is read from an
    explicit environment. *)

From Stdlib Require Import ZArith QArith List String Ascii Bool Lia DecimalString.
From Stdlib Require Import Init.Byte.
Import ListNotations.

Local Close Scope Q_scope.
Local Open Scope string_scope.
Local Open Scope list_scope.
Local Open Scope Z_scope.

Set Implicit Arguments.
Set Warnings "-register-all".

(** ** Python values *)

(** What [json.loads] can return and [json.dumps] can take. A dict is an
    association list; [dict_lookup] returns the first binding of a key. *)
Inductive json : Type :=
| JNull
| JBool (b : bool)
| JInt (n : Z)
| JFloat (q : Q)
| JStr (s : string)
| JList (l : list json)
| JDict (d : list (string * json)).

(** Python truthiness, as tested by [if x:] and [x or y]. *)
Definition truthy (v : json) : bool :=
  match v with
  | JNull => false
  | JBool b => b
  | JInt n => negb (n =? 0)
  | JFloat q => negb (Qeq_bool q (0 # 1))
  | JStr s => negb (s =? "")%string
  | JList l => match l with [] => false | _ => true end
  | JDict d => match d with [] => false | _ => true end
  end.

Fixpoint dict_lookup (k : string) (d : list (string * json)) : option json :=
  match d with
  | [] => None
  | (k', v) :: rest => if (k =? k')%string then Some v else dict_lookup k rest
  end.

(** [d.get(k, default)] on a dict. *)
Definition dict_get (d : list (string * json)) (k : string) (default : json) : json :=
  match dict_lookup k d with
  | Some v => v
  | None => default
  end.

(** ** Exceptions *)

(** The subclasses of [OSError] the transport raises. *)
Inductive os_error : Type :=
| FileNotFoundError
| ConnectionRefusedError
| ConnectionResetError (msg : string)
| BrokenPipeError
| TimeoutError
| OtherOSError (errno : Z).

Inductive exn : Type :=
| OSError (k : os_error)
| JSONDecodeError
| UnicodeDecodeError
| RuntimeError (msg : string)
| AttributeError
| TypeError
| ValueError
| OverflowError
| RecursionError.

Inductive result (A : Type) : Type :=
| Return (a : A)
| Raise (e : exn).
Arguments Return {A} a.
Arguments Raise {A} e.

(** [except (OSError, ConnectionError, TimeoutError, json.JSONDecodeError)]:
    [ConnectionError] and [TimeoutError] are subclasses of [OSError]. *)
Definition inner_except (e : exn) : bool :=
  match e with
  | OSError _ | JSONDecodeError => true
  | _ => false
  end.

(** [except (FileNotFoundError, ConnectionRefusedError, OSError,
    json.JSONDecodeError)]: the errors the retry loop treats as transient. *)
Definition outer_except (e : exn) : bool :=
  match e with
  | OSError _ | JSONDecodeError => true
  | _ => false
  end.

(** ** The client object and the machine it runs on *)

(** A connection is a socket (or pipe) object; its identity is the handle the
    runtime gave it when it was created. *)
Definition conn := nat.

Record GICSClient : Type := {
  address : string;
  _token : option string;
  _request_id : Z;
  _max_retries : Z;
  _retry_delay : Q;
  _request_timeout : Q;
  _pool_size : Z;
  _pool : list conn
}.

(** The machine: the client object, the local [healthy] of the attempt in
    progress, and the next handle the runtime will hand out. *)
Record machine : Type := {
  self : GICSClient;
  healthy : bool;
  next_handle : conn
}.

(** What the outside world sees of a run, in order. [EvAttempt] is
    bookkeeping: it is logged when the [try] body of iteration [attempt] of
    the retry loop is left, with the exception that left it if any. *)
Inductive event : Type :=
| EvExists (path : string) (found : bool)
| EvReadFile (path : string)
| EvConnect (c : conn)
| EvConnectFailed (k : os_error)
| EvPoolPop (c : conn)
| EvPoolAppend (c : conn)
| EvSend (c : conn) (payload : list byte)
| EvRecv (c : conn) (chunk : list byte)
| EvClose (c : conn)
| EvSleep (d : Q)
| EvAttempt (attempt : Z) (raised : option exn).

(** ** The environment *)

Inductive recv_result : Type :=
| Chunk (bs : list byte)
| RecvError (k : os_error).

(** What the transport does during one request/response cycle. *)
Record script : Type := {
  connect_res : option os_error;      (* [s.connect] / [open(address)]; [None]: success *)
  send_res : option os_error;         (* [s.sendall] / [f.write] *)
  recv_res : list recv_result;        (* the successive [s.recv(4096)]; when the
                                         list is used up the socket timeout fires *)
  readline_res : list byte + os_error (* [f.readline()] on the named pipe *)
}.

(** What is at a path for which [os.path.exists] is true: a file that
    [open(p, 'r')] and [f.read()] turn into text, or something on which one
    of the two raises (a directory, a file without read permission, bytes
    that are not text in the locale's encoding). *)
Inductive file : Type :=
| Readable (text : string)
| Unreadable (e : exn).

Record environment : Type := {
  os_name_nt : bool;                  (* [os.name == 'nt'] *)
  home_token : string;                (* [os.path.expanduser('~/.gics_token')] *)
  fs : string -> option file;         (* what is at a path, if the path exists *)
  transport : Z -> script             (* the cycle of each attempt of a call *)
}.

(** The library functions the client calls and does not define.
    [json.loads] raises [JSONDecodeError] on text that is not JSON, and can
    raise other errors on text that is (a plain [ValueError] for an integer
    literal over the digit limit, [RecursionError] for deep nesting).
    [time.sleep] and [socket.settimeout] raise [OverflowError] for a length
    that does not fit the C type of the platform. *)
Record pylib : Type := {
  json_dumps : json -> string;
  json_loads : string -> result json;
  utf8_encode : string -> list byte;
  utf8_decode : list byte -> option string; (* [None]: [UnicodeDecodeError] *)
  py_str : json -> string;            (* [str(x)], used by the f-string *)
  str_strip : string -> string;       (* [s.strip()] *)
  sleep_overflows : Q -> bool;        (* [time.sleep(d)] cannot convert [d] *)
  timeout_overflows : Q -> bool       (* [s.settimeout(d)] cannot convert [d] *)
}.

(** ** The monad *)

Definition M (A : Type) : Type := machine -> result A * machine * list event.

Definition ret {A} (a : A) : M A := fun m => (Return a, m, []).

Definition raise {A} (e : exn) : M A := fun m => (Raise e, m, []).

Definition bind {A B} (x : M A) (f : A -> M B) : M B :=
  fun m =>
    let '(r, m1, t1) := x m in
    match r with
    | Return a => let '(r2, m2, t2) := f a m1 in (r2, m2, t1 ++ t2)
    | Raise e => (Raise e, m1, t1)
    end.

Declare Scope py_scope.
Delimit Scope py_scope with py.
Notation "x <- c1 ;; c2" := (bind c1 (fun x => c2))
  (at level 61, c1 at next level, right associativity) : py_scope.
Notation "c1 ;; c2" := (bind c1 (fun _ => c2))
  (at level 61, right associativity) : py_scope.
Local Open Scope py_scope.

Definition emit (ev : event) : M unit := fun m => (Return tt, m, [ev]).

Definition get_self : M GICSClient := fun m => (Return (self m), m, []).

Definition put_self (c : GICSClient) : M unit :=
  fun m => (Return tt, {| self := c; healthy := healthy m; next_handle := next_handle m |}, []).

Definition get_healthy : M bool := fun m => (Return (healthy m), m, []).

Definition set_healthy (b : bool) : M unit :=
  fun m => (Return tt, {| self := self m; healthy := b; next_handle := next_handle m |}, []).

(** The runtime creates a new object: a handle never given out before. *)
Definition new_handle : M conn :=
  fun m => (Return (next_handle m),
            {| self := self m; healthy := healthy m; next_handle := S (next_handle m) |}, []).

(** [try: body finally: h]; [h] runs either way, and an exception of [h]
    replaces the outcome of [body]. *)
Definition try_finally {A} (body : M A) (h : M unit) : M A :=
  fun m =>
    let '(r, m1, t1) := body m in
    let '(rh, m2, t2) := h m1 in
    match rh with
    | Return _ => (r, m2, t1 ++ t2)
    | Raise e => (Raise e, m2, t1 ++ t2)
    end.

(** [try: body except <classes> as e: h e]. *)
Definition try_except {A} (body : M A) (classes : exn -> bool) (h : exn -> M A) : M A :=
  fun m =>
    let '(r, m1, t1) := body m in
    match r with
    | Return a => (Return a, m1, t1)
    | Raise e =>
        if classes e
        then let '(r2, m2, t2) := h e m1 in (r2, m2, t1 ++ t2)
        else (Raise e, m1, t1)
    end.

(** Runs [body] and hands its outcome over as a value. *)
Definition observe {A} (body : M A) : M (result A) :=
  fun m => let '(r, m1, t1) := body m in (Return r, m1, t1).

(** ** Helpers on strings, bytes and lists *)

(** The line feed, as a one-character string and as a byte. *)
Definition nl : string := String (ascii_of_nat 10) EmptyString.
Definition newline : byte := x0a.

(** White space of the ASCII range, and [str.strip] on ASCII text. The
    client's own [strip] is the library's [str_strip]; this one serves the
    scenarios, whose files are ASCII. *)
Definition isspace (c : ascii) : bool :=
  let n := nat_of_ascii c in
  (((9 <=? n) && (n <=? 13)) || ((28 <=? n) && (n <=? 32)))%nat.

Fixpoint lstrip (l : list ascii) : list ascii :=
  match l with
  | c :: rest => if isspace c then lstrip rest else l
  | [] => []
  end.

Definition strip (s : string) : string :=
  string_of_list_ascii (rev (lstrip (rev (lstrip (list_ascii_of_string s))))).

(** [b'\n' in buffer]. *)
Definition has_newline (buffer : list byte) : bool :=
  existsb (Byte.eqb newline) buffer.

(** [buffer.split(b'\n')[0]]: the bytes before the first line feed. *)
Fixpoint first_line (buffer : list byte) : list byte :=
  match buffer with
  | [] => []
  | b :: rest => if Byte.eqb newline b then [] else b :: first_line rest
  end.

(** [range(n)]. *)
Definition range (n : Z) : list Z := map Z.of_nat (seq 0 (Z.to_nat n)).

(** [list.pop()]: the last element and the list without it. *)
Fixpoint list_pop {A} (l : list A) : option (list A * A) :=
  match l with
  | [] => None
  | x :: rest =>
      match list_pop rest with
      | None => Some ([], x)
      | Some (front, y) => Some (x :: front, y)
      end
  end.

(** Attribute assignment on the client object. *)
Definition with_token (c : GICSClient) (t : option string) : GICSClient :=
  {| address := address c; _token := t; _request_id := _request_id c;
     _max_retries := _max_retries c; _retry_delay := _retry_delay c;
     _request_timeout := _request_timeout c; _pool_size := _pool_size c;
     _pool := _pool c |}.

Definition with_request_id (c : GICSClient) (n : Z) : GICSClient :=
  {| address := address c; _token := _token c; _request_id := n;
     _max_retries := _max_retries c; _retry_delay := _retry_delay c;
     _request_timeout := _request_timeout c; _pool_size := _pool_size c;
     _pool := _pool c |}.

Definition with_pool (c : GICSClient) (p : list conn) : GICSClient :=
  {| address := address c; _token := _token c; _request_id := _request_id c;
     _max_retries := _max_retries c; _retry_delay := _retry_delay c;
     _request_timeout := _request_timeout c; _pool_size := _pool_size c;
     _pool := p |}.

(** [if self._token:] a token counts when it is a non-empty string. *)
Definition token_truthy (t : option string) : bool :=
  match t with
  | Some s => negb (s =? "")%string
  | None => false
  end.

(** ** The class *)

Section Client.

Variable lib : pylib.
Variable env : environment.

(** [GICSClient.__init__]. *)
Definition __init__ (addr token : option string) (max_retries : Z)
    (retry_delay request_timeout : Q) (pool_size : Z) : GICSClient :=
  {| address := match addr with
                | None => if os_name_nt env then "\\.\pipe\gics" else "/tmp/gics.sock"
                | Some a => a
                end;
     _token := token;
     _request_id := 1;
     _max_retries := max_retries;
     _retry_delay := retry_delay;
     _request_timeout := request_timeout;
     _pool_size := Z.max 1 pool_size;
     _pool := [] |}.

(** A read of the attribute [self._request_id], and an assignment to it. *)
Definition load_request_id : M Z :=
  c <- get_self;; ret (_request_id c).

Definition store_request_id (n : Z) : M unit :=
  c <- get_self;; put_self (with_request_id c n).

(** [_next_request_id], run by one caller at a time (see [Module IdLock]
    for the lock): [rid = self._request_id], then [self._request_id += 1],
    which reads the attribute and assigns to it, then [return rid]. *)
Definition _next_request_id : M Z :=
  rid <- load_request_id;;
  tmp <- load_request_id;;
  store_request_id (tmp + 1);;
  ret rid.

(** The [for p in paths] loop of [_get_token]. *)
Fixpoint probe (paths : list string) : M (option string) :=
  match paths with
  | [] => ret None
  | p :: rest =>
      match fs env p with
      | Some f =>
          emit (EvExists p true);;
          emit (EvReadFile p);;       (* [open(p, 'r')] and [f.read()] *)
          match f with
          | Readable text =>
              c <- get_self;;
              put_self (with_token c (Some (str_strip lib text)));;
              ret (Some (str_strip lib text))
          | Unreadable e => raise e
          end
      | None =>
          emit (EvExists p false);;
          probe rest
      end
  end.

(** The candidate files, in the order they are tried. *)
Definition token_paths : list string :=
  [".gics_token"; home_token env; "../.gics_token"].

Definition _get_token : M (option string) :=
  c <- get_self;;
  if token_truthy (_token c) then ret (_token c)
  else probe token_paths.

(** [s.settimeout(d)]: a length that does not convert is an
    [OverflowError], a negative one a [ValueError]. *)
Definition settimeout (d : Q) : M unit :=
  if timeout_overflows lib d then raise OverflowError
  else if Qle_bool (0 # 1) d then ret tt else raise ValueError.

Definition _open_unix_socket (sc : script) : M conn :=
  s <- new_handle;;
  c <- get_self;;
  settimeout (_request_timeout c);;
  match connect_res sc with
  | None => emit (EvConnect s);; ret s
  | Some k => emit (EvConnectFailed k);; raise (OSError k)
  end.

Definition _acquire_unix_socket (sc : script) : M conn :=
  c <- get_self;;
  match list_pop (_pool c) with
  | Some (front, s) =>
      put_self (with_pool c front);;
      emit (EvPoolPop s);;
      ret s
  | None => _open_unix_socket sc
  end.

(** [try: s.close() except OSError: pass]. *)
Definition close_quietly (s : conn) : M unit := emit (EvClose s).

Definition _release_unix_socket (s : option conn) (is_healthy : bool) : M unit :=
  match s with
  | None => ret tt
  | Some s =>
      if negb is_healthy then close_quietly s
      else
        c <- get_self;;
        if Z.of_nat (List.length (_pool c)) <? _pool_size c
        then put_self (with_pool c (_pool c ++ [s]));; emit (EvPoolAppend s)
        else close_quietly s
  end.

Fixpoint close_each (sockets : list conn) : M unit :=
  match sockets with
  | [] => ret tt
  | s :: rest => close_quietly s;; close_each rest
  end.

Definition close : M unit :=
  c <- get_self;;
  let sockets := _pool c in
  put_self (with_pool c []);;
  close_each sockets.

(** [time.sleep(d)]: a length that does not convert is an [OverflowError],
    a negative one a [ValueError]. *)
Definition sleep (d : Q) : M unit :=
  if sleep_overflows lib d then raise OverflowError
  else if Qle_bool (0 # 1) d then emit (EvSleep d) else raise ValueError.

Definition sendall (s : conn) (payload : list byte) (sc : script) : M unit :=
  match send_res sc with
  | None => emit (EvSend s payload)
  | Some k => raise (OSError k)
  end.

(** The [while True] read loop; [recvs] is what the successive [s.recv(4096)]
    give, and when nothing more arrives the socket timeout is raised. *)
Fixpoint recv_loop (s : conn) (buffer : list byte) (recvs : list recv_result)
    : M (list byte) :=
  match recvs with
  | [] => raise (OSError TimeoutError)
  | RecvError k :: _ => raise (OSError k)
  | Chunk chunk :: rest =>
      emit (EvRecv s chunk);;
      match chunk with
      | [] =>
          set_healthy false;;
          raise (OSError (ConnectionResetError "Daemon closed IPC socket"))
      | _ =>
          let buffer := buffer ++ chunk in
          if has_newline buffer then ret buffer else recv_loop s buffer rest
      end
  end.

(** [json.loads(response_line.decode('utf-8'))]. *)
Definition loads_utf8 (response_line : list byte) : M json :=
  match utf8_decode lib response_line with
  | None => raise UnicodeDecodeError
  | Some text =>
      match json_loads lib text with
      | Return v => ret v
      | Raise e => raise e
      end
  end.

(** The body of the inner [try]: send the request, read one line, decode it. *)
Definition exchange (s : conn) (payload : list byte) (sc : script) : M json :=
  sendall s payload sc;;
  buffer <- recv_loop s [] (recv_res sc);;
  let response_line := first_line buffer in
  loads_utf8 response_line.

(** One iteration of the retry loop on POSIX: the body of the [else] branch. *)
Definition unix_attempt (payload : list byte) (sc : script) : M json :=
  set_healthy true;;
  acquired <- observe (_acquire_unix_socket sc);;
  match acquired with
  | Raise e =>
      (* [s] is still [None] when [finally] runs *)
      try_finally (raise e)
        (h <- get_healthy;; _release_unix_socket None h)
  | Return s =>
      try_finally
        (try_except (exchange s payload sc)
           inner_except
           (fun e => set_healthy false;; raise e))
        (h <- get_healthy;; _release_unix_socket (Some s) h)
  end.

(** One iteration on Windows: a named pipe opened for this attempt only. *)
Definition pipe_attempt (payload : list byte) (sc : script) : M json :=
  match connect_res sc with
  | Some k => emit (EvConnectFailed k);; raise (OSError k)
  | None =>
      f <- new_handle;;
      emit (EvConnect f);;
      try_finally
        (sendall f payload sc;;
         match readline_res sc with
         | inr k => raise (OSError k)
         | inl response_line =>
             emit (EvRecv f response_line);;
             loads_utf8 response_line
         end)
        (emit (EvClose f))
  end.

Definition attempt_once (payload : list byte) (attempt : Z) : M json :=
  if os_name_nt env then pipe_attempt payload (transport env attempt)
  else unix_attempt payload (transport env attempt).

Definition raised {A} (r : result A) : option exn :=
  match r with
  | Return _ => None
  | Raise e => Some e
  end.

(** The [for attempt in range(self._max_retries + 1)] loop and the
    [raise last_error] after it. *)
Fixpoint for_attempts (payload : list byte) (attempts : list Z)
    (last_error : option exn) : M json :=
  match attempts with
  | [] =>
      match last_error with
      | Some e => raise e
      | None => raise TypeError          (* [raise None] *)
      end
  | attempt :: rest =>
      r <- observe (attempt_once payload attempt);;
      emit (EvAttempt attempt (raised r));;
      match r with
      | Return response => ret response
      | Raise e =>
          if outer_except e then
            c <- get_self;;
            if attempt <? _max_retries c
            then sleep (_retry_delay c);; for_attempts payload rest (Some e)
            else raise e
          else raise e
      end
  end.

Definition make_request (method : string) (params : json) (rid : Z)
    (token : option string) : json :=
  JDict [("jsonrpc", JStr "2.0");
         ("method", JStr method);
         ("params", params);
         ("id", JInt rid);
         ("token", match token with Some t => JStr t | None => JNull end)].

Definition encode_request (request : json) : list byte :=
  utf8_encode lib (json_dumps lib request ++ nl)%string.

Definition _call (method : string) (params : json) : M json :=
  let params := if truthy params then params else JDict [] in
  rid <- _next_request_id;;
  token <- _get_token;;
  let payload := encode_request (make_request method params rid token) in
  c <- get_self;;
  for_attempts payload (range (_max_retries c + 1)) None.

(** [obj.get(key, default)]; only a dict has [get]. *)
Definition py_get (obj : json) (key : string) (default : json) : M json :=
  match obj with
  | JDict d => ret (dict_get d key default)
  | _ => raise AttributeError
  end.

Definition error_text (code message : json) : string :=
  ("GICS error " ++ py_str lib code ++ ": " ++ py_str lib message)%string.

Definition _unwrap_result (response : json) : M json :=
  err <- py_get response "error" JNull;;
  if truthy err then
    code <- py_get err "code" (JInt (-1));;
    message <- py_get err "message" (JStr "Unknown error");;
    raise (RuntimeError (error_text code message))
  else py_get response "result" JNull.

End Client.

(** ** The call façade *)

(** [params[key] = value] on a dict literal under construction. *)
Fixpoint dict_set (k : string) (v : json) (d : list (string * json))
    : list (string * json) :=
  match d with
  | [] => [(k, v)]
  | (k', v') :: rest =>
      if (k =? k')%string then (k, v) :: rest else (k', v') :: dict_set k v rest
  end.

(** [if value is not None: params[key] = value]. *)
Definition set_unless_none (k : string) (v : json) (d : list (string * json))
    : list (string * json) :=
  match v with
  | JNull => d
  | _ => dict_set k v d
  end.

Section Facade.

Variable lib : pylib.
Variable env : environment.

Definition put (key fields : json) : M json :=
  resp <- _call lib env "put" (JDict [("key", key); ("fields", fields)]);;
  result <- _unwrap_result lib resp;;
  py_get result "ok" (JBool false).

Definition get (key : json) : M json :=
  resp <- _call lib env "get" (JDict [("key", key)]);;
  _unwrap_result lib resp.

Definition delete (key : json) : M json :=
  resp <- _call lib env "delete" (JDict [("key", key)]);;
  result <- _unwrap_result lib resp;;
  py_get result "ok" (JBool false).

Definition scan (prefix : json) : M json :=
  resp <- _call lib env "scan" (JDict [("prefix", prefix)]);;
  result <- _unwrap_result lib resp;;
  py_get result "items" (JList []).

Definition flush : M json :=
  resp <- _call lib env "flush" JNull;;
  _unwrap_result lib resp.

Definition compact : M json :=
  resp <- _call lib env "compact" JNull;;
  _unwrap_result lib resp.

Definition rotate : M json :=
  resp <- _call lib env "rotate" JNull;;
  _unwrap_result lib resp.

Definition verify (tier : json) : M json :=
  let params := set_unless_none "tier" tier [] in
  resp <- _call lib env "verify" (JDict params);;
  _unwrap_result lib resp.

Definition get_insight (key : json) : M json :=
  resp <- _call lib env "getInsight" (JDict [("key", key)]);;
  _unwrap_result lib resp.

Definition get_insights (insight_type : json) : M json :=
  let params := if truthy insight_type then dict_set "type" insight_type [] else [] in
  resp <- _call lib env "getInsights" (JDict params);;
  _unwrap_result lib resp.

Definition report_outcome (insight_id outcome context : json) : M json :=
  let params := [("insightId", insight_id); ("result", outcome)] in
  let params := set_unless_none "context" context params in
  resp <- _call lib env "reportOutcome" (JDict params);;
  result <- _unwrap_result lib resp;;
  py_get result "ok" (JBool false).

Definition get_correlations (key : json) : M json :=
  let params := set_unless_none "key" key [] in
  resp <- _call lib env "getCorrelations" (JDict params);;
  _unwrap_result lib resp.

Definition get_clusters : M json :=
  resp <- _call lib env "getClusters" JNull;;
  _unwrap_result lib resp.

Definition get_leading_indicators (key : json) : M json :=
  let params := set_unless_none "key" key [] in
  resp <- _call lib env "getLeadingIndicators" (JDict params);;
  _unwrap_result lib resp.

Definition get_seasonal_patterns (key : json) : M json :=
  let params := set_unless_none "key" key [] in
  resp <- _call lib env "getSeasonalPatterns" (JDict params);;
  _unwrap_result lib resp.

Definition get_forecast (key field horizon : json) : M json :=
  let params := [("key", key); ("field", field)] in
  let params := set_unless_none "horizon" horizon params in
  resp <- _call lib env "getForecast" (JDict params);;
  _unwrap_result lib resp.

Definition get_anomalies (since : json) : M json :=
  let params := set_unless_none "since" since [] in
  resp <- _call lib env "getAnomalies" (JDict params);;
  _unwrap_result lib resp.

Definition get_recommendations (filter_type target : json) : M json :=
  let params := set_unless_none "type" filter_type [] in
  let params := set_unless_none "target" target params in
  resp <- _call lib env "getRecommendations" (JDict params);;
  _unwrap_result lib resp.

Definition get_accuracy (insight_type scope : json) : M json :=
  let params := set_unless_none "insightType" insight_type [] in
  let params := set_unless_none "scope" scope params in
  resp <- _call lib env "getAccuracy" (JDict params);;
  _unwrap_result lib resp.

(** The callback argument of [subscribe] is not used by the method. *)
Definition subscribe (event_types : json) : M json :=
  resp <- _call lib env "subscribe" (JDict [("events", event_types)]);;
  result <- _unwrap_result lib resp;;
  py_get result "subscriptionId" JNull.

Definition unsubscribe (subscription_id : json) : M json :=
  resp <- _call lib env "unsubscribe" (JDict [("subscriptionId", subscription_id)]);;
  result <- _unwrap_result lib resp;;
  py_get result "ok" (JBool false).

Definition ping : M json :=
  resp <- _call lib env "ping" JNull;;
  _unwrap_result lib resp.

(** A call of one of the synchronous methods, with its arguments. *)
Inductive api : Type :=
| Put (key fields : json)
| Get (key : json)
| Delete (key : json)
| Scan (prefix : json)
| Flush
| Compact
| Rotate
| Verify (tier : json)
| GetInsight (key : json)
| GetInsights (insight_type : json)
| ReportOutcome (insight_id outcome context : json)
| GetCorrelations (key : json)
| GetClusters
| GetLeadingIndicators (key : json)
| GetSeasonalPatterns (key : json)
| GetForecast (key field horizon : json)
| GetAnomalies (since : json)
| GetRecommendations (filter_type target : json)
| GetAccuracy (insight_type scope : json)
| Subscribe (event_types : json)
| Unsubscribe (subscription_id : json)
| Ping.

Definition invoke (a : api) : M json :=
  match a with
  | Put key fields => put key fields
  | Get key => get key
  | Delete key => delete key
  | Scan prefix => scan prefix
  | Flush => flush
  | Compact => compact
  | Rotate => rotate
  | Verify tier => verify tier
  | GetInsight key => get_insight key
  | GetInsights insight_type => get_insights insight_type
  | ReportOutcome insight_id outcome context => report_outcome insight_id outcome context
  | GetCorrelations key => get_correlations key
  | GetClusters => get_clusters
  | GetLeadingIndicators key => get_leading_indicators key
  | GetSeasonalPatterns key => get_seasonal_patterns key
  | GetForecast key field horizon => get_forecast key field horizon
  | GetAnomalies since => get_anomalies since
  | GetRecommendations filter_type target => get_recommendations filter_type target
  | GetAccuracy insight_type scope => get_accuracy insight_type scope
  | Subscribe event_types => subscribe event_types
  | Unsubscribe subscription_id => unsubscribe subscription_id
  | Ping => ping
  end.

End Facade.

(** * Verification *)

(** ** Tactics and basic facts *)

Ltac unfold_monad :=
  unfold bind, ret, raise, emit, get_self, put_self, get_healthy, set_healthy,
    new_handle, try_finally, try_except, observe in *.

(** Splits on the first [match] scrutinee (or [if] condition) of the goal. *)
Ltac case_step :=
  match goal with
  | |- context [match ?x with _ => _ end] =>
      lazymatch x with
      | context [match _ with _ => _ end] => fail
      | _ => destruct x eqn:?
      end
  end.

Lemma list_pop_None {A} (l : list A) : list_pop l = None <-> l = [].
Proof.
  destruct l as [|x rest]; simpl; [tauto|].
  destruct (list_pop rest) as [[front y]|]; split; discriminate.
Qed.

Lemma list_pop_snoc {A} (front : list A) (y : A) :
  list_pop (front ++ [y]) = Some (front, y).
Proof.
  induction front as [|x front IH]; simpl; [reflexivity|].
  rewrite IH. reflexivity.
Qed.

Lemma list_pop_Some {A} (l front : list A) (y : A) :
  list_pop l = Some (front, y) <-> l = front ++ [y].
Proof.
  split.
  - revert front. induction l as [|x rest IH]; simpl; intros front H; [discriminate|].
    destruct (list_pop rest) as [[front' y']|] eqn:E.
    + injection H as <- <-. rewrite (IH front' eq_refl). reflexivity.
    + injection H as <- <-. apply list_pop_None in E. subst. reflexivity.
  - intros ->. apply list_pop_snoc.
Qed.

Lemma has_newline_app (a b : list byte) :
  has_newline (a ++ b) = has_newline a || has_newline b.
Proof. unfold has_newline. apply existsb_app. Qed.


Lemma first_line_no_newline (line : list byte) :
  has_newline line = false -> forall tail, first_line (line ++ newline :: tail) = line.
Proof.
  induction line as [|x line IH]; simpl; intros H tail; [reflexivity|].
  apply orb_false_iff in H as [Hx Hl]. rewrite Hx. f_equal. apply IH, Hl.
Qed.


(** The integers [a, a+1, ..., a+n-1]. *)
Fixpoint count_from (a : Z) (n : nat) : list Z :=
  match n with
  | O => []
  | S n' => a :: count_from (a + 1) n'
  end.

Lemma count_from_map (a : Z) (n : nat) (k : nat) :
  a = Z.of_nat k -> count_from a n = map Z.of_nat (seq k n).
Proof.
  revert a k. induction n as [|n IH]; intros a k ->; simpl; [reflexivity|].
  f_equal. apply IH. lia.
Qed.

Lemma range_count_from (n : Z) : range n = count_from 0 (Z.to_nat n).
Proof. unfold range. symmetry. apply count_from_map. reflexivity. Qed.

(** ** What every operation of the client leaves alone *)

(** The settings fixed by [__init__]. *)
Definition same_config (c c' : GICSClient) : Prop :=
  address c' = address c /\ _max_retries c' = _max_retries c /\
  _retry_delay c' = _retry_delay c /\ _request_timeout c' = _request_timeout c /\
  _pool_size c' = _pool_size c.

(** The idle set respects the capacity, the capacity is at least one, and
    the idle connections are distinct objects that exist. *)
Definition pool_ok (m : machine) : Prop :=
  1 <= _pool_size (self m) /\
  Z.of_nat (List.length (_pool (self m))) <= _pool_size (self m) /\
  NoDup (_pool (self m)) /\
  (forall c, In c (_pool (self m)) -> (c < next_handle m)%nat).

(** [s] is an object that exists already and is not idle in the pool. *)
Definition stale (s : conn) (m : machine) : Prop :=
  ~ In s (_pool (self m)) /\ (s < next_handle m)%nat.

(** No acquire in the trace handed out [s]. *)
Definition not_acquired (s : conn) (t : list event) : Prop :=
  ~ In (EvPoolPop s) t /\ ~ In (EvConnect s) t.

Definition fs_event (ev : event) : bool :=
  match ev with
  | EvExists _ _ | EvReadFile _ => true
  | _ => false
  end.

(** The events of the retry loop itself. *)
Definition loop_event (ev : event) : bool :=
  match ev with
  | EvAttempt _ _ | EvSleep _ => true
  | _ => false
  end.

Definition skeleton (t : list event) : list event := filter loop_event t.

Record tame (m m' : machine) (t : list event) : Prop := {
  tame_config : same_config (self m) (self m');
  tame_handles : (next_handle m <= next_handle m')%nat;
  tame_bound : pool_ok m -> pool_ok m';
  tame_stale : forall s, stale s m -> stale s m' /\ not_acquired s t;
  tame_token : token_truthy (_token (self m)) = true ->
               _token (self m') = _token (self m) /\ filter fs_event t = []
}.

Lemma same_config_refl c : same_config c c.
Proof. repeat split. Qed.

Lemma same_config_trans c1 c2 c3 :
  same_config c1 c2 -> same_config c2 c3 -> same_config c1 c3.
Proof. unfold same_config. intuition congruence. Qed.

Lemma not_acquired_nil s : not_acquired s [].
Proof. split; intros []. Qed.

Lemma not_acquired_app s t1 t2 :
  not_acquired s t1 -> not_acquired s t2 -> not_acquired s (t1 ++ t2).
Proof.
  intros [A1 B1] [A2 B2]. split; intros H; apply in_app_or in H; tauto.
Qed.

Lemma tame_refl m : tame m m [].
Proof.
  split; auto using same_config_refl, not_acquired_nil.
Qed.

Lemma tame_trans m1 m2 m3 t1 t2 :
  tame m1 m2 t1 -> tame m2 m3 t2 -> tame m1 m3 (t1 ++ t2).
Proof.
  intros [C1 H1 B1 S1 T1] [C2 H2 B2 S2 T2]. split.
  - eapply same_config_trans; eauto.
  - lia.
  - auto.
  - intros s Hs. destruct (S1 s Hs) as [Hs1 N1]. destruct (S2 s Hs1) as [Hs2 N2].
    split; [assumption|]. apply not_acquired_app; assumption.
  - intros Ht. destruct (T1 Ht) as [E1 F1].
    assert (Ht2 : token_truthy (_token (self m2)) = true) by (rewrite E1; exact Ht).
    destruct (T2 Ht2) as [E2 F2]. split; [congruence|].
    rewrite filter_app, F1, F2. reflexivity.
Qed.

(** A step that leaves the client object and the handles alone. *)
Lemma tame_local m m' t :
  self m' = self m -> next_handle m' = next_handle m ->
  filter fs_event t = [] ->
  (forall s, not_acquired s t) ->
  tame m m' t.
Proof.
  intros Hs Hh Hf Hn.
  split; unfold pool_ok, stale; rewrite ?Hs, ?Hh; auto using same_config_refl.
Qed.

Lemma with_pool_same c : with_pool c (_pool c) = c.
Proof. destruct c; reflexivity. Qed.

(** Events of the byte stream of one connection. *)
Definition io_event (ev : event) : bool :=
  match ev with
  | EvSend _ _ | EvRecv _ _ => true
  | _ => false
  end.

Lemma io_no_fs t : forallb io_event t = true -> filter fs_event t = [].
Proof.
  induction t as [|ev t IH]; simpl; [reflexivity|].
  intros H. apply andb_true_iff in H as [He Ht].
  destruct ev; try discriminate; simpl; auto.
Qed.

Lemma io_no_loop t : forallb io_event t = true -> skeleton t = [].
Proof.
  induction t as [|ev t IH]; simpl; [reflexivity|].
  intros H. apply andb_true_iff in H as [He Ht].
  destruct ev; try discriminate; simpl; auto.
Qed.

Lemma io_not_acquired t s : forallb io_event t = true -> not_acquired s t.
Proof.
  intros H. rewrite forallb_forall in H.
  split; intros Hin; apply H in Hin; discriminate.
Qed.


(** A computation that changes at most the local [healthy] and only moves
    bytes. *)
Definition only_io {A} (x : M A) : Prop :=
  forall m r m' t, x m = (r, m', t) ->
    self m' = self m /\ next_handle m' = next_handle m /\ forallb io_event t = true.

(** The first path that exists, with what is there. *)
Fixpoint first_existing (files : string -> option file) (paths : list string)
    : option (string * file) :=
  match paths with
  | [] => None
  | p :: rest =>
      match files p with
      | Some f => Some (p, f)
      | None => first_existing files rest
      end
  end.

(** Token resolution on [m] in [env] does not raise: the client holds a
    token, or the first candidate that exists can be read. *)
Definition resolves (env : environment) (m : machine) : bool :=
  token_truthy (_token (self m)) ||
  match first_existing (fs env) (token_paths env) with
  | Some (_, Unreadable _) => false
  | _ => true
  end.

(** The lengths [s.settimeout] and [time.sleep] accept. *)
Definition timeout_ok (lib : pylib) (d : Q) : bool :=
  negb (timeout_overflows lib d) && Qle_bool (0 # 1) d.

Definition sleep_ok (lib : pylib) (d : Q) : bool :=
  negb (sleep_overflows lib d) && Qle_bool (0 # 1) d.

(** What each raises on a length it does not accept. *)
Definition timeout_error (lib : pylib) (d : Q) : exn :=
  if timeout_overflows lib d then OverflowError else ValueError.

Definition sleep_error (lib : pylib) (d : Q) : exn :=
  if sleep_overflows lib d then OverflowError else ValueError.

(** An acquire on [m] hands out a connection: an idle one, or a new one
    whose timeout is accepted and whose connect succeeds. *)
Definition acquires (lib : pylib) (sc : script) (m : machine) : Prop :=
  _pool (self m) <> [] \/
  (timeout_ok lib (_request_timeout (self m)) = true /\ connect_res sc = None).

Lemma resolves_truthy env m :
  token_truthy (_token (self m)) = true -> resolves env m = true.
Proof. unfold resolves. intros ->. reflexivity. Qed.

Lemma acquires_same lib sc m m0 :
  _pool (self m0) = _pool (self m) ->
  same_config (self m) (self m0) ->
  acquires lib sc m -> acquires lib sc m0.
Proof.
  intros Hp (_ & _ & _ & Ht & _). unfold acquires. rewrite Hp, Ht. tauto.
Qed.

Section ClientFacts.

Variable lib : pylib.
Variable env : environment.

Lemma recv_loop_only_io s recvs : forall buffer, only_io (recv_loop s buffer recvs).
Proof.
  induction recvs as [|[chunk|k] rest IH]; intros buffer m r m' t H; simpl in H.
  - unfold_monad. injection H as <- <- <-. auto.
  - destruct chunk as [|b chunk].
    + unfold_monad. simpl in H. injection H as <- <- <-. auto.
    + unfold bind at 1 in H. unfold emit at 1 in H.
      destruct (has_newline (buffer ++ b :: chunk)).
      * unfold_monad. injection H as <- <- <-. auto.
      * destruct (recv_loop s (buffer ++ b :: chunk) rest m) as [[r1 m1] t1] eqn:E.
        apply IH in E. destruct r1; injection H as <- <- <-; simpl; tauto.
  - unfold_monad. injection H as <- <- <-. auto.
Qed.

Lemma loads_utf8_pure line m :
  exists r, loads_utf8 lib line m = (r, m, []).
Proof.
  unfold loads_utf8. repeat case_step; unfold_monad; eauto.
Qed.

Lemma exchange_only_io s payload sc : only_io (exchange lib s payload sc).
Proof.
  intros m r m' t H. unfold exchange, sendall in H.
  destruct (send_res sc).
  - unfold_monad. injection H as <- <- <-. auto.
  - unfold bind at 1 in H. unfold emit at 1 in H.
    unfold bind at 1 in H.
    destruct (recv_loop s [] (recv_res sc) m) as [[r1 m1] t1] eqn:E.
    apply recv_loop_only_io in E. destruct E as (E1 & E2 & E3).
    destruct r1 as [buffer|e].
    + destruct (loads_utf8_pure (first_line buffer) m1) as [r2 E4].
      rewrite E4 in H. injection H as <- <- <-.
      rewrite app_nil_r. simpl. auto.
    + injection H as <- <- <-. simpl. auto.
Qed.

(** The local [healthy] survives the exchange unless an [OSError] left it. *)
Lemma recv_loop_healthy s recvs : forall buffer m r m' t,
  recv_loop s buffer recvs m = (r, m', t) ->
  healthy m' = healthy m \/ exists k, r = Raise (OSError k).
Proof.
  induction recvs as [|[chunk|k] rest IH]; intros buffer m r m' t H; simpl in H.
  - unfold_monad. injection H as <- <- <-. auto.
  - destruct chunk as [|b chunk].
    + unfold_monad. simpl in H. injection H as <- <- <-. eauto.
    + unfold bind at 1 in H. unfold emit at 1 in H.
      destruct (has_newline (buffer ++ b :: chunk)).
      * unfold_monad. injection H as <- <- <-. auto.
      * destruct (recv_loop s (buffer ++ b :: chunk) rest m) as [[r1 m1] t1] eqn:E.
        apply IH in E. destruct r1; injection H as <- <- <-; simpl; tauto.
  - unfold_monad. injection H as <- <- <-. eauto.
Qed.

Lemma exchange_healthy s payload sc m r m' t :
  exchange lib s payload sc m = (r, m', t) ->
  healthy m' = healthy m \/ exists k, r = Raise (OSError k).
Proof.
  intros H. unfold exchange, sendall in H.
  destruct (send_res sc).
  - unfold_monad. injection H as <- <- <-. eauto.
  - unfold bind at 1 in H. unfold emit at 1 in H.
    unfold bind at 1 in H.
    destruct (recv_loop s [] (recv_res sc) m) as [[r1 m1] t1] eqn:E.
    apply recv_loop_healthy in E.
    destruct r1 as [buffer|e].
    + destruct (loads_utf8_pure (first_line buffer) m1) as [r2 E4].
      rewrite E4 in H. injection H as <- <- <-.
      destruct E as [E|[k E]]; [auto|discriminate].
    + injection H as <- <- <-.
      destruct E as [E|[k E]]; [left; exact E | right; exists k; congruence].
Qed.

(** The local [healthy] that [finally] passes to the release. *)
Definition healthy_after (r : result json) : bool :=
  match r with
  | Return _ => true
  | Raise e => negb (inner_except e)
  end.

(** *** The pool *)

Lemma settimeout_spec d m :
  settimeout lib d m =
  (if timeout_ok lib d then Return tt else Raise (timeout_error lib d), m, []).
Proof.
  unfold settimeout, timeout_ok, timeout_error.
  destruct (timeout_overflows lib d); [reflexivity|].
  destruct (Qle_bool (0 # 1) d); reflexivity.
Qed.

Lemma timeout_error_passes d : inner_except (timeout_error lib d) = false.
Proof. unfold timeout_error. destruct (timeout_overflows lib d); reflexivity. Qed.

Lemma acquire_spec sc m r m' t :
  _acquire_unix_socket lib sc m = (r, m', t) ->
  healthy m' = healthy m /\
  ((exists front s,
       _pool (self m) = front ++ [s] /\ r = Return s /\
       self m' = with_pool (self m) front /\
       next_handle m' = next_handle m /\ t = [EvPoolPop s])
   \/ (_pool (self m) = [] /\ self m' = self m /\
       next_handle m' = S (next_handle m) /\
       ((timeout_ok lib (_request_timeout (self m)) = true /\
         connect_res sc = None /\ r = Return (next_handle m) /\
         t = [EvConnect (next_handle m)])
        \/ (exists k, timeout_ok lib (_request_timeout (self m)) = true /\
            connect_res sc = Some k /\ r = Raise (OSError k) /\
            t = [EvConnectFailed k])
        \/ (timeout_ok lib (_request_timeout (self m)) = false /\
            r = Raise (timeout_error lib (_request_timeout (self m))) /\
            t = [])))).
Proof.
  unfold _acquire_unix_socket, _open_unix_socket.
  unfold bind at 1, get_self at 1.
  destruct (list_pop (_pool (self m))) as [[front s]|] eqn:E.
  - apply list_pop_Some in E. unfold_monad. intros H. injection H as <- <- <-. simpl.
    split; [reflexivity|]. left. exists front, s. auto.
  - apply list_pop_None in E.
    unfold bind at 1, new_handle at 1. unfold bind at 1, get_self at 1.
    unfold bind at 1. rewrite settimeout_spec. cbn [self].
    destruct (timeout_ok lib (_request_timeout (self m))) eqn:Et.
    + destruct (connect_res sc) as [k|]; unfold_monad; simpl;
        intros H; injection H as <- <- <-; simpl;
        (split; [reflexivity|]); right;
        (split; [assumption|]); (split; [reflexivity|]); (split; [reflexivity|]).
      * right. left. exists k. auto.
      * left. auto.
    + intros H. injection H as <- <- <-. simpl.
      split; [reflexivity|]. right. repeat split; auto.
Qed.

Lemma release_spec s h m :
  exists m' t,
    _release_unix_socket (Some s) h m = (Return tt, m', t) /\
    healthy m' = healthy m /\ next_handle m' = next_handle m /\
    ((h = true /\
      Z.of_nat (List.length (_pool (self m))) < _pool_size (self m) /\
      self m' = with_pool (self m) (_pool (self m) ++ [s]) /\
      t = [EvPoolAppend s])
     \/ ((h = false \/ _pool_size (self m) <= Z.of_nat (List.length (_pool (self m)))) /\
         self m' = self m /\ t = [EvClose s])).
Proof.
  unfold _release_unix_socket, close_quietly. unfold_monad.
  destruct h; simpl.
  - destruct (Z.ltb_spec (Z.of_nat (List.length (_pool (self m)))) (_pool_size (self m))).
    + do 2 eexists. split; [reflexivity|]. simpl. repeat split. left. auto.
    + do 2 eexists. split; [reflexivity|]. simpl. repeat split. right. auto.
  - do 2 eexists. split; [reflexivity|]. simpl. repeat split. right. auto.
Qed.

Lemma release_none h m : _release_unix_socket None h m = (Return tt, m, []).
Proof. reflexivity. Qed.

Lemma release_with_healthy s m :
  (h <- get_healthy;; _release_unix_socket s h) m =
  _release_unix_socket s (healthy m) m.
Proof.
  unfold bind, get_healthy.
  destruct (_release_unix_socket s (healthy m) m) as [[r m1] t1].
  destruct r; reflexivity.
Qed.

(** The inner [try ... except] with its [finally], on a connection [s]
    already acquired. *)
Lemma guarded_exchange_spec s payload sc m r m' t :
  healthy m = true ->
  try_finally
    (try_except (exchange lib s payload sc) inner_except
       (fun e => set_healthy false;; raise e))
    (h <- get_healthy;; _release_unix_socket (Some s) h) m = (r, m', t) ->
  exists m2 t_io,
    exchange lib s payload sc m = (r, m2, t_io) /\
    forallb io_event t_io = true /\
    healthy m' = healthy_after r /\
    next_handle m' = next_handle m /\
    ((healthy_after r = true /\
      Z.of_nat (List.length (_pool (self m))) < _pool_size (self m) /\
      self m' = with_pool (self m) (_pool (self m) ++ [s]) /\
      t = t_io ++ [EvPoolAppend s])
     \/ ((healthy_after r = false \/
          _pool_size (self m) <= Z.of_nat (List.length (_pool (self m)))) /\
         self m' = self m /\
         t = t_io ++ [EvClose s])).
Proof.
  intros Hm H. unfold try_finally, try_except in H.
  destruct (exchange lib s payload sc m) as [[rx mx] tx] eqn:Ex.
  pose proof (@exchange_only_io s payload sc _ _ _ _ Ex) as (X1 & X2 & X3).
  pose proof (exchange_healthy _ _ _ _ Ex) as X4.
  assert (Hfin : exists mh, self mh = self m /\ next_handle mh = next_handle m /\
            healthy mh = healthy_after rx /\
            (let '(rh, m2, t2) :=
               (h <- get_healthy;; _release_unix_socket (Some s) h) mh in
             match rh with
             | Return _ => (rx, m2, tx ++ t2)
             | Raise e => (Raise e, m2, tx ++ t2)
             end) = (r, m', t)).
  { destruct rx as [v|e].
    - exists mx. destruct X4 as [X4|[k X4]]; [|discriminate].
      unfold healthy_after.
      split; [assumption|]. split; [assumption|]. split; [congruence|exact H].
    - destruct (inner_except e) eqn:Ee.
      + unfold bind at 1, set_healthy at 1, raise at 1 in H.
        rewrite app_nil_r in H.
        exists {| self := self mx; healthy := false; next_handle := next_handle mx |}.
        unfold healthy_after. rewrite Ee.
        split; [assumption|]. split; [assumption|]. split; [reflexivity|exact H].
      + exists mx. unfold healthy_after. rewrite Ee.
        destruct X4 as [X4|[k X4]]; [|injection X4 as ->; discriminate].
        split; [assumption|]. split; [assumption|].
        split; [simpl; congruence|exact H]. }
  clear H. destruct Hfin as (mh & H1 & H2 & H3 & H).
  rewrite release_with_healthy in H.
  destruct (release_spec s (healthy mh) mh) as (m2 & t2 & E & R1 & R2 & R3).
  rewrite E in H. injection H as -> <- <-.
  exists mx, tx. rewrite R1, R2, H2, H3. rewrite H1, H3 in R3.
  repeat split; try assumption.
  destruct R3 as [(A & B & C & D)|(A & C & D)]; [left|right]; subst t2; auto.
Qed.

(** *** One attempt on a socket

    Either the connect fails and nothing else happens, or the timeout of the
    new socket is refused and nothing else happens, or a connection [s] is
    acquired, the exchange runs on it, and [s] is released with the [healthy]
    the exchange left. *)
Lemma unix_attempt_anatomy payload sc m r m' t :
  unix_attempt lib payload sc m = (r, m', t) ->
  (exists k,
      _pool (self m) = [] /\ connect_res sc = Some k /\ r = Raise (OSError k) /\
      t = [EvConnectFailed k] /\ self m' = self m /\
      next_handle m' = S (next_handle m) /\ healthy m' = true)
  \/
  (_pool (self m) = [] /\ timeout_ok lib (_request_timeout (self m)) = false /\
   r = Raise (timeout_error lib (_request_timeout (self m))) /\
   t = [] /\ self m' = self m /\
   next_handle m' = S (next_handle m) /\ healthy m' = true)
  \/
  (exists s front t_acq t_io,
      ((_pool (self m) = front ++ [s] /\ t_acq = [EvPoolPop s] /\
        next_handle m' = next_handle m)
       \/ (_pool (self m) = [] /\ front = [] /\
           timeout_ok lib (_request_timeout (self m)) = true /\
           connect_res sc = None /\
           s = next_handle m /\ t_acq = [EvConnect s] /\ next_handle m' = S s)) /\
      (exists m1 m2,
          healthy m1 = true /\ self m1 = with_pool (self m) front /\
          exchange lib s payload sc m1 = (r, m2, t_io)) /\
      forallb io_event t_io = true /\
      healthy m' = healthy_after r /\
      ((healthy_after r = true /\
        Z.of_nat (List.length front) < _pool_size (self m) /\
        self m' = with_pool (self m) (front ++ [s]) /\
        t = t_acq ++ t_io ++ [EvPoolAppend s])
       \/ ((healthy_after r = false \/
            _pool_size (self m) <= Z.of_nat (List.length front)) /\
           self m' = with_pool (self m) front /\
           t = t_acq ++ t_io ++ [EvClose s]))).
Proof.
  unfold unix_attempt.
  unfold bind at 1. unfold set_healthy at 1.
  unfold bind at 1. unfold observe at 1.
  set (m0 := {| self := self m; healthy := true; next_handle := next_handle m |}).
  destruct (_acquire_unix_socket lib sc m0) as [[ra ma] ta] eqn:Ea.
  apply acquire_spec in Ea. destruct Ea as [Hh Ea]. simpl in Hh.
  destruct Ea as [(front & s & Hp & -> & Hs & Hn & ->)
                 |(Hp & Hs & Hn & [(Ht & Hc & -> & ->)
                                  |[(k & Ht & Hc & -> & ->)|(Ht & -> & ->)]])].
  - (* a pooled connection *)
    match goal with
    | |- context [try_finally ?b ?h ma] =>
        destruct (try_finally b h ma) as [[r1 m1] t1] eqn:E
    end.
    apply guarded_exchange_spec in E; [|assumption].
    destruct E as (m2 & t_io & Ex & Hio & Hh' & Hn' & Hrel).
    intros H. injection H as <- <- <-.
    right. right. exists s, front, [EvPoolPop s], t_io. simpl in Hp, Hs, Hn.
    rewrite Hs in Hrel. simpl in Hrel.
    split; [left; repeat split; congruence|].
    split; [exists ma, m2; auto|].
    split; [assumption|]. split; [assumption|].
    destruct Hrel as [(A & B & C & D)|(A & C & D)]; [left|right];
      subst t1; simpl; auto.
  - (* a new connection *)
    match goal with
    | |- context [try_finally ?b ?h ma] =>
        destruct (try_finally b h ma) as [[r1 m1] t1] eqn:E
    end.
    apply guarded_exchange_spec in E; [|assumption].
    destruct E as (m2 & t_io & Ex & Hio & Hh' & Hn' & Hrel).
    intros H. injection H as <- <- <-.
    right. right. exists (next_handle m), [], [EvConnect (next_handle m)], t_io.
    simpl in Hp, Hs, Hn, Ht. rewrite Hs in Hrel. simpl in Hrel. rewrite Hp in Hrel.
    split; [right; repeat split; congruence|].
    split; [exists ma, m2; repeat split; try assumption;
            rewrite Hs, <- Hp; symmetry; apply with_pool_same|].
    split; [assumption|]. split; [assumption|].
    destruct Hrel as [(A & B & C & D)|(A & C & D)]; [left|right];
      subst t1; simpl; repeat split; auto.
    rewrite C, <- Hp. symmetry. apply with_pool_same.
  - (* the connect failed *)
    unfold try_finally, raise. rewrite release_with_healthy, release_none.
    intros H. injection H as <- <- <-.
    left. exists k. simpl in *. repeat split; auto.
  - (* the timeout was refused *)
    unfold try_finally, raise. rewrite release_with_healthy, release_none.
    intros H. injection H as <- <- <-.
    right. left. simpl in *. repeat split; auto.
Qed.

Lemma unix_attempt_tame payload sc m r m' t :
  unix_attempt lib payload sc m = (r, m', t) ->
  tame m m' t /\ skeleton t = [].
Proof.
  intros H. apply unix_attempt_anatomy in H.
  destruct H as [(k & Hp & Hc & -> & -> & Hs & Hn & Hh)
                |[(Hp & Ht & -> & -> & Hs & Hn & Hh)
                 |(s & front & t_acq & t_io & Hacq & _ & Hio & _ & Hrel)]].
  - split; [|reflexivity]. split; unfold pool_ok, stale; rewrite ?Hs, ?Hn.
    + apply same_config_refl.
    + lia.
    + intros (A & B & C & D). repeat split; auto. intros c Hc'. apply D in Hc'. lia.
    + intros x [A B]. repeat split; auto; simpl; intros [E|[]]; discriminate.
    + auto.
  - split; [|reflexivity]. split; unfold pool_ok, stale; rewrite ?Hs, ?Hn.
    + apply same_config_refl.
    + lia.
    + intros (A & B & C & D). repeat split; auto. intros c Hc'. apply D in Hc'. lia.
    + intros x [A B]. repeat split; auto; simpl; intros [].
    + auto.
  - assert (Ht : exists last, t = t_acq ++ t_io ++ [last] /\
                   (last = EvPoolAppend s \/ last = EvClose s)).
    { destruct Hrel as [(_ & _ & _ & ->)|(_ & _ & ->)]; eauto. }
    destruct Ht as (last & -> & Hlast).
    assert (Hcfg : same_config (self m) (self m')).
    { destruct Hrel as [(_ & _ & -> & _)|(_ & -> & _)]; repeat split. }
    assert (Htok : _token (self m') = _token (self m)).
    { destruct Hrel as [(_ & _ & -> & _)|(_ & -> & _)]; reflexivity. }
    assert (Hfs : filter fs_event (t_acq ++ t_io ++ [last]) = []).
    { rewrite !filter_app, (io_no_fs _ Hio).
      destruct Hacq as [(_ & -> & _)|(_ & _ & _ & _ & _ & -> & _)];
        destruct Hlast as [-> | ->]; reflexivity. }
    assert (Hsk : skeleton (t_acq ++ t_io ++ [last]) = []).
    { unfold skeleton. rewrite !filter_app. fold (skeleton t_io).
      rewrite (io_no_loop _ Hio).
      destruct Hacq as [(_ & -> & _)|(_ & _ & _ & _ & _ & -> & _)];
        destruct Hlast as [-> | ->]; reflexivity. }
    split; [|exact Hsk]. split; auto.
    + destruct Hacq as [(_ & _ & ->)|(_ & _ & _ & _ & Hs' & _ & ->)]; lia.
    + (* the pool invariant *)
      unfold pool_ok. destruct Hcfg as (_ & _ & _ & _ & Hsz). rewrite Hsz.
      intros (A & B & C & D). split; [assumption|].
      destruct Hacq as [(Hp & _ & Hn)|(Hp & -> & _ & _ & -> & _ & Hn)]; rewrite Hn.
      * rewrite Hp in B, C, D.
        destruct Hrel as [(_ & L & -> & _)|(_ & -> & _)]; simpl.
        -- repeat split; auto.
        -- rewrite length_app in B. simpl in B.
           split; [lia|]. split; [eapply NoDup_app_remove_r; eassumption|].
           intros c Hc'. apply D, in_or_app. auto.
      * destruct Hrel as [(_ & L & -> & _)|(_ & -> & _)]; simpl.
        -- split; [lia|]. split; [repeat constructor; intros []|].
           intros c [<-|[]]. lia.
        -- split; [lia|]. split; [constructor|]. intros c [].
    + (* connections out of the pool stay out *)
      unfold stale. intros x [Hx Hlt].
      assert (Hxs : x <> s).
      { destruct Hacq as [(Hp & _)|(_ & _ & _ & _ & -> & _)]; [|lia].
        intros ->. apply Hx. rewrite Hp. apply in_or_app. right. left. reflexivity. }
      assert (Hsub : forall c, In c (_pool (self m')) -> In c (_pool (self m)) \/ c = s).
      { intros c.
        destruct Hacq as [(Hp & _)|(Hp & -> & _)]; rewrite Hp;
          destruct Hrel as [(_ & _ & -> & _)|(_ & -> & _)]; simpl; intros Hc'.
        - left. assumption.
        - left. apply in_or_app. left. assumption.
        - destruct Hc' as [<-|[]]. right. reflexivity.
        - destruct Hc'. }
      split; [split|].
      * intros Hin. apply Hsub in Hin. tauto.
      * destruct Hacq as [(_ & _ & ->)|(_ & _ & _ & _ & Hs' & _ & ->)]; lia.
      * apply not_acquired_app; [|apply not_acquired_app].
        -- destruct Hacq as [(_ & -> & _)|(_ & _ & _ & _ & _ & -> & _)];
             split; simpl; intros [E|[]]; congruence.
        -- apply io_not_acquired, Hio.
        -- destruct Hlast as [-> | ->]; split; simpl; intros [E|[]]; discriminate.
Qed.

Lemma pipe_attempt_tame payload sc m r m' t :
  pipe_attempt lib payload sc m = (r, m', t) ->
  tame m m' t /\ skeleton t = [] /\ self m' = self m.
Proof.
  unfold pipe_attempt, sendall. intros H.
  assert (Hgo : self m' = self m /\ (next_handle m <= next_handle m')%nat /\
                filter fs_event t = [] /\ skeleton t = [] /\
                forall c, In (EvPoolPop c) t \/ In (EvConnect c) t -> c = next_handle m).
  { destruct (connect_res sc) as [k|].
    - unfold_monad. injection H as <- <- <-. simpl.
      repeat split; auto. intros c [[E|[]]|[E|[]]]; discriminate.
    - destruct (send_res sc) as [k|].
      + unfold_monad. simpl in H. injection H as <- <- <-. simpl.
        repeat split; auto. intros c [[E|[E|[]]]|[E|[E|[]]]]; congruence.
      + destruct (readline_res sc) as [line|k].
        * unfold bind at 1, new_handle at 1 in H.
          unfold bind at 1, emit at 1 in H.
          unfold try_finally in H. unfold bind at 1, emit at 1 in H.
          unfold bind at 1, emit at 1 in H.
          match type of H with
          | context [loads_utf8 lib line ?mm] =>
              destruct (loads_utf8_pure line mm) as [r2 E]; rewrite E in H
          end.
          unfold emit in H. simpl in H. injection H as <- <- <-. simpl.
          repeat split; auto.
          intros c [[E1|[E1|[E1|[E1|[]]]]]|[E1|[E1|[E1|[E1|[]]]]]]; congruence.
        * unfold_monad. simpl in H. injection H as <- <- <-. simpl.
          repeat split; auto.
          intros c [[E1|[E1|[E1|[]]]]|[E1|[E1|[E1|[]]]]]; congruence. }
  destruct Hgo as (Hs & Hn & Hf & Hk & Hc).
  split; [|split; [assumption|exact Hs]].
  split; unfold pool_ok, stale; rewrite ?Hs; auto using same_config_refl.
  - intros (A & B & C & D). repeat split; auto. intros c Hc'. apply D in Hc'. lia.
  - intros x [A B]. split; [split; [assumption|lia]|].
    split; intros Hin; [assert (x = next_handle m) by (apply Hc; auto)
                       |assert (x = next_handle m) by (apply Hc; auto)]; lia.
Qed.

Lemma attempt_once_tame payload attempt m r m' t :
  attempt_once lib env payload attempt m = (r, m', t) ->
  tame m m' t /\ skeleton t = [].
Proof.
  unfold attempt_once. destruct (os_name_nt env); intros H.
  - apply pipe_attempt_tame in H. tauto.
  - apply unix_attempt_tame in H. assumption.
Qed.

(** *** Token resolution and the id counter *)

Lemma fs_no_loop t : forallb fs_event t = true -> skeleton t = [].
Proof.
  induction t as [|ev t IH]; simpl; [reflexivity|].
  intros H. apply andb_true_iff in H as [He Ht].
  destruct ev; try discriminate; simpl; auto.
Qed.

Lemma fs_not_acquired t s : forallb fs_event t = true -> not_acquired s t.
Proof.
  intros H. rewrite forallb_forall in H.
  split; intros Hin; apply H in Hin; discriminate.
Qed.


Lemma probe_spec paths m :
  exists r m' t,
    probe lib env paths m = (r, m', t) /\
    healthy m' = healthy m /\ next_handle m' = next_handle m /\
    forallb fs_event t = true /\
    match r with
    | Return tok => (tok = None /\ self m' = self m) \/ self m' = with_token (self m) tok
    | Raise _ => self m' = self m
    end.
Proof.
  induction paths as [|p rest IH]; simpl.
  - exists (Return None), m, []. unfold ret. repeat split; auto.
  - destruct (fs env p) as [[text|e]|].
    + unfold_monad. simpl. do 3 eexists. split; [reflexivity|]. simpl.
      repeat split; auto.
    + unfold_monad. simpl. do 3 eexists. split; [reflexivity|]. simpl.
      repeat split; auto.
    + destruct IH as (r & m' & t & E & H1 & H2 & H3 & H4).
      unfold bind, emit. rewrite E. exists r, m', (EvExists p false :: t).
      destruct r; repeat split; auto.
Qed.

Lemma get_token_spec m :
  exists r m' t,
    _get_token lib env m = (r, m', t) /\
    healthy m' = healthy m /\ next_handle m' = next_handle m /\
    forallb fs_event t = true /\
    _request_id (self m') = _request_id (self m) /\
    _pool (self m') = _pool (self m) /\
    same_config (self m) (self m') /\
    (token_truthy (_token (self m)) = true ->
       r = Return (_token (self m)) /\ m' = m /\ t = []).
Proof.
  unfold _get_token. unfold bind at 1, get_self at 1.
  destruct (token_truthy (_token (self m))) eqn:Et.
  - exists (Return (_token (self m))), m, []. unfold ret. simpl.
    repeat split; auto.
  - destruct (probe_spec (token_paths env) m)
      as (r & m' & t & E & H1 & H2 & H3 & H4).
    rewrite E. exists r, m', t. simpl.
    split; [destruct r; reflexivity|].
    assert (Hs : _request_id (self m') = _request_id (self m) /\
                 _pool (self m') = _pool (self m) /\ same_config (self m) (self m')).
    { destruct r as [tok|e]; [destruct H4 as [[_ ->]| ->]|rewrite H4]; repeat split. }
    intuition discriminate.
Qed.

Lemma probe_outcome paths m :
  match first_existing (fs env) paths with
  | Some (_, Unreadable e) => fst (fst (probe lib env paths m)) = Raise e
  | Some (_, Readable text) =>
      fst (fst (probe lib env paths m)) = Return (Some (str_strip lib text))
  | None => fst (fst (probe lib env paths m)) = Return None
  end.
Proof.
  induction paths as [|p rest IH]; simpl; [reflexivity|].
  destruct (fs env p) as [[text|e]|]; [reflexivity|reflexivity|].
  unfold bind, emit.
  destruct (probe lib env rest m) as [[r m1] t1]. simpl in IH.
  destruct (first_existing (fs env) rest) as [[q [text|e]]|]; rewrite IH; reflexivity.
Qed.

(** Token resolution returns exactly when [resolves] says so. *)
Lemma get_token_resolves m :
  if resolves env m
  then exists tok m' t, _get_token lib env m = (Return tok, m', t)
  else exists e m' t, _get_token lib env m = (Raise e, m', t).
Proof.
  unfold resolves.
  destruct (token_truthy (_token (self m))) eqn:Et; cbn [orb].
  - do 3 eexists. unfold _get_token, bind, get_self. rewrite Et. reflexivity.
  - assert (G : _get_token lib env m = probe lib env (token_paths env) m).
    { unfold _get_token, bind, get_self. rewrite Et.
      destruct (probe lib env (token_paths env) m) as [[[] ?] ?]; reflexivity. }
    rewrite G.
    pose proof (probe_outcome (token_paths env) m) as H.
    destruct (probe lib env (token_paths env) m) as [[r m1] t1]. cbn [fst] in H.
    destruct (first_existing (fs env) (token_paths env)) as [[q [text|e]]|];
      subst r; eauto.
Qed.

Lemma get_token_tame m r m' t :
  _get_token lib env m = (r, m', t) -> tame m m' t /\ skeleton t = [].
Proof.
  intros H.
  destruct (get_token_spec m) as (r1 & m1 & t1 & E & H1 & H2 & H3 & H4 & H5 & H6 & H7).
  rewrite E in H. injection H as <- <- <-.
  split; [|apply fs_no_loop, H3].
  split.
  - exact H6.
  - lia.
  - unfold pool_ok. rewrite H2, H5. destruct H6 as (_ & _ & _ & _ & ->). auto.
  - unfold stale. rewrite H2, H5. auto using fs_not_acquired.
  - intros Ht. destruct (H7 Ht) as (_ & -> & ->). auto.
Qed.

Lemma next_request_id_spec m :
  _next_request_id m =
    (Return (_request_id (self m)),
     {| self := with_request_id (self m) (_request_id (self m) + 1);
        healthy := healthy m; next_handle := next_handle m |}, []).
Proof. reflexivity. Qed.

Lemma next_request_id_tame m r m' t :
  _next_request_id m = (r, m', t) -> tame m m' t /\ skeleton t = [].
Proof.
  rewrite next_request_id_spec. intros H. injection H as <- <- <-.
  split; [|reflexivity].
  split; unfold pool_ok, stale; simpl.
  - repeat split.
  - lia.
  - auto.
  - intros s Hs. split; [exact Hs|apply not_acquired_nil].
  - auto.
Qed.

(** *** The retry loop *)

Lemma sleep_run d m :
  sleep lib d m =
  if sleep_ok lib d then (Return tt, m, [EvSleep d])
  else (Raise (sleep_error lib d), m, []).
Proof.
  unfold sleep, sleep_ok, sleep_error.
  destruct (sleep_overflows lib d); [reflexivity|].
  destruct (Qle_bool (0 # 1) d); reflexivity.
Qed.

Lemma sleep_spec d m r m' t :
  sleep lib d m = (r, m', t) ->
  m' = m /\ ((sleep_ok lib d = true /\ r = Return tt /\ t = [EvSleep d])
             \/ (sleep_ok lib d = false /\ r = Raise (sleep_error lib d) /\ t = [])).
Proof.
  rewrite sleep_run. destruct (sleep_ok lib d);
    intros H; injection H as <- <- <-; auto.
Qed.

Lemma tame_quiet m t :
  filter fs_event t = [] -> (forall s, not_acquired s t) -> tame m m t.
Proof. intros. apply tame_local; auto. Qed.

Lemma for_attempts_tame payload attempts : forall last m r m' t,
  for_attempts lib env payload attempts last m = (r, m', t) -> tame m m' t.
Proof.
  induction attempts as [|attempt rest IH]; intros last m r m' t H; simpl in H.
  - destruct last; unfold raise in H; injection H as <- <- <-; apply tame_refl.
  - unfold bind at 1, observe at 1 in H.
    destruct (attempt_once lib env payload attempt m) as [[r1 m1] t1] eqn:E1.
    apply attempt_once_tame in E1. destruct E1 as [T1 _].
    unfold bind at 1, emit at 1 in H.
    assert (Hev : tame m1 m1 [EvAttempt attempt (raised r1)]).
    { apply tame_quiet; [reflexivity|].
      intros s; split; simpl; intros [E|[]]; discriminate. }
    destruct r1 as [v|e].
    + unfold ret in H. injection H as <- <- <-.
      eapply tame_trans; [exact T1|]. simpl. exact Hev.
    + destruct (outer_except e).
      * unfold bind at 1, get_self at 1 in H.
        destruct (attempt <? _max_retries (self m1)).
        -- unfold bind at 1 in H.
           destruct (sleep lib (_retry_delay (self m1)) m1) as [[r2 m2] t2] eqn:E2.
           apply sleep_spec in E2. destruct E2 as [-> E2].
           assert (Hsl : tame m1 m1 t2).
           { apply tame_quiet;
               destruct E2 as [(_ & _ & ->)|(_ & _ & ->)]; try reflexivity;
               intros s; split; simpl; try tauto; intros [E|[]]; discriminate. }
           destruct r2 as [[]|e2].
           ++ destruct (for_attempts lib env payload rest (Some e) m1)
                as [[r3 m3] t3] eqn:E3.
              apply IH in E3. injection H as <- <- <-.
              eapply tame_trans; [exact T1|].
              change (tame m1 m3 ([EvAttempt attempt (raised (Raise e : result json))]
                                    ++ ([] ++ t2 ++ t3))).
              eapply tame_trans; [exact Hev|]. simpl.
              eapply tame_trans; eassumption.
           ++ injection H as <- <- <-.
              eapply tame_trans; [exact T1|].
              change (tame m1 m1 ([EvAttempt attempt (raised (Raise e : result json))]
                                    ++ ([] ++ t2))).
              eapply tame_trans; [exact Hev|]. simpl. exact Hsl.
        -- unfold raise in H. injection H as <- <- <-.
           eapply tame_trans; [exact T1|]. simpl. exact Hev.
      * unfold raise in H. injection H as <- <- <-.
        eapply tame_trans; [exact T1|]. simpl. exact Hev.
Qed.

Lemma call_tame method params m r m' t :
  _call lib env method params m = (r, m', t) -> tame m m' t.
Proof.
  unfold _call. intros H.
  unfold bind at 1 in H. rewrite next_request_id_spec in H.
  unfold bind at 1 in H.
  match type of H with
  | context [_get_token lib env ?mm] =>
      destruct (_get_token lib env mm) as [[r1 m1] t1] eqn:E;
      pose proof (get_token_tame _ E) as [T1 _];
      pose proof (@next_request_id_tame m _ _ _ (next_request_id_spec m)) as [T0 _]
  end.
  destruct r1 as [tok|e].
  - unfold bind at 1, get_self at 1 in H.
    match type of H with
    | context [for_attempts lib env ?p ?a ?l m1] =>
        destruct (for_attempts lib env p a l m1) as [[r2 m2] t2] eqn:E2
    end.
    apply for_attempts_tame in E2. injection H as <- <- <-.
    simpl. eapply tame_trans; [|exact E2].
    change t1 with ([] ++ t1). eapply tame_trans; eassumption.
  - injection H as <- <- <-. simpl.
    change t1 with ([] ++ t1). eapply tame_trans; eassumption.
Qed.

End ClientFacts.

(** ** The façade methods, factored

    Every synchronous method is [_call] on a method name and a params dict,
    then [_unwrap_result], then for some methods a [get] on the result. *)

Definition method_of (a : api) : string :=
  match a with
  | Put _ _ => "put" | Get _ => "get" | Delete _ => "delete" | Scan _ => "scan"
  | Flush => "flush" | Compact => "compact" | Rotate => "rotate"
  | Verify _ => "verify" | GetInsight _ => "getInsight"
  | GetInsights _ => "getInsights" | ReportOutcome _ _ _ => "reportOutcome"
  | GetCorrelations _ => "getCorrelations" | GetClusters => "getClusters"
  | GetLeadingIndicators _ => "getLeadingIndicators"
  | GetSeasonalPatterns _ => "getSeasonalPatterns"
  | GetForecast _ _ _ => "getForecast" | GetAnomalies _ => "getAnomalies"
  | GetRecommendations _ _ => "getRecommendations"
  | GetAccuracy _ _ => "getAccuracy" | Subscribe _ => "subscribe"
  | Unsubscribe _ => "unsubscribe" | Ping => "ping"
  end.

Definition params_of (a : api) : json :=
  match a with
  | Put key fields => JDict [("key", key); ("fields", fields)]
  | Get key | Delete key | GetInsight key => JDict [("key", key)]
  | Scan prefix => JDict [("prefix", prefix)]
  | Flush | Compact | Rotate | GetClusters | Ping => JNull
  | Verify tier => JDict (set_unless_none "tier" tier [])
  | GetInsights insight_type =>
      JDict (if truthy insight_type then dict_set "type" insight_type [] else [])
  | ReportOutcome insight_id outcome context =>
      JDict (set_unless_none "context" context
               [("insightId", insight_id); ("result", outcome)])
  | GetCorrelations key | GetLeadingIndicators key | GetSeasonalPatterns key =>
      JDict (set_unless_none "key" key [])
  | GetForecast key field horizon =>
      JDict (set_unless_none "horizon" horizon [("key", key); ("field", field)])
  | GetAnomalies since => JDict (set_unless_none "since" since [])
  | GetRecommendations filter_type target =>
      JDict (set_unless_none "target" target (set_unless_none "type" filter_type []))
  | GetAccuracy insight_type scope =>
      JDict (set_unless_none "scope" scope
               (set_unless_none "insightType" insight_type []))
  | Subscribe event_types => JDict [("events", event_types)]
  | Unsubscribe subscription_id => JDict [("subscriptionId", subscription_id)]
  end.

(** The field a method reads off the result, with its default. *)
Definition extracted_field (a : api) : option (string * json) :=
  match a with
  | Put _ _ | Delete _ | ReportOutcome _ _ _ | Unsubscribe _ => Some ("ok", JBool false)
  | Scan _ => Some ("items", JList [])
  | Subscribe _ => Some ("subscriptionId", JNull)
  | _ => None
  end.

(** [py_get] and [_unwrap_result] without the machine they do not touch. *)
Definition get_outcome (obj : json) (key : string) (default : json) : result json :=
  match obj with
  | JDict d => Return (dict_get d key default)
  | _ => Raise AttributeError
  end.

Section FacadeFacts.

Variable lib : pylib.
Variable env : environment.

Definition unwrap_outcome (response : json) : result json :=
  match get_outcome response "error" JNull with
  | Raise e => Raise e
  | Return err =>
      if truthy err then
        match get_outcome err "code" (JInt (-1)) with
        | Raise e => Raise e
        | Return code =>
            match get_outcome err "message" (JStr "Unknown error") with
            | Raise e => Raise e
            | Return message => Raise (RuntimeError (error_text lib code message))
            end
        end
      else get_outcome response "result" JNull
  end.

Definition finish (a : api) (response : json) : result json :=
  match unwrap_outcome response with
  | Raise e => Raise e
  | Return result =>
      match extracted_field a with
      | None => Return result
      | Some (key, default) => get_outcome result key default
      end
  end.

Lemma py_get_pure obj key default m :
  py_get obj key default m = (get_outcome obj key default, m, []).
Proof. destruct obj; reflexivity. Qed.

Lemma unwrap_result_pure response m :
  _unwrap_result lib response m = (unwrap_outcome response, m, []).
Proof.
  unfold _unwrap_result, unwrap_outcome, bind.
  rewrite py_get_pure. destruct (get_outcome response "error" JNull) as [err|e];
    [|reflexivity].
  destruct (truthy err).
  - rewrite py_get_pure. destruct (get_outcome err "code" (JInt (-1))); [|reflexivity].
    rewrite py_get_pure.
    destruct (get_outcome err "message" (JStr "Unknown error")); reflexivity.
  - rewrite py_get_pure. destruct (get_outcome response "result" JNull); reflexivity.
Qed.

Lemma invoke_shape a m :
  invoke lib env a m =
  let '(r, m1, t) := _call lib env (method_of a) (params_of a) m in
  (match r with Return response => finish a response | Raise e => Raise e end, m1, t).
Proof.
  destruct a; cbn [invoke method_of params_of];
    unfold put, get, delete, scan, flush, compact, rotate, verify, get_insight,
      get_insights, report_outcome, get_correlations, get_clusters,
      get_leading_indicators, get_seasonal_patterns, get_forecast, get_anomalies,
      get_recommendations, get_accuracy, subscribe, unsubscribe, ping, finish;
    cbv zeta; unfold bind;
    match goal with
    | |- context [_call lib env ?meth ?par m] =>
        destruct (_call lib env meth par m) as [[[response|e] m1] t]; [|reflexivity]
    end;
    rewrite unwrap_result_pure; simpl;
    destruct (unwrap_outcome response) as [result|e]; rewrite ?py_get_pure;
    rewrite ?app_nil_r; reflexivity.
Qed.

Lemma invoke_tame a m r m' t :
  invoke lib env a m = (r, m', t) -> tame m m' t.
Proof.
  rewrite invoke_shape.
  destruct (_call lib env (method_of a) (params_of a) m) as [[r1 m1] t1] eqn:E.
  intros H. injection H as _ <- <-. eapply call_tame, E.
Qed.

End FacadeFacts.

(** ** Sequences of operations on one client *)

Inductive op : Type :=
| OpInvoke (env : environment) (a : api)
| OpCall (env : environment) (method : string) (params : json)
| OpAttempt (env : environment) (payload : list byte) (attempt : Z)
| OpClose.

Definition run_op (lib : pylib) (o : op) (m : machine) : machine * list event :=
  match o with
  | OpInvoke env a => let '(_, m', t) := invoke lib env a m in (m', t)
  | OpCall env method params => let '(_, m', t) := _call lib env method params m in (m', t)
  | OpAttempt env payload attempt =>
      let '(_, m', t) := attempt_once lib env payload attempt m in (m', t)
  | OpClose => let '(_, m', t) := close m in (m', t)
  end.

Fixpoint run_ops (lib : pylib) (ops : list op) (m : machine) : machine * list event :=
  match ops with
  | [] => (m, [])
  | o :: rest =>
      let '(m1, t1) := run_op lib o m in
      let '(m2, t2) := run_ops lib rest m1 in
      (m2, t1 ++ t2)
  end.

Lemma close_each_spec sockets m :
  close_each sockets m = (Return tt, m, map EvClose sockets).
Proof.
  induction sockets as [|s rest IH]; simpl; [reflexivity|].
  unfold bind, close_quietly, emit. rewrite IH. reflexivity.
Qed.

Lemma close_tame m r m' t : close m = (r, m', t) -> tame m m' t.
Proof.
  unfold close. unfold bind at 1, get_self at 1.
  unfold bind at 1, put_self at 1. rewrite close_each_spec.
  intros H. injection H as <- <- <-. simpl.
  split; unfold pool_ok, stale; simpl.
  - repeat split.
  - lia.
  - intros (A & B & C & D). repeat split; auto; try lia. constructor.
  - intros s [A B]. repeat split; auto; intros Hin;
      apply in_map_iff in Hin; destruct Hin as (x & E & _); discriminate.
  - intros _. split; [reflexivity|].
    induction (_pool (self m)); simpl; auto.
Qed.

Lemma run_op_tame lib o m m' t : run_op lib o m = (m', t) -> tame m m' t.
Proof.
  destruct o as [env a|env method params|env payload attempt|]; simpl.
  - destruct (invoke lib env a m) as [[r m1] t1] eqn:E.
    intros H. injection H as <- <-. eapply invoke_tame, E.
  - destruct (_call lib env method params m) as [[r m1] t1] eqn:E.
    intros H. injection H as <- <-. eapply call_tame, E.
  - destruct (attempt_once lib env payload attempt m) as [[r m1] t1] eqn:E.
    intros H. injection H as <- <-. eapply attempt_once_tame, E.
  - destruct (close m) as [[r m1] t1] eqn:E.
    intros H. injection H as <- <-. eapply close_tame, E.
Qed.

Lemma run_ops_tame lib ops : forall m m' t,
  run_ops lib ops m = (m', t) -> tame m m' t.
Proof.
  induction ops as [|o rest IH]; simpl; intros m m' t H.
  - injection H as <- <-. apply tame_refl.
  - destruct (run_op lib o m) as [m1 t1] eqn:E1.
    destruct (run_ops lib rest m1) as [m2 t2] eqn:E2.
    injection H as <- <-.
    eapply tame_trans; [eapply run_op_tame, E1|eapply IH, E2].
Qed.

(** ** Retry exhaustion *)



Lemma skeleton_app t1 t2 : skeleton (t1 ++ t2) = skeleton t1 ++ skeleton t2.
Proof. apply filter_app. Qed.

Section RetryFacts.

Variable lib : pylib.
Variable env : environment.

(** One iteration of the retry loop, unfolded. *)
Lemma for_attempts_cons payload a rest last m :
  for_attempts lib env payload (a :: rest) last m =
  let '(r1, m1, t1) := attempt_once lib env payload a m in
  match r1 with
  | Return response => (Return response, m1, t1 ++ [EvAttempt a None])
  | Raise e =>
      if outer_except e && (a <? _max_retries (self m1)) then
        let '(r2, m2, t2) :=
          (sleep lib (_retry_delay (self m1));;
           for_attempts lib env payload rest (Some e)) m1 in
        (r2, m2, t1 ++ EvAttempt a (Some e) :: t2)
      else (Raise e, m1, t1 ++ [EvAttempt a (Some e)])
  end.
Proof.
  cbn [for_attempts]. unfold bind at 1, observe at 1.
  destruct (attempt_once lib env payload a m) as [[r1 m1] t1].
  unfold bind at 1, emit at 1.
  destruct r1 as [v|e]; [reflexivity|].
  destruct (outer_except e); [|reflexivity].
  unfold bind at 1, get_self at 1.
  destruct (a <? _max_retries (self m1)); [|reflexivity].
  simpl.
  destruct ((sleep lib (_retry_delay (self m1));;
             for_attempts lib env payload rest (Some e)) m1) as [[r2 m2] t2].
  reflexivity.
Qed.


End RetryFacts.


(** ** Reading one response line *)

(** The reads [chunks] are the ones that deliver a line: none is empty, no
    line feed has arrived before the last of them, and one has with it. *)
Definition delivers_line (chunks : list (list byte)) : Prop :=
  Forall (fun chunk => chunk <> []) chunks /\
  has_newline (List.concat (removelast chunks)) = false /\
  has_newline (List.concat chunks) = true.

Lemma recv_loop_line s rest chunks : forall buffer m,
  Forall (fun chunk => chunk <> []) chunks ->
  has_newline (buffer ++ List.concat (removelast chunks)) = false ->
  has_newline (buffer ++ List.concat chunks) = true ->
  recv_loop s buffer (map Chunk chunks ++ rest) m =
    (Return (buffer ++ List.concat chunks), m, map (EvRecv s) chunks).
Proof.
  induction chunks as [|chunk chunks IH]; intros buffer m Hne Hno Hyes.
  - simpl in *. congruence.
  - inversion Hne as [|? ? Hc Hne']; subst.
    destruct chunk as [|b chunk]; [congruence|].
    cbn [map app recv_loop]. unfold bind at 1, emit at 1.
    destruct chunks as [|chunk2 chunks].
    + simpl in Hyes. rewrite app_nil_r in Hyes. rewrite Hyes.
      unfold ret. simpl. rewrite app_nil_r. reflexivity.
    + assert (Hb : has_newline (buffer ++ b :: chunk) = false).
      { change (removelast ((b :: chunk) :: chunk2 :: chunks))
          with ((b :: chunk) :: removelast (chunk2 :: chunks)) in Hno.
        cbn [List.concat] in Hno. rewrite app_assoc, has_newline_app in Hno.
        apply orb_false_iff in Hno. tauto. }
      rewrite Hb. rewrite IH.
      * cbn [List.concat]. rewrite <- !app_assoc. reflexivity.
      * assumption.
      * change (removelast ((b :: chunk) :: chunk2 :: chunks))
          with ((b :: chunk) :: removelast (chunk2 :: chunks)) in Hno.
        cbn [List.concat] in Hno. rewrite app_assoc in Hno. exact Hno.
      * cbn [List.concat] in Hyes. rewrite app_assoc in Hyes. exact Hyes.
Qed.

(** A read of zero bytes before any line feed. *)
Lemma recv_loop_reset s rest chunks : forall buffer m,
  Forall (fun chunk => chunk <> []) chunks ->
  has_newline (buffer ++ List.concat chunks) = false ->
  recv_loop s buffer (map Chunk chunks ++ Chunk [] :: rest) m =
    (Raise (OSError (ConnectionResetError "Daemon closed IPC socket")),
     {| self := self m; healthy := false; next_handle := next_handle m |},
     map (EvRecv s) chunks ++ [EvRecv s []]).
Proof.
  induction chunks as [|chunk chunks IH]; intros buffer m Hne Hno.
  - reflexivity.
  - inversion Hne as [|? ? Hc Hne']; subst.
    destruct chunk as [|b chunk]; [congruence|].
    cbn [map app recv_loop]. unfold bind at 1, emit at 1.
    cbn [List.concat] in Hno. rewrite app_assoc in Hno.
    assert (Hb : has_newline (buffer ++ b :: chunk) = false).
    { rewrite has_newline_app in Hno. apply orb_false_iff in Hno. tauto. }
    rewrite Hb, IH by assumption. reflexivity.
Qed.

Section ExchangeFacts.

Variable lib : pylib.

Lemma exchange_line s payload sc chunks rest m :
  send_res sc = None ->
  recv_res sc = map Chunk chunks ++ rest ->
  delivers_line chunks ->
  exchange lib s payload sc m =
    let '(r, _, _) := loads_utf8 lib (first_line (List.concat chunks)) m in
    (r, m, EvSend s payload :: map (EvRecv s) chunks).
Proof.
  intros Hsend Hrecv (Hne & Hno & Hyes).
  unfold exchange, sendall. rewrite Hsend, Hrecv.
  unfold bind at 1, emit at 1. unfold bind at 1.
  rewrite recv_loop_line by assumption. simpl.
  destruct (loads_utf8_pure lib (first_line (List.concat chunks)) m) as [r E].
  rewrite E. rewrite app_nil_r. reflexivity.
Qed.

Lemma exchange_reset s payload sc chunks rest m :
  send_res sc = None ->
  recv_res sc = map Chunk chunks ++ Chunk [] :: rest ->
  Forall (fun chunk => chunk <> []) chunks ->
  has_newline (List.concat chunks) = false ->
  exchange lib s payload sc m =
    (Raise (OSError (ConnectionResetError "Daemon closed IPC socket")),
     {| self := self m; healthy := false; next_handle := next_handle m |},
     EvSend s payload :: map (EvRecv s) chunks ++ [EvRecv s []]).
Proof.
  intros Hsend Hrecv Hne Hno.
  unfold exchange, sendall. rewrite Hsend, Hrecv.
  unfold bind at 1, emit at 1. unfold bind at 1.
  rewrite recv_loop_reset by assumption. reflexivity.
Qed.

End ExchangeFacts.

(** ** A call, unfolded *)

(** [json.loads(line.decode('utf-8'))] without the machine. *)
Definition loads_outcome (lib : pylib) (line : list byte) : result json :=
  match utf8_decode lib line with
  | None => Raise UnicodeDecodeError
  | Some text =>
      match json_loads lib text with
      | Return v => Return v
      | Raise e => Raise e
      end
  end.

Lemma loads_utf8_outcome lib line m :
  loads_utf8 lib line m = (loads_outcome lib line, m, []).
Proof.
  unfold loads_utf8, loads_outcome.
  destruct (utf8_decode lib line); [|reflexivity].
  destruct (json_loads lib s); reflexivity.
Qed.

(** The machine after [_next_request_id]. *)
Definition bump_id (m : machine) : machine :=
  {| self := with_request_id (self m) (_request_id (self m) + 1);
     healthy := healthy m; next_handle := next_handle m |}.

(** [params or {}]. *)
Definition params_or_empty (params : json) : json :=
  if truthy params then params else JDict [].

Section CallFacts.

Variable lib : pylib.
Variable env : environment.

Lemma resolves_bump m : resolves env (bump_id m) = resolves env m.
Proof. reflexivity. Qed.

(** A call whose token resolution raises: the id is taken, and the error
    leaves the call before the loop. *)
Lemma call_unresolved method params m :
  resolves env m = false ->
  exists e m0 t0,
    _get_token lib env (bump_id m) = (Raise e, m0, t0) /\
    _call lib env method params m = (Raise e, m0, t0).
Proof.
  intros Hres. pose proof (get_token_resolves lib env (bump_id m)) as G.
  rewrite resolves_bump, Hres in G. destruct G as (e & m0 & t0 & E).
  exists e, m0, t0. split; [exact E|].
  unfold _call. unfold bind at 1. rewrite next_request_id_spec.
  fold (bump_id m). unfold bind at 1. rewrite E. reflexivity.
Qed.

Lemma call_unfold method params m :
  resolves env m = true ->
  exists tok m0 t0,
    _get_token lib env (bump_id m) = (Return tok, m0, t0) /\
    _call lib env method params m =
      let payload :=
        encode_request lib
          (make_request method (params_or_empty params) (_request_id (self m)) tok) in
      let '(r, m', t) :=
        for_attempts lib env payload (range (_max_retries (self m) + 1)) None m0 in
      (r, m', t0 ++ t).
Proof.
  intros Hres. pose proof (get_token_resolves lib env (bump_id m)) as G.
  rewrite resolves_bump, Hres in G. destruct G as (tok & m0 & t0 & E).
  destruct (get_token_spec lib env (bump_id m))
    as (r' & m0' & t0' & E' & _ & _ & _ & _ & _ & Hcfg & _).
  rewrite E in E'. injection E' as <- <- <-.
  exists tok, m0, t0. split; [exact E|].
  unfold _call. unfold bind at 1. rewrite next_request_id_spec.
  fold (bump_id m). unfold bind at 1. rewrite E.
  unfold bind at 1, get_self at 1.
  destruct Hcfg as (_ & -> & _). simpl.
  unfold params_or_empty.
  match goal with
  | |- context [for_attempts lib env ?p ?a ?l m0] =>
      destruct (for_attempts lib env p a l m0) as [[r2 m2] t2]
  end.
  reflexivity.
Qed.

(** The connection the next acquire hands out, if the connect succeeds. *)
Definition next_conn (m : machine) : conn :=
  match list_pop (_pool (self m)) with
  | Some (_, s) => s
  | None => next_handle m
  end.

(** The idle pool once that connection has been taken out. *)
Definition pool_rest (m : machine) : list conn :=
  match list_pop (_pool (self m)) with
  | Some (front, _) => front
  | None => []
  end.

(** What the acquire of the next attempt logs. *)
Definition acquire_event (m : machine) : event :=
  match list_pop (_pool (self m)) with
  | Some (_, s) => EvPoolPop s
  | None => EvConnect (next_handle m)
  end.

(** An attempt on which the transport delivers a whole line. *)
Lemma unix_attempt_delivers payload sc chunks rest m r m' t :
  pool_ok m ->
  acquires lib sc m ->
  send_res sc = None ->
  recv_res sc = map Chunk chunks ++ rest ->
  delivers_line chunks ->
  unix_attempt lib payload sc m = (r, m', t) ->
  let s := next_conn m in
  r = loads_outcome lib (first_line (List.concat chunks)) /\
  healthy m' = healthy_after r /\
  (healthy_after r = true ->
     self m' = with_pool (self m) (pool_rest m ++ [s]) /\
     t = acquire_event m :: EvSend s payload :: map (EvRecv s) chunks ++ [EvPoolAppend s]) /\
  (healthy_after r = false ->
     self m' = with_pool (self m) (pool_rest m) /\
     t = acquire_event m :: EvSend s payload :: map (EvRecv s) chunks ++ [EvClose s]).
Proof.
  intros (P1 & P2 & P3 & P4) Hacq Hsend Hrecv Hline H.
  apply unix_attempt_anatomy in H.
  destruct H as [(k & Hp & Hc & _)
                |[(Hp & Ht & _)
                 |(s & front & t_acq & t_io & Hcase & (m1 & m2 & _ & _ & Ex) & _ & Hh & Hrel)]].
  { destruct Hacq as [Hacq|[_ Hacq]]; congruence. }
  { destruct Hacq as [Hacq|[Hacq _]]; congruence. }
  rewrite (@exchange_line lib s payload sc chunks rest m1 Hsend Hrecv Hline) in Ex.
  rewrite loads_utf8_outcome in Ex. injection Ex as <- _ <-.
  set (r := loads_outcome lib (first_line (List.concat chunks))) in *.
  assert (Hid : next_conn m = s /\ pool_rest m = front /\ acquire_event m :: [] = t_acq /\
                Z.of_nat (List.length front) < _pool_size (self m)).
  { unfold next_conn, pool_rest, acquire_event.
    destruct Hcase as [(Hp & -> & _)|(Hp & -> & _ & _ & -> & -> & _)]; rewrite Hp.
    - rewrite list_pop_snoc. rewrite Hp, length_app in P2. simpl in P2.
      repeat split; lia.
    - simpl. repeat split; lia. }
  destruct Hid as (-> & -> & <- & Hlt).
  split; [reflexivity|]. split; [assumption|].
  split; intros Hr; destruct Hrel as [(A & B & C & D)|([A|A] & C & D)];
    try congruence; try lia; subst t; auto.
Qed.

End CallFacts.

(** ** Application errors are not retried *)

Lemma range_positive n : 0 <= n -> range (n + 1) = 0 :: count_from 1 (Z.to_nat n).
Proof.
  intros Hn. rewrite range_count_from.
  replace (Z.to_nat (n + 1)) with (S (Z.to_nat n)) by lia. reflexivity.
Qed.

Lemma filter_io_fs t : forallb fs_event t = true -> filter io_event t = [].
Proof.
  induction t as [|ev t IH]; simpl; [reflexivity|].
  intros H. apply andb_true_iff in H as [He Ht].
  destruct ev; try discriminate; simpl; auto.
Qed.

Lemma filter_io_recv s chunks :
  filter io_event (map (EvRecv s) chunks) = map (EvRecv s) chunks.
Proof. induction chunks as [|c chunks IH]; simpl; congruence. Qed.

Lemma acquire_event_not_io m : io_event (acquire_event m) = false.
Proof. unfold acquire_event. destruct (list_pop (_pool (self m))) as [[? ?]|]; reflexivity. Qed.

Lemma acquire_event_loop m : loop_event (acquire_event m) = false.
Proof. unfold acquire_event. destruct (list_pop (_pool (self m))) as [[? ?]|]; reflexivity. Qed.

Lemma acquire_event_not_close m c : acquire_event m <> EvClose c.
Proof.
  unfold acquire_event. destruct (list_pop (_pool (self m))) as [[? ?]|]; discriminate.
Qed.

Section FirstAttempt.

Variable lib : pylib.
Variable env : environment.

(** A call whose first attempt is delivered a line that decodes: the call
    returns the decoded value after that one attempt, and the connection
    goes back to the pool. *)
Lemma call_first_line method params m chunks rest response r m' t :
  os_name_nt env = false ->
  0 <= _max_retries (self m) ->
  resolves env m = true ->
  pool_ok m ->
  acquires lib (transport env 0) m ->
  send_res (transport env 0) = None ->
  recv_res (transport env 0) = map Chunk chunks ++ rest ->
  delivers_line chunks ->
  loads_outcome lib (first_line (List.concat chunks)) = Return response ->
  _call lib env method params m = (r, m', t) ->
  let s := next_conn m in
  r = Return response /\
  skeleton t = [EvAttempt 0 None] /\
  (exists payload, filter io_event t = EvSend s payload :: map (EvRecv s) chunks) /\
  In (EvPoolAppend s) t /\ (forall c, ~ In (EvClose c) t) /\
  _pool (self m') = pool_rest m ++ [s] /\ healthy m' = true.
Proof.
  intros Hnt Hmax Hres Hok Hacq Hsend Hrecv Hline Hloads H.
  destruct (call_unfold lib env method params m Hres) as (tok & m0 & t0 & Etok & Ecall).
  rewrite Ecall in H. clear Ecall. cbv zeta in H.
  destruct (get_token_spec lib env (bump_id m))
    as (tok' & m0' & t0' & E & _ & Hnh & Hfs & _ & Hpool & Hcfg & _).
  rewrite Etok in E. injection E as <- <- <-.
  simpl in Hnh, Hpool.
  rewrite (range_positive Hmax), for_attempts_cons in H.
  unfold attempt_once in H. rewrite Hnt in H.
  match type of H with
  | context [unix_attempt lib ?p ?sc m0] =>
      destruct (unix_attempt lib p sc m0) as [[r1 m1] t1] eqn:E1;
      set (payload := p) in *
  end.
  assert (Hok0 : pool_ok m0).
  { destruct Hok as (A & B & C & D). destruct Hcfg as (_ & _ & _ & _ & Hsz).
    simpl in Hsz. unfold pool_ok. rewrite Hsz, Hpool, Hnh. auto. }
  apply unix_attempt_delivers with (chunks := chunks) (rest := rest) in E1;
    try assumption; [|exact (@acquires_same lib _ m m0 Hpool Hcfg Hacq)].
  destruct E1 as (Hr1 & Hh & Hgood & _).
  rewrite Hloads in Hr1. subst r1. destruct (Hgood eq_refl) as [Hs Ht].
  injection H as <- <- <-.
  assert (Hnc : next_conn m0 = next_conn m)
    by (unfold next_conn; rewrite Hpool, Hnh; reflexivity).
  assert (Hpr : pool_rest m0 = pool_rest m)
    by (unfold pool_rest; rewrite Hpool; reflexivity).
  rewrite Hnc, Hpr in *. subst t1. cbv zeta.
  split; [reflexivity|]. split; [|split; [|split; [|split; [|split]]]].
  - rewrite !skeleton_app, (fs_no_loop _ Hfs). cbn [skeleton filter].
    rewrite acquire_event_loop. cbn [loop_event].
    fold (skeleton (map (EvRecv (next_conn m)) chunks ++ [EvPoolAppend (next_conn m)])).
    rewrite skeleton_app, (io_no_loop (map (EvRecv (next_conn m)) chunks)).
    + reflexivity.
    + clear. induction chunks; simpl; auto.
  - exists payload. rewrite !filter_app, (filter_io_fs _ Hfs). cbn [filter app].
    rewrite acquire_event_not_io. cbn [io_event]. rewrite filter_app, filter_io_recv.
    cbn [filter io_event app]. rewrite !app_nil_r. reflexivity.
  - apply in_or_app. right. apply in_or_app. left. right. right.
    apply in_or_app. right. left. reflexivity.
  - intros c Hin. apply in_app_or in Hin. destruct Hin as [Hin|Hin].
    + rewrite forallb_forall in Hfs. apply Hfs in Hin. discriminate.
    + apply in_app_or in Hin. destruct Hin as [Hin|[Hin|[]]]; [|discriminate].
      destruct Hin as [Hin|[Hin|Hin]]; [|discriminate|].
      * eapply acquire_event_not_close, Hin.
      * apply in_app_or in Hin. destruct Hin as [Hin|[Hin|[]]]; [|discriminate].
        apply in_map_iff in Hin. destruct Hin as (x & Hx & _). discriminate.
  - rewrite Hs. reflexivity.
  - exact Hh.
Qed.

End FirstAttempt.

(** C2. On a socket, when the first attempt of a call is delivered a
    well-formed line that decodes to an object with an error envelope
    [{code, message}], every synchronous method makes that one attempt and no
    other (whatever [max_retries >= 0] is), never sleeps, puts the connection
    that carried the response back at the end of the idle pool without closing
    anything, and raises one [RuntimeError] whose text shows the daemon's code
    and message. That the first attempt is delivered a line says that the
    token resolution before it did not raise ([resolves]) and that the
    attempt got a connection ([acquires]). *)
Theorem application_error_single_attempt
    lib env a m chunks rest text d ed code message r m' t :
  os_name_nt env = false ->
  0 <= _max_retries (self m) ->
  resolves env m = true ->
  pool_ok m ->
  acquires lib (transport env 0) m ->
  send_res (transport env 0) = None ->
  recv_res (transport env 0) = map Chunk chunks ++ rest ->
  delivers_line chunks ->
  utf8_decode lib (first_line (List.concat chunks)) = Some text ->
  json_loads lib text = Return (JDict d) ->
  dict_lookup "error" d = Some (JDict ed) ->
  dict_lookup "code" ed = Some code ->
  dict_lookup "message" ed = Some message ->
  invoke lib env a m = (r, m', t) ->
  let s := next_conn m in
  r = Raise (RuntimeError (error_text lib code message)) /\
  skeleton t = [EvAttempt 0 None] /\
  (exists payload, filter io_event t = EvSend s payload :: map (EvRecv s) chunks) /\
  In (EvPoolAppend s) t /\ (forall c, ~ In (EvClose c) t) /\
  _pool (self m') = pool_rest m ++ [s] /\ healthy m' = true.
Proof.
  intros Hnt Hmax Hres Hok Hacq Hsend Hrecv Hline Hutf Hjson Herr Hcode Hmsg H.
  rewrite invoke_shape in H.
  destruct (_call lib env (method_of a) (params_of a) m) as [[r1 m1] t1] eqn:E.
  injection H as <- <- <-.
  eapply call_first_line with (response := JDict d) in E; try eassumption.
  2:{ unfold loads_outcome. rewrite Hutf, Hjson. reflexivity. }
  destruct E as (-> & Hrest). split; [|exact Hrest].
  unfold finish, unwrap_outcome. simpl. unfold dict_get. rewrite Herr.
  assert (Htruthy : truthy (JDict ed) = true).
  { destruct ed; [discriminate|reflexivity]. }
  rewrite Htruthy. simpl. unfold dict_get. rewrite Hcode, Hmsg. reflexivity.
Qed.

(** ** Unwrapping the envelope *)

(** C3 (as amended). For every decoded response object, [_unwrap_result]
    raises exactly when the value under ['error'] is truthy (a missing key
    counts as [None]); when that value is an object the failure is the
    [RuntimeError] whose text carries [code] and [message] (with the
    defaults [-1] and ['Unknown error']). Otherwise it returns the value
    under ['result'] ([None] when missing), and a method hands that value
    on, or, where it extracts a field and the result is an object, that
    field of it: ['ok'] for put, delete, report_outcome and unsubscribe,
    ['items'] for scan, ['subscriptionId'] for subscribe. *)
Theorem unwrap_result_by_truthiness lib :
  (forall d m,
      let err := dict_get d "error" JNull in
      exists outcome,
        _unwrap_result lib (JDict d) m = (outcome, m, []) /\
        if truthy err then
          match err with
          | JDict ed =>
              outcome = Raise (RuntimeError
                (error_text lib (dict_get ed "code" (JInt (-1)))
                   (dict_get ed "message" (JStr "Unknown error"))))
          | _ => exists e, outcome = Raise e
          end
        else outcome = Return (dict_get d "result" JNull))
  /\
  (forall env a m d m1 t,
      _call lib env (method_of a) (params_of a) m = (Return (JDict d), m1, t) ->
      truthy (dict_get d "error" JNull) = false ->
      match extracted_field a with
      | None => invoke lib env a m = (Return (dict_get d "result" JNull), m1, t)
      | Some (key, default) =>
          forall rd, dict_get d "result" JNull = JDict rd ->
            invoke lib env a m = (Return (dict_get rd key default), m1, t)
      end).
Proof.
  split.
  - intros d m err. rewrite unwrap_result_pure. eexists. split; [reflexivity|].
    unfold unwrap_outcome. cbn [get_outcome]. fold err.
    destruct (truthy err) eqn:Et; [|reflexivity].
    destruct err; try (eexists; reflexivity); reflexivity.
  - intros env a m d m1 t Hcall Hfalsy.
    assert (Hfin : finish lib a (JDict d) =
                   match extracted_field a with
                   | None => Return (dict_get d "result" JNull)
                   | Some (key, default) =>
                       get_outcome (dict_get d "result" JNull) key default
                   end).
    { unfold finish, unwrap_outcome. cbn [get_outcome]. rewrite Hfalsy.
      destruct (extracted_field a) as [[key default]|]; reflexivity. }
    destruct (extracted_field a) as [[key default]|].
    + intros rd Hrd. rewrite invoke_shape, Hcall, Hfin, Hrd. reflexivity.
    + rewrite invoke_shape, Hcall, Hfin. reflexivity.
Qed.

(** C10. When a call returns a response object whose ['error'] is missing
    or falsy and whose ['result'] is missing or [null], each method that
    reads a field off the result (put, delete, scan, report_outcome,
    subscribe, unsubscribe) raises [AttributeError] rather than returning
    its default. *)
Theorem null_result_attribute_error lib env a m d m1 t :
  extracted_field a <> None ->
  _call lib env (method_of a) (params_of a) m = (Return (JDict d), m1, t) ->
  truthy (dict_get d "error" JNull) = false ->
  dict_lookup "result" d = None \/ dict_lookup "result" d = Some JNull ->
  invoke lib env a m = (Raise AttributeError, m1, t).
Proof.
  intros Hfield Hcall Hfalsy Hnull.
  rewrite invoke_shape, Hcall. unfold finish, unwrap_outcome.
  cbn [get_outcome]. rewrite Hfalsy.
  assert (Hres : dict_get d "result" JNull = JNull).
  { unfold dict_get. destruct Hnull as [-> | ->]; reflexivity. }
  rewrite Hres.
  destruct (extracted_field a) as [[key default]|]; [reflexivity|congruence].
Qed.

(** ** The pool bound *)

(** A sequence of releases on one client. *)
Fixpoint release_all (rs : list (option conn * bool)) : M unit :=
  match rs with
  | [] => ret tt
  | (s, is_healthy) :: rest => _release_unix_socket s is_healthy;; release_all rest
  end.

Definition set_pool (m : machine) (p : list conn) : machine :=
  {| self := with_pool (self m) p; healthy := healthy m; next_handle := next_handle m |}.

Lemma release_healthy s m :
  _release_unix_socket (Some s) true m =
  if Z.of_nat (List.length (_pool (self m))) <? _pool_size (self m)
  then (Return tt, set_pool m (_pool (self m) ++ [s]), [EvPoolAppend s])
  else (Return tt, m, [EvClose s]).
Proof.
  unfold _release_unix_socket, close_quietly. unfold_monad. simpl.
  destruct (Z.of_nat (List.length (_pool (self m))) <? _pool_size (self m)); reflexivity.
Qed.

Lemma release_unhealthy s m :
  _release_unix_socket (Some s) false m = (Return tt, m, [EvClose s]).
Proof. reflexivity. Qed.

Lemma release_all_bound rs : forall m,
  Z.of_nat (List.length (_pool (self m))) <= _pool_size (self m) ->
  exists m' t,
    release_all rs m = (Return tt, m', t) /\
    _pool_size (self m') = _pool_size (self m) /\
    Z.of_nat (List.length (_pool (self m'))) <= _pool_size (self m') /\
    (forall c, In c (_pool (self m)) -> In c (_pool (self m'))) /\
    (forall s is_healthy, In (Some s, is_healthy) rs ->
       In s (_pool (self m')) \/ In (EvClose s) t).
Proof.
  induction rs as [|[[s|] h] rs IH]; intros m Hb.
  - exists m, []. simpl. unfold ret. repeat split; auto; intros s h [].
  - (* a connection is released *)
    assert (Hstep : exists m1 t1,
               _release_unix_socket (Some s) h m = (Return tt, m1, t1) /\
               _pool_size (self m1) = _pool_size (self m) /\
               Z.of_nat (List.length (_pool (self m1))) <= _pool_size (self m1) /\
               (forall c, In c (_pool (self m)) -> In c (_pool (self m1))) /\
               (In s (_pool (self m1)) \/ In (EvClose s) t1)).
    { destruct h.
      - rewrite release_healthy.
        destruct (Z.ltb_spec (Z.of_nat (List.length (_pool (self m)))) (_pool_size (self m))).
        + do 2 eexists. split; [reflexivity|]. simpl. rewrite length_app. simpl.
          repeat split; try lia.
          * intros c Hc. apply in_or_app. auto.
          * left. apply in_or_app. right. left. reflexivity.
        + do 2 eexists. split; [reflexivity|]. simpl. repeat split; auto.
      - rewrite release_unhealthy. do 2 eexists. split; [reflexivity|].
        simpl. repeat split; auto. }
    destruct Hstep as (m1 & t1 & E1 & Hsz1 & Hb1 & Hsub1 & Hs1).
    destruct (IH m1 Hb1) as (m2 & t2 & E2 & Hsz2 & Hb2 & Hsub2 & Hall2).
    exists m2, (t1 ++ t2). cbn [release_all]. unfold bind. rewrite E1, E2.
    split; [reflexivity|]. split; [congruence|]. split; [assumption|].
    split; [auto|].
    intros s' h' [E|Hin].
    + injection E as <- <-. destruct Hs1 as [Hs1|Hs1]; [left; auto|].
      right. apply in_or_app. auto.
    + destruct (Hall2 s' h' Hin) as [A|A]; [left; assumption|].
      right. apply in_or_app. auto.
  - (* [s is None] *)
    destruct (IH m Hb) as (m2 & t2 & E2 & Hsz2 & Hb2 & Hsub2 & Hall2).
    exists m2, t2. cbn [release_all]. unfold bind. rewrite release_none, E2.
    split; [reflexivity|]. repeat split; auto.
    intros s' h' [E|Hin]; [discriminate|]. eauto.
Qed.

(** C4. The capacity a client is built with is at least one and its idle
    pool starts empty. A healthy release appends the connection to the idle
    pool when, and only when, the idle count is strictly below the capacity;
    otherwise it closes it. So whatever sequence of releases runs on a client
    whose idle pool is within capacity, the pool stays within capacity, and
    each released connection ends up idle in the pool or closed. *)
Theorem pool_never_exceeds_capacity :
  (forall env addr token max_retries retry_delay request_timeout pool_size,
      let c := __init__ env addr token max_retries retry_delay request_timeout pool_size in
      _pool_size c = Z.max 1 pool_size /\ 1 <= _pool_size c /\ _pool c = [])
  /\
  (forall s m,
      _release_unix_socket (Some s) true m =
      if Z.of_nat (List.length (_pool (self m))) <? _pool_size (self m)
      then (Return tt, set_pool m (_pool (self m) ++ [s]), [EvPoolAppend s])
      else (Return tt, m, [EvClose s]))
  /\
  (forall rs m,
      Z.of_nat (List.length (_pool (self m))) <= _pool_size (self m) ->
      exists m' t,
        release_all rs m = (Return tt, m', t) /\
        _pool_size (self m') = _pool_size (self m) /\
        Z.of_nat (List.length (_pool (self m'))) <= _pool_size (self m') /\
        (forall s is_healthy, In (Some s, is_healthy) rs ->
           In s (_pool (self m')) \/ In (EvClose s) t)).
Proof.
  split; [|split].
  - intros. subst c. simpl. repeat split. lia.
  - apply release_healthy.
  - intros rs m Hb.
    destruct (release_all_bound rs m Hb) as (m' & t & E & A & B & _ & D).
    exists m', t. auto.
Qed.

(** ** Eviction after a read of zero bytes *)

(** C6. On a socket, when an attempt has acquired its connection [s] and
    sent the request, and a [recv] then returns zero bytes before any line
    feed has arrived, the attempt raises [ConnectionResetError], which the
    retry loop catches as transient; the local [healthy] is false, [s] is
    closed and not appended to the idle pool, and [s] is not in the pool
    afterwards. The retry loop goes on to sleep and try again when attempts
    are left, and raises this error to the caller when none is. Whatever
    the client does next (method calls, raw calls, further attempts of the
    retry loop, [close]), no acquire hands out [s] again. *)
Theorem zero_read_evicts lib env payload attempt chunks rest m r m' t :
  os_name_nt env = false ->
  pool_ok m ->
  acquires lib (transport env attempt) m ->
  send_res (transport env attempt) = None ->
  recv_res (transport env attempt) = map Chunk chunks ++ Chunk [] :: rest ->
  Forall (fun chunk => chunk <> []) chunks ->
  has_newline (List.concat chunks) = false ->
  attempt_once lib env payload attempt m = (r, m', t) ->
  let s := next_conn m in
  r = Raise (OSError (ConnectionResetError "Daemon closed IPC socket")) /\
  (exists e, r = Raise e /\ outer_except e = true) /\
  healthy m' = false /\
  In (EvRecv s []) t /\
  In (EvClose s) t /\
  ~ In (EvPoolAppend s) t /\
  ~ In s (_pool (self m')) /\
  (forall later last,
      for_attempts lib env payload (attempt :: later) last m =
      if attempt <? _max_retries (self m') then
        let '(r2, m2, t2) :=
          (sleep lib (_retry_delay (self m'));;
           for_attempts lib env payload later (raised r)) m' in
        (r2, m2, t ++ EvAttempt attempt (raised r) :: t2)
      else (r, m', t ++ [EvAttempt attempt (raised r)])) /\
  forall ops m2 t2,
    run_ops lib ops m' = (m2, t2) ->
    not_acquired s t2 /\ ~ In s (_pool (self m2)).
Proof.
  intros Hnt (P1 & P2 & P3 & P4) Hacq Hsend Hrecv Hne Hno H s.
  pose proof H as Hrun.
  unfold attempt_once in H. rewrite Hnt in H.
  apply unix_attempt_anatomy in H.
  destruct H as [(k & Hp & Hc & _)
                |[(Hp & Ht & _)
                 |(s' & front & t_acq & t_io & Hcase & (m1 & m2 & _ & _ & Ex) & _ & Hh & Hrel)]].
  { destruct Hacq as [Hacq|[_ Hacq]]; congruence. }
  { destruct Hacq as [Hacq|[Hacq _]]; congruence. }
  rewrite (@exchange_reset lib s' payload _ chunks rest m1 Hsend Hrecv Hne Hno) in Ex.
  injection Ex as <- _ <-.
  assert (Hid : s = s' /\ ~ In s' front /\ (s' < next_handle m')%nat).
  { subst s. unfold next_conn.
    destruct Hcase as [(Hp & _ & ->)|(Hp & -> & _ & _ & -> & _ & ->)]; rewrite Hp.
    - rewrite list_pop_snoc. rewrite Hp in P3, P4.
      split; [reflexivity|]. split.
      + apply NoDup_remove_2 with (l' := []) in P3. rewrite app_nil_r in P3. exact P3.
      + apply P4, in_or_app. right. left. reflexivity.
    - simpl. split; [reflexivity|]. split; [intros []|lia]. }
  destruct Hid as (Hs & Hfront & Hlt). clearbody s. subst s'.
  simpl in Hh.
  destruct Hrel as [(A & _)|(_ & Hself & ->)]; [discriminate|].
  assert (Hstale : stale s m') by (unfold stale; rewrite Hself; auto).
  split; [reflexivity|]. split; [eexists; split; reflexivity|].
  split; [assumption|]. split; [|split; [|split; [|split; [|split]]]].
  - apply in_or_app. right. apply in_or_app. left. right.
    apply in_or_app. right. left. reflexivity.
  - apply in_or_app. right. apply in_or_app. right. left. reflexivity.
  - intros Hin. apply in_app_or in Hin. destruct Hin as [Hin|Hin].
    + destruct Hcase as [(_ & -> & _)|(_ & _ & _ & _ & _ & -> & _)];
        destruct Hin as [Hin|[]]; discriminate.
    + apply in_app_or in Hin. destruct Hin as [Hin|[Hin|[]]]; [|discriminate].
      destruct Hin as [Hin|Hin]; [discriminate|].
      apply in_app_or in Hin. destruct Hin as [Hin|[Hin|[]]]; [|discriminate].
      apply in_map_iff in Hin. destruct Hin as (x & Hx & _). discriminate.
  - rewrite Hself. exact Hfront.
  - intros later last. rewrite for_attempts_cons, Hrun. reflexivity.
  - intros ops m3 t3 Hops. apply run_ops_tame in Hops.
    destruct (tame_stale Hops Hstale) as [[Hout _] Hna]. auto.
Qed.

(** ** What is sent *)

Section SendFacts.

Variable lib : pylib.
Variable env : environment.

Lemma recv_loop_no_send s recvs : forall buffer m r m' t c p,
  recv_loop s buffer recvs m = (r, m', t) -> ~ In (EvSend c p) t.
Proof.
  induction recvs as [|[chunk|k] rest IH]; intros buffer m r m' t c p H; simpl in H.
  - unfold_monad. injection H as <- <- <-. intros [].
  - destruct chunk as [|b chunk].
    + unfold_monad. simpl in H. injection H as <- <- <-.
      intros [E|[]]. discriminate.
    + unfold bind at 1 in H. unfold emit at 1 in H.
      destruct (has_newline (buffer ++ b :: chunk)).
      * unfold_monad. injection H as <- <- <-. intros [E|[]]. discriminate.
      * destruct (recv_loop s (buffer ++ b :: chunk) rest m) as [[r1 m1] t1] eqn:E.
        apply (IH _ _ _ _ _ c p) in E.
        destruct r1; injection H as <- <- <-; intros [E'|Hin];
          try discriminate; auto.
  - unfold_monad. injection H as <- <- <-. intros [].
Qed.

Lemma exchange_sends s payload sc m r m' t c p :
  exchange lib s payload sc m = (r, m', t) ->
  In (EvSend c p) t -> p = payload.
Proof.
  intros H. unfold exchange, sendall in H.
  destruct (send_res sc).
  - unfold_monad. injection H as <- <- <-. intros [].
  - unfold bind at 1 in H. unfold emit at 1 in H. unfold bind at 1 in H.
    destruct (recv_loop s [] (recv_res sc) m) as [[r1 m1] t1] eqn:E.
    pose proof (recv_loop_no_send _ _ _ _ c p E) as Hno.
    destruct r1 as [buffer|e].
    + rewrite loads_utf8_outcome in H. injection H as <- <- <-.
      rewrite app_nil_r. intros [E'|Hin]; [congruence|tauto].
    + injection H as <- <- <-. intros [E'|Hin]; [congruence|tauto].
Qed.

Lemma attempt_once_sends payload attempt m r m' t c p :
  attempt_once lib env payload attempt m = (r, m', t) ->
  In (EvSend c p) t -> p = payload.
Proof.
  unfold attempt_once. destruct (os_name_nt env); intros H.
  - (* named pipe *)
    unfold pipe_attempt, sendall in H.
    destruct (connect_res (transport env attempt)).
    + unfold_monad. injection H as <- <- <-. intros [E|[]]. discriminate.
    + destruct (send_res (transport env attempt)).
      * unfold_monad. simpl in H. injection H as <- <- <-.
        intros [E|[E|[]]]; discriminate.
      * destruct (readline_res (transport env attempt)) as [line|k].
        -- unfold bind at 1, new_handle at 1 in H.
           unfold bind at 1, emit at 1 in H.
           unfold try_finally in H. unfold bind at 1, emit at 1 in H.
           unfold bind at 1, emit at 1 in H.
           rewrite loads_utf8_outcome in H.
           unfold emit in H. simpl in H. injection H as <- <- <-.
           intros [E|[E|[E|[E|[]]]]]; congruence.
        -- unfold_monad. simpl in H. injection H as <- <- <-.
           intros [E|[E|[E|[]]]]; congruence.
  - apply unix_attempt_anatomy in H.
    destruct H as [(k & _ & _ & _ & -> & _)
                  |[(_ & _ & _ & -> & _)
                   |(s & front & t_acq & t_io & Hcase & (m1 & m2 & _ & _ & Ex) & _ & _ & Hrel)]].
    + intros [E|[]]. discriminate.
    + intros [].
    + assert (Ht : exists last, t = t_acq ++ t_io ++ [last] /\
                     (last = EvPoolAppend s \/ last = EvClose s)).
      { destruct Hrel as [(_ & _ & _ & ->)|(_ & _ & ->)]; eauto. }
      destruct Ht as (last & -> & Hlast). intros Hin.
      apply in_app_or in Hin. destruct Hin as [Hin|Hin].
      { destruct Hcase as [(_ & -> & _)|(_ & _ & _ & _ & _ & -> & _)];
          destruct Hin as [Hin|[]]; discriminate. }
      apply in_app_or in Hin. destruct Hin as [Hin|[Hin|[]]].
      * eapply exchange_sends; eassumption.
      * destruct Hlast; subst last; discriminate.
Qed.

Lemma for_attempts_sends payload attempts : forall last m r m' t c p,
  for_attempts lib env payload attempts last m = (r, m', t) ->
  In (EvSend c p) t -> p = payload.
Proof.
  induction attempts as [|a rest IH]; intros last m r m' t c p H.
  - simpl in H. destruct last; unfold raise in H; injection H as <- <- <-; intros [].
  - rewrite for_attempts_cons in H.
    destruct (attempt_once lib env payload a m) as [[r1 m1] t1] eqn:E1.
    pose proof (fun Hin => attempt_once_sends _ _ _ c p E1 Hin) as S1.
    destruct r1 as [v|e].
    + injection H as <- <- <-. intros Hin. apply in_app_or in Hin.
      destruct Hin as [Hin|[Hin|[]]]; [auto|discriminate].
    + destruct (outer_except e && (a <? _max_retries (self m1))).
      * unfold bind at 1 in H.
        destruct (sleep lib (_retry_delay (self m1)) m1) as [[r2 m2] t2] eqn:E2.
        apply sleep_spec in E2. destruct E2 as [-> E2].
        assert (Hsl : ~ In (EvSend c p) t2).
        { destruct E2 as [(_ & _ & ->)|(_ & _ & ->)]; [intros [E|[]]; discriminate|intros []]. }
        destruct r2 as [[]|e2].
        -- destruct (for_attempts lib env payload rest (Some e) m1) as [[r3 m3] t3] eqn:E3.
           injection H as <- <- <-. intros Hin. apply in_app_or in Hin.
           destruct Hin as [Hin|[Hin|Hin]]; [auto|discriminate|].
           apply in_app_or in Hin. destruct Hin as [Hin|Hin]; [tauto|].
           eapply IH; eassumption.
        -- injection H as <- <- <-. intros Hin. apply in_app_or in Hin.
           destruct Hin as [Hin|[Hin|Hin]]; [auto|discriminate|tauto].
      * injection H as <- <- <-. intros Hin. apply in_app_or in Hin.
        destruct Hin as [Hin|[Hin|[]]]; [auto|discriminate].
Qed.

(** With a token in hand, a call reads no file and sends only its own
    request, which carries that token. *)
Lemma call_sends_token method params m r m' t :
  token_truthy (_token (self m)) = true ->
  _call lib env method params m = (r, m', t) ->
  filter fs_event t = [] /\
  _token (self m') = _token (self m) /\
  forall c p, In (EvSend c p) t ->
    p = encode_request lib
          (make_request method (params_or_empty params) (_request_id (self m))
             (_token (self m))).
Proof.
  intros Htok H.
  pose proof (call_tame _ _ _ _ _ H) as T.
  destruct (tame_token T Htok) as [Hsame Hfs].
  split; [assumption|]. split; [assumption|].
  destruct (call_unfold lib env method params m (resolves_truthy env m Htok))
    as (tok & m0 & t0 & Etok & Ecall).
  rewrite Ecall in H. clear Ecall. cbv zeta in H.
  destruct (get_token_spec lib env (bump_id m)) as (tok' & m0' & t0' & E & _ & _ & _ & _ & _ & _ & Hfast).
  rewrite Etok in E. injection E as <- <- <-.
  destruct (Hfast Htok) as (Hf & -> & ->). injection Hf as ->. simpl in H.
  match type of H with
  | context [for_attempts lib env ?pl ?a ?l ?mm] =>
      destruct (for_attempts lib env pl a l mm) as [[r2 m2] t2] eqn:E2
  end.
  injection H as <- <- <-. intros c p Hin.
  eapply for_attempts_sends; eassumption.
Qed.

End SendFacts.

(** The method calls of a client, each in the environment of its moment. *)
Definition api_ops (calls : list (environment * api)) : list op :=
  map (fun call => OpInvoke (fst call) (snd call)) calls.

(** C7 (as amended). A client that holds an explicit, non-empty token reads
    no file to resolve it, whatever candidate files the environment of a call
    has, and every request it sends is the JSON-RPC object whose ['token']
    is that token, unchanged, serialized by [json.dumps], followed by a line
    feed and encoded as UTF-8. *)
Theorem explicit_token_precedence lib tok calls : forall m m' t,
  _token (self m) = Some tok ->
  tok <> "" ->
  run_ops lib (api_ops calls) m = (m', t) ->
  filter fs_event t = [] /\
  _token (self m') = Some tok /\
  forall c payload, In (EvSend c payload) t ->
    exists method params rid,
      payload =
      utf8_encode lib
        (json_dumps lib
           (JDict [("jsonrpc", JStr "2.0"); ("method", JStr method);
                   ("params", params); ("id", JInt rid); ("token", JStr tok)])
         ++ nl)%string.
Proof.
  induction calls as [|[env a] calls IH]; intros m m' t Htok Hne H; simpl in H.
  - injection H as <- <-. repeat split; auto. intros c p [].
  - assert (Htruthy : token_truthy (_token (self m)) = true).
    { rewrite Htok. simpl. destruct (String.eqb_spec tok ""); [contradiction|reflexivity]. }
    rewrite invoke_shape in H.
    destruct (_call lib env (method_of a) (params_of a) m) as [[r1 m1] t1] eqn:E1.
    destruct (run_ops lib (api_ops calls) m1) as [m2 t2] eqn:E2.
    injection H as <- <-.
    destruct (call_sends_token _ _ _ _ _ Htruthy E1) as (F1 & K1 & S1).
    rewrite Htok in K1, S1.
    destruct (IH _ _ _ K1 Hne E2) as (F2 & K2 & S2).
    split; [rewrite filter_app, F1, F2; reflexivity|]. split; [assumption|].
    intros c p Hin. apply in_app_or in Hin. destruct Hin as [Hin|Hin]; [|eauto].
    apply S1 in Hin. subst p. do 3 eexists. reflexivity.
Qed.

(** ** Token resolution *)

Definition set_token (m : machine) (t : option string) : machine :=
  {| self := with_token (self m) t; healthy := healthy m; next_handle := next_handle m |}.

Lemma probe_first lib env paths m :
  exists t,
    forallb fs_event t = true /\
    match first_existing (fs env) paths with
    | Some (p, Readable text) =>
        probe lib env paths m =
          (Return (Some (str_strip lib text)),
           set_token m (Some (str_strip lib text)), t) /\
        (forall q, In (EvReadFile q) t <-> q = p)
    | Some (p, Unreadable e) =>
        probe lib env paths m = (Raise e, m, t) /\
        (forall q, In (EvReadFile q) t <-> q = p)
    | None =>
        probe lib env paths m = (Return None, m, t) /\
        t = map (fun q => EvExists q false) paths
    end.
Proof.
  induction paths as [|p rest IH]; simpl.
  - exists []. repeat split.
  - destruct (fs env p) as [[text|e]|].
    + exists [EvExists p true; EvReadFile p]. split; [reflexivity|].
      split; [reflexivity|].
      intros q. simpl. split.
      * intros [E|[E|[]]]; congruence.
      * intros ->. auto.
    + exists [EvExists p true; EvReadFile p]. split; [reflexivity|].
      split; [reflexivity|].
      intros q. simpl. split.
      * intros [E|[E|[]]]; congruence.
      * intros ->. auto.
    + destruct IH as (t & Hfs & IH). exists (EvExists p false :: t).
      split; [simpl; assumption|].
      unfold bind, emit.
      destruct (first_existing (fs env) rest) as [[p' [text|e]]|].
      * destruct IH as [-> Hread]. split; [reflexivity|].
        intros q. rewrite <- Hread. simpl. split; [intros [E|H]; [discriminate|auto]|auto].
      * destruct IH as [-> Hread]. split; [reflexivity|].
        intros q. rewrite <- Hread. simpl. split; [intros [E|H]; [discriminate|auto]|auto].
      * destruct IH as [-> ->]. split; reflexivity.
Qed.

Lemma get_token_cached lib env m :
  token_truthy (_token (self m)) = true ->
  _get_token lib env m = (Return (_token (self m)), m, []).
Proof.
  intros H. unfold _get_token. unfold bind, get_self. rewrite H. reflexivity.
Qed.

Lemma get_token_probe lib env m :
  token_truthy (_token (self m)) = false ->
  _get_token lib env m = probe lib env (token_paths env) m.
Proof.
  intros H. unfold _get_token. unfold bind, get_self. rewrite H.
  destruct (probe lib env (token_paths env) m) as [[r m1] t1]. destruct r; reflexivity.
Qed.

Lemma get_token_stores lib env m tok m1 t1 :
  _get_token lib env m = (Return (Some tok), m1, t1) -> _token (self m1) = Some tok.
Proof.
  unfold _get_token. unfold bind at 1, get_self at 1.
  destruct (token_truthy (_token (self m))) eqn:Et.
  - unfold ret. intros H. injection H as H1 H2 H3. subst m1. exact H1.
  - destruct (probe_spec lib env (token_paths env) m) as (r & m' & t & E & _ & _ & _ & H4).
    rewrite E. destruct r as [tok'|e]; intros H; [|discriminate].
    injection H as -> <- <-.
    destruct H4 as [[H4 _]| ->]; [discriminate|reflexivity].
Qed.

Lemma token_truthy_nonempty tok : tok <> "" -> token_truthy (Some tok) = true.
Proof.
  intros H. simpl. destruct (String.eqb_spec tok ""); [contradiction|reflexivity].
Qed.

(** C8 (as amended). A client that holds a non-empty token returns it and
    touches no file. A client that holds none probes the current directory,
    the home directory and the parent directory, in that order, and opens
    the first candidate that exists, and no other: when it can be read, its
    text trimmed by [str.strip] is stored as the token and returned; when
    opening or reading it raises, that error leaves the resolution and
    nothing is stored; when no candidate exists nothing is stored and [None]
    is returned. Once a resolution has yielded a non-empty token, every later
    resolution, after anything else the client does, returns that same token
    without touching the filesystem. *)
Theorem token_resolution_cached_once_found lib :
  (forall env m,
      token_truthy (_token (self m)) = true ->
      _get_token lib env m = (Return (_token (self m)), m, []))
  /\
  (forall env m,
      token_truthy (_token (self m)) = false ->
      exists t,
        forallb fs_event t = true /\
        match first_existing (fs env) (token_paths env) with
        | Some (p, Readable text) =>
            _get_token lib env m =
              (Return (Some (str_strip lib text)),
               set_token m (Some (str_strip lib text)), t) /\
            (forall q, In (EvReadFile q) t <-> q = p)
        | Some (p, Unreadable e) =>
            _get_token lib env m = (Raise e, m, t) /\
            (forall q, In (EvReadFile q) t <-> q = p)
        | None =>
            _get_token lib env m = (Return None, m, t) /\
            t = map (fun q => EvExists q false) (token_paths env)
        end)
  /\
  (forall env m tok m1 t1,
      _get_token lib env m = (Return (Some tok), m1, t1) ->
      tok <> "" ->
      forall ops m2 t2 env',
        run_ops lib ops m1 = (m2, t2) ->
        filter fs_event t2 = [] /\
        _get_token lib env' m2 = (Return (Some tok), m2, [])).
Proof.
  split; [|split].
  - intros env m. apply get_token_cached.
  - intros env m Hfalsy.
    destruct (probe_first lib env (token_paths env) m) as (t & Hfs & H).
    exists t. split; [assumption|].
    rewrite (get_token_probe lib env m Hfalsy). exact H.
  - intros env m tok m1 t1 Hget Hne ops m2 t2 env' Hrun.
    apply get_token_stores in Hget.
    assert (Ht : token_truthy (_token (self m1)) = true)
      by (rewrite Hget; apply token_truthy_nonempty, Hne).
    apply run_ops_tame in Hrun. destruct (tame_token Hrun Ht) as [Hsame Hfs].
    split; [assumption|].
    rewrite get_token_cached; rewrite Hsame; [rewrite Hget; reflexivity|assumption].
Qed.

(** ** The response is the first line, and nothing else is kept *)

(** The machine an attempt leaves when its exchange ran to outcome [r] on
    the connection it acquired. *)
Definition after_attempt (m : machine) (r : result json) : machine :=
  {| self := with_pool (self m)
               (if healthy_after r then pool_rest m ++ [next_conn m] else pool_rest m);
     healthy := healthy_after r;
     next_handle := match list_pop (_pool (self m)) with
                    | Some _ => next_handle m
                    | None => S (next_handle m)
                    end |}.

(** The same environment with another daemon behind the socket. *)
Definition with_transport (env : environment) (tr : Z -> script) : environment :=
  {| os_name_nt := os_name_nt env; home_token := home_token env;
     fs := fs env; transport := tr |}.

Definition is_recv (ev : event) : bool :=
  match ev with
  | EvRecv _ _ => true
  | _ => false
  end.

Section LineFacts.

Variable lib : pylib.

Lemma unix_attempt_line payload sc chunks rest m :
  pool_ok m ->
  acquires lib sc m ->
  send_res sc = None ->
  recv_res sc = map Chunk chunks ++ rest ->
  delivers_line chunks ->
  let s := next_conn m in
  let r := loads_outcome lib (first_line (List.concat chunks)) in
  unix_attempt lib payload sc m =
    (r, after_attempt m r,
     acquire_event m :: EvSend s payload :: map (EvRecv s) chunks ++
       [if healthy_after r then EvPoolAppend s else EvClose s]).
Proof.
  intros Hok Hacq Hsend Hrecv Hline s r.
  destruct (unix_attempt lib payload sc m) as [[r' m'] t'] eqn:E.
  pose proof (@unix_attempt_delivers lib payload sc chunks rest m _ _ _
                Hok Hacq Hsend Hrecv Hline E) as (Hr & Hh & Hgood & Hbad).
  fold r in Hr. subst r'.
  assert (Hnh : next_handle m' = match list_pop (_pool (self m)) with
                                 | Some _ => next_handle m
                                 | None => S (next_handle m)
                                 end).
  { apply unix_attempt_anatomy in E.
    destruct E as [(k & Hp & Hc & _)
                  |[(Hp & Ht & _)|(s' & front & t_acq & t_io & Hcase & _)]].
    - destruct Hacq as [Hacq|[_ Hacq]]; congruence.
    - destruct Hacq as [Hacq|[Hacq _]]; congruence.
    - destruct Hcase as [(Hp & _ & ->)|(Hp & _ & _ & _ & -> & _ & ->)]; rewrite Hp.
      + rewrite list_pop_snoc. reflexivity.
      + reflexivity. }
  unfold after_attempt. fold s.
  destruct (healthy_after r) eqn:Eh.
  - destruct (Hgood eq_refl) as [Hs ->]. destruct m'; simpl in *. subst. reflexivity.
  - destruct (Hbad eq_refl) as [Hs ->]. destruct m'; simpl in *. subst. reflexivity.
Qed.

Lemma probe_transport env tr paths m :
  probe lib (with_transport env tr) paths m = probe lib env paths m.
Proof.
  revert m. induction paths as [|p rest IH]; intros m; simpl; [reflexivity|].
  destruct (fs env p) as [[text|e]|]; [reflexivity|reflexivity|].
  unfold bind, emit. rewrite IH. reflexivity.
Qed.

Lemma get_token_transport env tr m :
  _get_token lib (with_transport env tr) m = _get_token lib env m.
Proof.
  unfold _get_token, bind, get_self.
  destruct (token_truthy (_token (self m))); [reflexivity|].
  change (token_paths (with_transport env tr)) with (token_paths env).
  rewrite probe_transport. reflexivity.
Qed.

(** A call whose first attempt is delivered a line that decodes, in full. *)
Lemma call_first_line_exact env method params m chunks rest response :
  os_name_nt env = false ->
  0 <= _max_retries (self m) ->
  resolves env m = true ->
  pool_ok m ->
  acquires lib (transport env 0) m ->
  send_res (transport env 0) = None ->
  recv_res (transport env 0) = map Chunk chunks ++ rest ->
  delivers_line chunks ->
  loads_outcome lib (first_line (List.concat chunks)) = Return response ->
  exists tok m0 t0 payload,
    _get_token lib env (bump_id m) = (Return tok, m0, t0) /\
    forallb fs_event t0 = true /\
    next_conn m0 = next_conn m /\
    _call lib env method params m =
      (Return response, after_attempt m0 (Return response),
       t0 ++ (acquire_event m0 :: EvSend (next_conn m0) payload ::
                map (EvRecv (next_conn m0)) chunks ++ [EvPoolAppend (next_conn m0)])
          ++ [EvAttempt 0 None]).
Proof.
  intros Hnt Hmax Hres Hok Hacq Hsend Hrecv Hline Hloads.
  destruct (call_unfold lib env method params m Hres) as (tok & m0 & t0 & Etok & Ecall).
  destruct (get_token_spec lib env (bump_id m))
    as (tok' & m0' & t0' & E & _ & Hnh & Hfs & _ & Hpool & Hcfg & _).
  rewrite Etok in E. injection E as <- <- <-. simpl in Hnh, Hpool.
  assert (Hok0 : pool_ok m0).
  { destruct Hok as (A & B & C & D). destruct Hcfg as (_ & _ & _ & _ & Hsz).
    simpl in Hsz. unfold pool_ok. rewrite Hsz, Hpool, Hnh. auto. }
  eexists tok, m0, t0, _. split; [exact Etok|]. split; [exact Hfs|].
  split; [unfold next_conn; rewrite Hpool, Hnh; reflexivity|].
  rewrite Ecall. cbv zeta.
  rewrite (range_positive Hmax), for_attempts_cons.
  unfold attempt_once. rewrite Hnt.
  rewrite (@unix_attempt_line _ (transport env 0) chunks rest m0 Hok0);
    try assumption; [|exact (@acquires_same lib _ m m0 Hpool Hcfg Hacq)].
  cbv zeta. rewrite Hloads. reflexivity.
Qed.

End LineFacts.

(** C9. On a socket, when the reads of the first attempt bring [line], a
    line feed and then [tail] (the line feed arriving with the last of
    those reads), the client stops reading there, decodes exactly [line],
    and the decoded value is what the call returns. The bytes of [tail] are
    dropped: had the daemon sent anything else after the line feed, in any
    other chunking, the call would return the same value and leave the same
    client state, so nothing of [tail] can reach a later request. That the
    first attempt makes these reads says that the token resolution before it
    did not raise ([resolves]) and that the attempt got a connection
    ([acquires]). *)
Theorem response_is_first_line
    lib env method params m chunks rest line tail response r m' t :
  os_name_nt env = false ->
  0 <= _max_retries (self m) ->
  resolves env m = true ->
  pool_ok m ->
  acquires lib (transport env 0) m ->
  send_res (transport env 0) = None ->
  recv_res (transport env 0) = map Chunk chunks ++ rest ->
  delivers_line chunks ->
  List.concat chunks = line ++ newline :: tail ->
  has_newline line = false ->
  loads_outcome lib line = Return response ->
  _call lib env method params m = (r, m', t) ->
  filter is_recv t = map (EvRecv (next_conn m)) chunks /\
  r = Return response /\
  forall tr2 chunks2 rest2 tail2,
    acquires lib (tr2 0) m ->
    send_res (tr2 0) = None ->
    recv_res (tr2 0) = map Chunk chunks2 ++ rest2 ->
    delivers_line chunks2 ->
    List.concat chunks2 = line ++ newline :: tail2 ->
    exists t2,
      _call lib (with_transport env tr2) method params m = (r, m', t2).
Proof.
  intros Hnt Hmax Hres Hok Hacq Hsend Hrecv Hline Hcat Hno Hloads H.
  assert (Hfirst : first_line (List.concat chunks) = line)
    by (rewrite Hcat; apply first_line_no_newline, Hno).
  destruct (@call_first_line_exact lib env method params m chunks rest response)
    as (tok & m0 & t0 & payload & Etok & Hfs & Hnc & Ecall); try assumption.
  { rewrite Hfirst. exact Hloads. }
  rewrite Ecall in H. injection H as <- <- <-.
  split; [|split; [reflexivity|]].
  - rewrite !filter_app. rewrite Hnc.
    assert (Hfs0 : filter is_recv t0 = []).
    { clear - Hfs. induction t0 as [|ev t0 IH]; simpl in *; [reflexivity|].
      apply andb_true_iff in Hfs as [He Ht]. destruct ev; try discriminate; simpl; auto. }
    rewrite Hfs0. cbn [filter app is_recv].
    assert (Hacq0 : is_recv (acquire_event m0) = false).
    { unfold acquire_event. destruct (list_pop (_pool (self m0))) as [[? ?]|]; reflexivity. }
    rewrite Hacq0, filter_app. cbn [filter is_recv]. rewrite !app_nil_r.
    clear. induction chunks as [|c chunks IH]; simpl; congruence.
  - intros tr2 chunks2 rest2 tail2 Hacq2 Hsend2 Hrecv2 Hline2 Hcat2.
    assert (Hfirst2 : first_line (List.concat chunks2) = line)
      by (rewrite Hcat2; apply first_line_no_newline, Hno).
    destruct (@call_first_line_exact lib (with_transport env tr2) method params m
                chunks2 rest2 response)
      as (tok2 & m02 & t02 & payload2 & Etok2 & _ & _ & Ecall2); try assumption.
    { rewrite Hfirst2. exact Hloads. }
    rewrite get_token_transport, Etok in Etok2. injection Etok2 as <- <- <-.
    eexists. exact Ecall2.
Qed.

(** ** One id per call *)

Section IdFacts.

Variable lib : pylib.
Variable env : environment.

Lemma attempt_once_keeps_id payload attempt m r m' t :
  attempt_once lib env payload attempt m = (r, m', t) ->
  _request_id (self m') = _request_id (self m).
Proof.
  unfold attempt_once. destruct (os_name_nt env); intros H.
  - apply pipe_attempt_tame in H. destruct H as (_ & _ & ->). reflexivity.
  - apply unix_attempt_anatomy in H.
    destruct H as [(k & _ & _ & _ & _ & -> & _)
                  |[(_ & _ & _ & _ & -> & _)
                   |(s & front & t_acq & t_io & _ & _ & _ & _ & Hrel)]].
    + reflexivity.
    + reflexivity.
    + destruct Hrel as [(_ & _ & -> & _)|(_ & -> & _)]; reflexivity.
Qed.

Lemma for_attempts_keeps_id payload attempts : forall last m r m' t,
  for_attempts lib env payload attempts last m = (r, m', t) ->
  _request_id (self m') = _request_id (self m).
Proof.
  induction attempts as [|a rest IH]; intros last m r m' t H.
  - simpl in H. destruct last; unfold raise in H; injection H as <- <- <-; reflexivity.
  - rewrite for_attempts_cons in H.
    destruct (attempt_once lib env payload a m) as [[r1 m1] t1] eqn:E1.
    apply attempt_once_keeps_id in E1.
    destruct r1 as [v|e]; [injection H as <- <- <-; assumption|].
    destruct (outer_except e && (a <? _max_retries (self m1)));
      [|injection H as <- <- <-; assumption].
    unfold bind at 1 in H.
    destruct (sleep lib (_retry_delay (self m1)) m1) as [[r2 m2] t2] eqn:E2.
    apply sleep_spec in E2. destruct E2 as [-> _].
    destruct r2 as [[]|e2]; [|injection H as <- <- <-; assumption].
    destruct (for_attempts lib env payload rest (Some e) m1) as [[r3 m3] t3] eqn:E3.
    apply IH in E3. injection H as <- <- <-. congruence.
Qed.

(** Every call takes exactly one id, the current value of the counter,
    whatever its outcome. *)
Lemma call_takes_one_id method params m r m' t :
  _call lib env method params m = (r, m', t) ->
  _request_id (self m') = _request_id (self m) + 1.
Proof.
  intros H.
  destruct (get_token_spec lib env (bump_id m))
    as (tok' & m0' & t0' & E & _ & _ & _ & Hid & _).
  simpl in Hid.
  destruct (resolves env m) eqn:Hres.
  - destruct (call_unfold lib env method params m Hres) as (tok & m0 & t0 & Etok & Ecall).
    rewrite Ecall in H. clear Ecall. cbv zeta in H.
    rewrite Etok in E. injection E as <- <- <-.
    match type of H with
    | context [for_attempts lib env ?pl ?a ?l m0] =>
        destruct (for_attempts lib env pl a l m0) as [[r2 m2] t2] eqn:E2
    end.
    apply for_attempts_keeps_id in E2. injection H as <- <- <-. congruence.
  - destruct (call_unresolved lib env method params m Hres) as (e & m0 & t0 & Etok & Ecall).
    rewrite Ecall in H. rewrite Etok in E. injection E as <- <- <-.
    injection H as <- <- <-. exact Hid.
Qed.

End IdFacts.

(** ** Correlation ids under concurrent callers

    [_next_request_id] takes the lock, reads the counter into [rid], adds one
    to the counter (a read and a write of the attribute), and returns [rid]
    on leaving the [with] block. Any number of threads run it, interleaved
    at every one of these steps by an arbitrary schedule. The steps inside
    the lock are the statements of the method itself, run on the one client
    object the threads share. *)

(** The machine of a client just built. *)
Definition boot (client : GICSClient) : machine :=
  {| self := client; healthy := true; next_handle := 0%nat |}.

(** [n] calls of [_next_request_id] one after the other, by one caller. *)
Fixpoint sequential (n : nat) : M (list Z) :=
  match n with
  | O => ret []
  | S n' =>
      rid <- _next_request_id;;
      rest <- sequential n';;
      ret (rid :: rest)
  end.

Definition set_request_id (m : machine) (n : Z) : machine :=
  {| self := with_request_id (self m) n; healthy := healthy m;
     next_handle := next_handle m |}.

Lemma load_request_id_spec m :
  load_request_id m = (Return (_request_id (self m)), m, []).
Proof. reflexivity. Qed.

Lemma store_request_id_spec n m :
  store_request_id n m = (Return tt, set_request_id m n, []).
Proof. reflexivity. Qed.

Lemma set_request_id_same m : set_request_id m (_request_id (self m)) = m.
Proof. destruct m as [c h n]. destruct c. reflexivity. Qed.

Lemma set_request_id_twice m a b :
  set_request_id (set_request_id m a) b = set_request_id m b.
Proof. reflexivity. Qed.

Lemma sequential_spec n : forall m,
  sequential n m =
  (Return (count_from (_request_id (self m)) n),
   set_request_id m (_request_id (self m) + Z.of_nat n), []).
Proof.
  induction n as [|n IH]; intros m.
  - simpl. unfold ret. rewrite Z.add_0_r, set_request_id_same. reflexivity.
  - cbn [sequential]. unfold bind at 1. rewrite next_request_id_spec.
    unfold bind at 1. rewrite IH. unfold ret. cbn [self _request_id with_request_id app].
    change {| self := with_request_id (self m) (_request_id (self m) + 1);
              healthy := healthy m; next_handle := next_handle m |}
      with (set_request_id m (_request_id (self m) + 1)).
    rewrite set_request_id_twice.
    replace (_request_id (self m) + 1 + Z.of_nat n)
      with (_request_id (self m) + Z.of_nat (S n)) by lia.
    reflexivity.
Qed.

Module IdLock.

Definition tid := nat.

(** Where a thread is in the method. *)
Inductive pc : Type :=
| Outside                  (* not in the method, or waiting for the lock *)
| Holding                  (* entered [with self._request_id_lock] *)
| HasRid (rid : Z)         (* [rid = self._request_id] done *)
| Loaded (rid tmp : Z)     (* [self._request_id += 1]: the attribute is read *)
| Stored (rid : Z).        (* the attribute is written; [return rid] is next *)

Record shared : Type := {
  obj : machine;                 (* the client object all threads share *)
  lock : option tid;             (* the holder of [self._request_id_lock] *)
  pcs : tid -> pc;
  returned : list (tid * Z)      (* the ids handed out, in order of return *)
}.

Definition set_pc (f : tid -> pc) (t : tid) (p : pc) : tid -> pc :=
  fun t' => if Nat.eqb t' t then p else f t'.

(** One step of thread [t]; a thread that finds the lock taken waits. The
    steps between taking the lock and releasing it run the statements of
    [_next_request_id] on the shared object. *)
Definition step (t : tid) (c : shared) : shared :=
  match pcs c t with
  | Outside =>
      match lock c with
      | Some _ => c
      | None =>
          {| obj := obj c; lock := Some t;
             pcs := set_pc (pcs c) t Holding; returned := returned c |}
      end
  | Holding =>
      match load_request_id (obj c) with
      | (Return rid, m, _) =>
          {| obj := m; lock := lock c;
             pcs := set_pc (pcs c) t (HasRid rid); returned := returned c |}
      | (Raise _, _, _) => c
      end
  | HasRid rid =>
      match load_request_id (obj c) with
      | (Return tmp, m, _) =>
          {| obj := m; lock := lock c;
             pcs := set_pc (pcs c) t (Loaded rid tmp); returned := returned c |}
      | (Raise _, _, _) => c
      end
  | Loaded rid tmp =>
      match store_request_id (tmp + 1) (obj c) with
      | (Return _, m, _) =>
          {| obj := m; lock := lock c;
             pcs := set_pc (pcs c) t (Stored rid); returned := returned c |}
      | (Raise _, _, _) => c
      end
  | Stored rid =>
      {| obj := obj c; lock := None;
         pcs := set_pc (pcs c) t Outside; returned := returned c ++ [(t, rid)] |}
  end.

Fixpoint run (schedule : list tid) (c : shared) : shared :=
  match schedule with
  | [] => c
  | t :: rest => run rest (step t c)
  end.

(** Nobody is in the method. *)
Definition start (m : machine) : shared :=
  {| obj := m; lock := None; pcs := fun _ => Outside; returned := [] |}.

Definition ids (c : shared) : list Z := map snd (returned c).

Definition request_id (c : shared) : Z := _request_id (self (obj c)).

(** What holds between any two steps of a run that started on [m0] with the
    counter at [a]. *)
Definition invariant (m0 : machine) (c : shared) : Prop :=
  let a := _request_id (self m0) in
  let n := Z.of_nat (List.length (returned c)) in
  (forall t, pcs c t <> Outside -> lock c = Some t) /\
  match lock c with
  | None => request_id c = a + n
  | Some t =>
      match pcs c t with
      | Outside => False
      | Holding => request_id c = a + n
      | HasRid rid => rid = a + n /\ request_id c = a + n
      | Loaded rid tmp => rid = a + n /\ tmp = a + n /\ request_id c = a + n
      | Stored rid => rid = a + n /\ request_id c = a + 1 + n
      end
  end /\
  ids c = count_from a (List.length (returned c)) /\
  obj c = set_request_id m0 (request_id c).

Lemma count_from_snoc n : forall a,
  count_from a (S n) = count_from a n ++ [a + Z.of_nat n].
Proof.
  induction n as [|n IH]; intros a.
  - simpl. f_equal. lia.
  - change (count_from a (S (S n))) with (a :: count_from (a + 1) (S n)).
    rewrite IH. simpl. do 3 f_equal. lia.
Qed.

Lemma set_pc_same f t p : set_pc f t p t = p.
Proof. unfold set_pc. rewrite Nat.eqb_refl. reflexivity. Qed.

Lemma set_pc_other f t p t' : t' <> t -> set_pc f t p t' = f t'.
Proof. intros H. unfold set_pc. apply Nat.eqb_neq in H. rewrite H. reflexivity. Qed.

Lemma invariant_start m0 : invariant m0 (start m0).
Proof.
  unfold invariant, start, request_id. simpl. repeat split; auto.
  - intros t Ht. contradiction.
  - lia.
  - symmetry. apply set_request_id_same.
Qed.

Lemma invariant_step m0 t c : invariant m0 c -> invariant m0 (step t c).
Proof.
  unfold invariant. intros (Hcs & Hid & Hids & Hobj).
  unfold step. destruct (pcs c t) eqn:Ept.
  - (* asking for the lock *)
    destruct (lock c) as [holder|] eqn:El.
    + rewrite El. auto.
    + unfold request_id in *. cbn [lock pcs obj returned]. rewrite set_pc_same.
      split; [|split; [assumption|split; assumption]].
      intros t' Ht'. destruct (Nat.eq_dec t' t) as [->|Hne]; [reflexivity|].
      rewrite set_pc_other in Ht' by assumption.
      apply Hcs in Ht'. congruence.
  - (* [rid = self._request_id] *)
    assert (El : lock c = Some t) by (apply Hcs; congruence).
    rewrite El, Ept in Hid. rewrite load_request_id_spec.
    unfold request_id in *. cbn [lock pcs obj returned]. rewrite El, set_pc_same.
    split; [|split; [split; assumption|split; assumption]].
    intros t' Ht'. destruct (Nat.eq_dec t' t) as [->|Hne]; [reflexivity|].
    rewrite set_pc_other in Ht' by assumption. rewrite <- El. auto.
  - (* reading the attribute for [+= 1] *)
    assert (El : lock c = Some t) by (apply Hcs; congruence).
    rewrite El, Ept in Hid. rewrite load_request_id_spec.
    unfold request_id in *. cbn [lock pcs obj returned]. rewrite El, set_pc_same.
    destruct Hid as [Hr Hq].
    split; [|split; [split; [assumption|split; assumption]|split; assumption]].
    intros t' Ht'. destruct (Nat.eq_dec t' t) as [->|Hne]; [reflexivity|].
    rewrite set_pc_other in Ht' by assumption. rewrite <- El. auto.
  - (* writing the attribute *)
    assert (El : lock c = Some t) by (apply Hcs; congruence).
    rewrite El, Ept in Hid. rewrite store_request_id_spec.
    unfold request_id in *. cbn [lock pcs obj returned]. rewrite El, set_pc_same.
    destruct Hid as (Hr & Htmp & Hq).
    cbn [set_request_id self _request_id with_request_id].
    split; [|split; [split; [assumption|lia]|split; [assumption|]]].
    + intros t' Ht'. destruct (Nat.eq_dec t' t) as [->|Hne]; [reflexivity|].
      rewrite set_pc_other in Ht' by assumption. rewrite <- El. auto.
    + rewrite Hobj at 1. reflexivity.
  - (* [return rid], leaving the [with] block *)
    assert (El : lock c = Some t) by (apply Hcs; congruence).
    rewrite El, Ept in Hid. unfold request_id in *. cbn [lock pcs obj returned].
    destruct Hid as [Hr Hq]. rewrite length_app. cbn [List.length].
    split; [|split; [|split]].
    + intros t' Ht'. destruct (Nat.eq_dec t' t) as [->|Hne].
      * rewrite set_pc_same in Ht'. contradiction.
      * rewrite set_pc_other in Ht' by assumption.
        apply Hcs in Ht'. congruence.
    + lia.
    + unfold ids in *. cbn [returned]. rewrite map_app, Hids. cbn [map snd].
      replace (List.length (returned c) + 1)%nat with (S (List.length (returned c))) by lia.
      rewrite count_from_snoc. f_equal. f_equal. lia.
    + assumption.
Qed.

Lemma invariant_run m0 schedule : forall c, invariant m0 c -> invariant m0 (run schedule c).
Proof.
  induction schedule as [|t rest IH]; intros c H; simpl; [assumption|].
  apply IH, invariant_step, H.
Qed.

(** A caller that runs alone does what the sequential method does. *)
Lemma single_caller t c :
  lock c = None -> pcs c t = Outside ->
  let c' := run [t; t; t; t; t] c in
  _next_request_id (obj c) = (Return (request_id c), obj c', []) /\
  returned c' = returned c ++ [(t, request_id c)] /\
  lock c' = None.
Proof.
  intros Hl Hp.
  assert (E : exists f',
             run [t; t; t; t; t] c =
             {| obj := set_request_id (obj c) (request_id c + 1); lock := None; pcs := f';
                returned := returned c ++ [(t, request_id c)] |}).
  { destruct c as [m l f ret]. simpl in Hl, Hp. subst l. eexists.
    unfold request_id. cbn [run].
    unfold step at 5. cbn [pcs lock obj returned]. rewrite Hp.
    unfold step at 4. cbn [pcs lock obj returned]. rewrite set_pc_same.
    rewrite load_request_id_spec.
    unfold step at 3. cbn [pcs lock obj returned]. rewrite set_pc_same.
    rewrite load_request_id_spec.
    unfold step at 2. cbn [pcs lock obj returned]. rewrite set_pc_same.
    rewrite store_request_id_spec.
    unfold step at 1. cbn [pcs lock obj returned]. rewrite set_pc_same.
    reflexivity. }
  destruct E as [f' E]. cbv zeta. rewrite E. cbn [obj returned lock].
  rewrite next_request_id_spec. auto.
Qed.

(** C5. On a client just built, under any interleaving of any callers of
    [_next_request_id], the ids handed out so far are, in the order the
    calls returned, exactly [1, 2, ..., N]: they start at one and go up by
    one, with no gap and no repeat. They are the ids that [N] calls of
    [_next_request_id] by a single caller return, and whenever the lock is
    free the client object is the one those [N] calls leave. A thread is
    between taking the counter and returning only while it holds the id
    lock, so one thread at most. *)
Theorem ids_are_one_to_n
    env addr token max_retries retry_delay request_timeout pool_size schedule :
  let client := __init__ env addr token max_retries retry_delay request_timeout pool_size in
  let c := run schedule (start (boot client)) in
  let n := List.length (returned c) in
  ids c = count_from 1 n /\
  NoDup (ids c) /\
  fst (fst (sequential n (boot client))) = Return (ids c) /\
  (lock c = None -> snd (fst (sequential n (boot client))) = obj c) /\
  (forall t, pcs c t <> Outside -> lock c = Some t) /\
  (forall t t', pcs c t <> Outside -> pcs c t' <> Outside -> t = t').
Proof.
  intros client c n.
  assert (Hinv : invariant (boot client) c) by (apply invariant_run, invariant_start).
  destruct Hinv as (Hcs & Hid & Hids & Hobj).
  change (_request_id (self (boot client))) with 1 in Hid, Hids.
  fold n in Hids.
  split; [assumption|]. split; [|split; [|split; [|split; [assumption|]]]].
  - rewrite Hids. generalize n. generalize 1.
    intros a k. revert a.
    assert (Hlow : forall k a x, In x (count_from a k) -> a <= x).
    { clear. induction k as [|k IH]; simpl; intros a x; [intros []|].
      intros [<-|Hin]; [lia|]. apply IH in Hin. lia. }
    induction k as [|k IH]; intros a; simpl; constructor; auto.
    intros Hin. apply Hlow in Hin. lia.
  - rewrite sequential_spec, Hids. reflexivity.
  - intros Hfree. rewrite Hfree in Hid. rewrite sequential_spec. cbn [fst snd].
    rewrite Hobj, Hid. reflexivity.
  - intros t t' Ht Ht'. apply Hcs in Ht. apply Hcs in Ht'. congruence.
Qed.

End IdLock.

(** * Scenarios

    Concrete clients, daemons and filesystems on which the statements above
    are exercised. *)

Definition bytes_of (s : string) : list byte := list_byte_of_string s.

Definition show_Z (n : Z) : string := NilZero.string_of_int (Z.to_int n).

Definition quote : string := String (ascii_of_nat 34) EmptyString.

(** A serializer in the layout of [json.dumps], for the values of the
    scenarios: strings are not escaped and a float is shown as a fraction. *)
Fixpoint dumps (v : json) : string :=
  (match v with
   | JNull => "null"
   | JBool true => "true"
   | JBool false => "false"
   | JInt n => show_Z n
   | JFloat q => show_Z (Qnum q) ++ "/" ++ show_Z (Zpos (Qden q))
   | JStr s => quote ++ s ++ quote
   | JList l =>
       "[" ++ (fix items (first : bool) (l : list json) : string :=
                 match l with
                 | [] => ""
                 | x :: rest =>
                     (if first then "" else ", ") ++ dumps x ++ items false rest
                 end) true l ++ "]"
   | JDict d =>
       "{" ++ (fix items (first : bool) (d : list (string * json)) : string :=
                 match d with
                 | [] => ""
                 | (k, x) :: rest =>
                     (if first then "" else ", ") ++ quote ++ k ++ quote ++ ": " ++
                     dumps x ++ items false rest
                 end) true d ++ "}"
   end)%string.

(** A library whose [json.loads] knows three lines, for scenarios in ASCII
    with lengths every platform accepts. *)
Definition table_lib : pylib :=
  {| json_dumps := dumps;
     json_loads := fun text =>
       if (text =? "err")%string then
         Return (JDict [("error", JDict [("code", JInt 404);
                                         ("message", JStr "no such key")])])
       else if (text =? "null")%string then Return (JDict [("result", JNull)])
       else if (text =? "ok")%string then
         Return (JDict [("result", JDict [("ok", JBool true)])])
       else Raise JSONDecodeError;
     utf8_encode := list_byte_of_string;
     utf8_decode := fun bs => Some (string_of_list_byte bs);
     py_str := fun v =>
       match v with
       | JStr s => s
       | JInt 404 => "404"
       | _ => "?"
       end;
     str_strip := strip;
     sleep_overflows := fun _ => false;
     timeout_overflows := fun _ => false |}.

(** A library for which the byte [0xff] is not valid UTF-8. *)
Definition strict_lib : pylib :=
  {| json_dumps := json_dumps table_lib;
     json_loads := json_loads table_lib;
     utf8_encode := utf8_encode table_lib;
     utf8_decode := fun bs =>
       if existsb (Byte.eqb xff) bs then None else utf8_decode table_lib bs;
     py_str := py_str table_lib;
     str_strip := str_strip table_lib;
     sleep_overflows := sleep_overflows table_lib;
     timeout_overflows := timeout_overflows table_lib |}.

(** A daemon that is not listening. *)
Definition refuse : script :=
  {| connect_res := Some ConnectionRefusedError; send_res := None;
     recv_res := []; readline_res := inl [] |}.

(** A daemon that accepts, takes the request and sends [chunks]. *)
Definition answer (chunks : list (list byte)) : script :=
  {| connect_res := None; send_res := None;
     recv_res := map Chunk chunks; readline_res := inl [] |}.

Definition no_files : string -> option file := fun _ => None.

Definition token_in_cwd (text : string) : string -> option file :=
  fun path => if (path =? ".gics_token")%string then Some (Readable text) else None.

(** A token file in the current directory that the user may not read. *)
Definition locked_token : string -> option file :=
  fun path =>
    if (path =? ".gics_token")%string then Some (Unreadable (OSError (OtherOSError 13)))
    else None.

Definition posix (files : string -> option file) (sc : script) : environment :=
  {| os_name_nt := false; home_token := "/home/user/.gics_token";
     fs := files; transport := fun _ => sc |}.

(** [GICSClient(max_retries=2)] and [GICSClient(token='s3cret', max_retries=2)]. *)
Definition anonymous : machine :=
  boot (__init__ (posix no_files refuse) None None 2 (1 # 10) (5 # 1) 4).

Definition with_secret : machine :=
  boot (__init__ (posix no_files refuse) None (Some "s3cret") 2 (1 # 10) (5 # 1) 4).

(** The line ["err"] in two reads, the second one bringing the line feed and
    two more bytes. *)
Definition err_chunks : list (list byte) := [bytes_of "er"; bytes_of "r" ++ newline :: bytes_of "xy"].
Definition null_chunks : list (list byte) := [bytes_of "null" ++ [newline]].
Definition ok_chunks : list (list byte) := [bytes_of "o"; bytes_of "k" ++ newline :: bytes_of "{}"].
Definition ok_chunks' : list (list byte) := [bytes_of "ok" ++ newline :: bytes_of "left over"].

Example strip_example : strip (String (ascii_of_nat 9) "  s3cret " ++ nl) = "s3cret".
Proof. reflexivity. Qed.

Example first_line_example : first_line (List.concat ok_chunks) = bytes_of "ok".
Proof. reflexivity. Qed.

Example range_example : range 3 = [0; 1; 2].
Proof. reflexivity. Qed.

Example refused_call :
  _call table_lib (posix no_files refuse) "ping" JNull anonymous =
  (Raise (OSError ConnectionRefusedError),
   {| self := with_request_id (self anonymous) 2; healthy := true; next_handle := 3%nat |},
   [EvExists ".gics_token" false; EvExists "/home/user/.gics_token" false;
    EvExists "../.gics_token" false;
    EvConnectFailed ConnectionRefusedError;
    EvAttempt 0 (Some (OSError ConnectionRefusedError)); EvSleep (1 # 10);
    EvConnectFailed ConnectionRefusedError;
    EvAttempt 1 (Some (OSError ConnectionRefusedError)); EvSleep (1 # 10);
    EvConnectFailed ConnectionRefusedError;
    EvAttempt 2 (Some (OSError ConnectionRefusedError))]).
Proof. reflexivity. Qed.

Example put_ok :
  fst (fst (put table_lib (posix no_files (answer ok_chunks)) (JStr "k") (JDict [])
              with_secret)) = Return (JBool true).
Proof. reflexivity. Qed.

(** ** The statements at work *)

Lemma boot_pool_ok client :
  _pool client = [] -> 1 <= _pool_size client -> pool_ok (boot client).
Proof.
  intros Hp Hs. unfold pool_ok, boot. simpl. rewrite Hp. simpl.
  split; [lia|]. split; [lia|]. split; [constructor|intros c []].
Qed.



(** [get] against a daemon that answers with an error envelope. *)
Lemma application_error_single_attempt_witness :
  let '(r, m', t) :=
    invoke table_lib (posix no_files (answer err_chunks)) (Get (JStr "k")) with_secret in
  r = Raise (RuntimeError "GICS error 404: no such key") /\
  skeleton t = [EvAttempt 0 None] /\
  _pool (self m') = [0%nat].
Proof.
  destruct (invoke table_lib (posix no_files (answer err_chunks)) (Get (JStr "k"))
              with_secret) as [[r m'] t] eqn:E.
  eapply (@application_error_single_attempt table_lib _ _ with_secret err_chunks []
            "err" _ _ (JInt 404) (JStr "no such key")) in E.
  - destruct E as (A & B & _ & _ & _ & C & _). auto.
  - reflexivity.
  - simpl. lia.
  - reflexivity.
  - apply boot_pool_ok; [reflexivity|simpl; lia].
  - right. split; reflexivity.
  - reflexivity.
  - reflexivity.
  - repeat split; try reflexivity. repeat constructor; discriminate.
  - reflexivity.
  - reflexivity.
  - reflexivity.
  - reflexivity.
  - reflexivity.
Defined.

(** ['error': null] is present and nothing is raised. *)
Lemma unwrap_error_null_not_raised :
  dict_lookup "error" [("error", JNull); ("result", JInt 5)] = Some JNull /\
  _unwrap_result table_lib (JDict [("error", JNull); ("result", JInt 5)]) anonymous =
    (Return (JInt 5), anonymous, []).
Proof. split; reflexivity. Qed.

(** [put] against a daemon that answers [{'result': {'ok': true}}]. *)
Lemma unwrap_result_by_truthiness_witness :
  invoke table_lib (posix no_files (answer ok_chunks)) (Put (JStr "k") (JDict []))
    with_secret =
  (Return (JBool true),
   snd (fst (_call table_lib (posix no_files (answer ok_chunks)) "put"
               (JDict [("key", JStr "k"); ("fields", JDict [])]) with_secret)),
   snd (_call table_lib (posix no_files (answer ok_chunks)) "put"
          (JDict [("key", JStr "k"); ("fields", JDict [])]) with_secret)).
Proof.
  destruct (unwrap_result_by_truthiness table_lib) as [_ H].
  apply (H (posix no_files (answer ok_chunks)) (Put (JStr "k") (JDict [])) with_secret
           [("result", JDict [("ok", JBool true)])] _ _ eq_refl eq_refl
           [("ok", JBool true)] eq_refl).
Defined.

(** [delete] against a daemon that answers [{'result': null}]. *)
Lemma null_result_attribute_error_witness :
  fst (fst (invoke table_lib (posix no_files (answer null_chunks)) (Delete (JStr "k"))
              with_secret)) = Raise AttributeError.
Proof.
  destruct (_call table_lib (posix no_files (answer null_chunks)) "delete"
              (JDict [("key", JStr "k")]) with_secret) as [[r m1] t] eqn:E.
  vm_compute in E. injection E as <- <- <-.
  erewrite (@null_result_attribute_error table_lib _ (Delete (JStr "k")) with_secret
              [("result", JNull)]).
  - reflexivity.
  - discriminate.
  - reflexivity.
  - reflexivity.
  - right. reflexivity.
Defined.

(** Three healthy releases into a pool of capacity two. *)
Lemma pool_never_exceeds_capacity_witness :
  let m := boot (__init__ (posix no_files refuse) None None 3 (1 # 10) (5 # 1) 2) in
  exists m' t,
    release_all [(Some 7%nat, true); (Some 8%nat, true); (Some 9%nat, true)] m =
      (Return tt, m', t) /\
    Z.of_nat (List.length (_pool (self m'))) <= 2 /\
    (In 9%nat (_pool (self m')) \/ In (EvClose 9%nat) t).
Proof.
  intros m.
  destruct pool_never_exceeds_capacity as (_ & _ & H).
  destruct (H [(Some 7%nat, true); (Some 8%nat, true); (Some 9%nat, true)] m)
    as (m' & t & E & Hsz & Hb & Hall).
  - simpl. lia.
  - exists m', t. split; [exact E|]. split.
    + rewrite Hsz in Hb. exact Hb.
    + apply (Hall 9%nat true). right. right. left. reflexivity.
Defined.

(** Two callers interleaved step by step. *)
Lemma ids_are_one_to_n_witness :
  let c := IdLock.run [0; 1; 0; 0; 1; 0; 0; 1; 1; 1; 1; 1]%nat (IdLock.start anonymous) in
  IdLock.ids c = [1; 2] /\
  fst (fst (sequential 2 anonymous)) = Return (IdLock.ids c) /\
  snd (fst (sequential 2 anonymous)) = IdLock.obj c.
Proof.
  intros c.
  destruct (@IdLock.ids_are_one_to_n (posix no_files refuse) None None 2 (1 # 10) (5 # 1) 4
              [0; 1; 0; 0; 1; 0; 0; 1; 1; 1; 1; 1]%nat) as (H1 & _ & H2 & H3 & _).
  split; [exact H1|]. split; [exact H2|]. apply H3. reflexivity.
Defined.

(** The daemon closes the socket after three bytes. *)
Lemma zero_read_evicts_witness :
  let env := posix no_files (answer [bytes_of "par"; []]) in
  let '(r, m', t) := attempt_once table_lib env [] 0 anonymous in
  r = Raise (OSError (ConnectionResetError "Daemon closed IPC socket")) /\
  In (EvClose 0%nat) t /\
  ~ In 0%nat (_pool (self m')) /\
  not_acquired 0%nat
    (snd (run_ops table_lib [OpInvoke env Ping; OpClose; OpInvoke env Ping] m')).
Proof.
  intros env.
  destruct (attempt_once table_lib env [] 0 anonymous) as [[r m'] t] eqn:E.
  eapply (@zero_read_evicts table_lib env [] 0 [bytes_of "par"] [] anonymous) in E.
  - destruct E as (A & _ & _ & _ & B & _ & C & _ & D).
    split; [exact A|]. split; [exact B|]. split; [exact C|].
    destruct (run_ops table_lib [OpInvoke env Ping; OpClose; OpInvoke env Ping] m')
      as [m2 t2] eqn:E2.
    apply (D _ _ _ E2).
  - reflexivity.
  - apply boot_pool_ok; [reflexivity|simpl; lia].
  - right. split; reflexivity.
  - reflexivity.
  - reflexivity.
  - repeat constructor. discriminate.
  - reflexivity.
Defined.

(** A token file lies in the current directory; the client has its own. *)
Lemma explicit_token_precedence_witness :
  let env := posix (token_in_cwd "from the file") (answer ok_chunks) in
  let '(m', t) :=
    run_ops table_lib (api_ops [(env, Ping); (env, Get (JStr "k"))]) with_secret in
  fs env ".gics_token" = Some (Readable "from the file") /\
  filter fs_event t = [] /\
  _token (self m') = Some "s3cret" /\
  In (EvSend 0%nat
        (utf8_encode table_lib
           (json_dumps table_lib
              (JDict [("jsonrpc", JStr "2.0"); ("method", JStr "ping");
                      ("params", JDict []); ("id", JInt 1);
                      ("token", JStr "s3cret")]) ++ nl)%string)) t /\
  forall c payload, In (EvSend c payload) t ->
    exists method params rid,
      payload =
      utf8_encode table_lib
        (json_dumps table_lib
           (JDict [("jsonrpc", JStr "2.0"); ("method", JStr method);
                   ("params", params); ("id", JInt rid); ("token", JStr "s3cret")])
         ++ nl)%string.
Proof.
  intros env.
  destruct (run_ops table_lib (api_ops [(env, Ping); (env, Get (JStr "k"))]) with_secret)
    as [m' t] eqn:E.
  assert (Ht : snd (run_ops table_lib (api_ops [(env, Ping); (env, Get (JStr "k"))])
                      with_secret) = t) by (rewrite E; reflexivity).
  eapply (@explicit_token_precedence table_lib "s3cret") in E.
  - destruct E as (A & B & C). split; [reflexivity|]. split; [assumption|].
    split; [assumption|]. split; [|exact C].
    rewrite <- Ht. vm_compute. right. left. reflexivity.
  - reflexivity.
  - discriminate.
Defined.

(** A client built with the explicit token [''] while a token file lies in
    the current directory: the file is read, its text becomes the token of
    the client, and the request carries it. *)
Lemma empty_token_is_probed :
  let m := boot (__init__ (posix no_files refuse) None (Some "") 2 (1 # 10) (5 # 1) 4) in
  let env := posix (token_in_cwd "from the file") (answer ok_chunks) in
  let '(_, m', t) := _call table_lib env "ping" JNull m in
  _token (self m) = Some "" /\
  In (EvReadFile ".gics_token") t /\
  _token (self m') = Some "from the file" /\
  In (EvSend 0%nat
        (utf8_encode table_lib
           (json_dumps table_lib
              (JDict [("jsonrpc", JStr "2.0"); ("method", JStr "ping");
                      ("params", JDict []); ("id", JInt 1);
                      ("token", JStr "from the file")]) ++ nl)%string)) t /\
  ~ In (EvSend 0%nat
          (utf8_encode table_lib
             (json_dumps table_lib
                (JDict [("jsonrpc", JStr "2.0"); ("method", JStr "ping");
                        ("params", JDict []); ("id", JInt 1);
                        ("token", JStr "")]) ++ nl)%string)) t.
Proof.
  vm_compute. split; [reflexivity|]. split; [tauto|]. split; [reflexivity|].
  split; [tauto|]. intuition discriminate.
Qed.

(** Two clients without a token of their own, each resolving twice. For
    the first there is no token file at the first resolution and one at the
    second; for the second the file is blank at first and filled later. Both
    probe the filesystem again and return another value the second time. *)
Lemma token_probed_again :
  (let '(r1, m1, t1) := _get_token table_lib (posix no_files refuse) anonymous in
   let '(r2, m2, t2) :=
     _get_token table_lib (posix (token_in_cwd " s3cret ") refuse) m1 in
   r1 = Return None /\
   t1 = [EvExists ".gics_token" false; EvExists "/home/user/.gics_token" false;
         EvExists "../.gics_token" false] /\
   r2 = Return (Some "s3cret") /\
   t2 = [EvExists ".gics_token" true; EvReadFile ".gics_token"])
  /\
  (let '(r1, m1, t1) :=
     _get_token table_lib (posix (token_in_cwd "  ") refuse) anonymous in
   let '(r2, m2, t2) :=
     _get_token table_lib (posix (token_in_cwd "s3cret") refuse) m1 in
   r1 = Return (Some "") /\
   _token (self m1) = Some "" /\
   r2 = Return (Some "s3cret") /\
   t2 = [EvExists ".gics_token" true; EvReadFile ".gics_token"]).
Proof. repeat split; reflexivity. Qed.

(** The token is read from the file once and then kept. *)
Lemma token_resolution_cached_once_found_witness :
  let env := posix (token_in_cwd " s3cret ") (answer ok_chunks) in
  let '(_, m1, _) := _get_token table_lib env anonymous in
  let '(m2, t2) := run_ops table_lib [OpInvoke env Ping; OpInvoke env Ping] m1 in
  filter fs_event t2 = [] /\
  _get_token table_lib (posix (token_in_cwd "another") refuse) m2 =
    (Return (Some "s3cret"), m2, []).
Proof.
  intros env.
  destruct (_get_token table_lib env anonymous) as [[r1 m1] t1] eqn:E1.
  destruct (run_ops table_lib [OpInvoke env Ping; OpInvoke env Ping] m1) as [m2 t2] eqn:E2.
  destruct (token_resolution_cached_once_found table_lib) as (_ & _ & H).
  refine (H env anonymous "s3cret" m1 t1 _ _
            [OpInvoke env Ping; OpInvoke env Ping] m2 t2 _ E2); [|discriminate].
  rewrite E1. f_equal. f_equal.
  assert (Hr : fst (fst (_get_token table_lib env anonymous)) = Return (Some "s3cret"))
    by reflexivity.
  rewrite E1 in Hr. exact Hr.
Defined.

(** The same line followed by other bytes, in another chunking. *)
Lemma response_is_first_line_witness :
  let env := posix no_files (answer ok_chunks) in
  let '(r, m', t) := _call table_lib env "ping" JNull with_secret in
  r = Return (JDict [("result", JDict [("ok", JBool true)])]) /\
  filter is_recv t = [EvRecv 0%nat (bytes_of "o");
                      EvRecv 0%nat (bytes_of "k" ++ newline :: bytes_of "{}")] /\
  exists t2,
    _call table_lib (with_transport env (fun _ => answer ok_chunks')) "ping" JNull
      with_secret = (r, m', t2).
Proof.
  intros env.
  destruct (_call table_lib env "ping" JNull with_secret) as [[r m'] t] eqn:E.
  eapply (@response_is_first_line table_lib env "ping" JNull with_secret ok_chunks []
            (bytes_of "ok") (bytes_of "{}")) in E.
  - destruct E as (A & B & C). split; [exact B|]. split; [exact A|].
    apply (C (fun _ => answer ok_chunks') ok_chunks' [] (bytes_of "left over")).
    + right. split; reflexivity.
    + reflexivity.
    + reflexivity.
    + repeat split; try reflexivity. repeat constructor; discriminate.
    + reflexivity.
  - reflexivity.
  - simpl. lia.
  - reflexivity.
  - apply boot_pool_ok; [reflexivity|simpl; lia].
  - right. split; reflexivity.
  - reflexivity.
  - reflexivity.
  - repeat split; try reflexivity. repeat constructor; discriminate.
  - reflexivity.
  - reflexivity.
  - reflexivity.
Defined.

(** * Further properties of the client *)

(** ** The context manager and a script of method calls *)

(** [__enter__] returns the client itself. *)
Definition __enter__ : M unit := ret tt.

(** [__exit__] closes the pool and returns [None], so an exception of the
    block goes on to the caller. *)
Definition __exit__ : M unit := close.

(** [with GICSClient(...) as client: body]. *)
Definition with_client {A} (body : M A) : M A :=
  __enter__;; try_finally body __exit__.

(** Method calls one after the other, as statements of a block: the first
    exception ends the block. *)
Fixpoint do_calls (lib : pylib) (calls : list (environment * api)) : M unit :=
  match calls with
  | [] => ret tt
  | (env, a) :: rest => invoke lib env a;; do_calls lib rest
  end.

(** The connection an event is about, if any. *)
Definition conn_of (ev : event) : option conn :=
  match ev with
  | EvConnect c | EvPoolPop c | EvPoolAppend c | EvClose c => Some c
  | EvSend c _ | EvRecv c _ => Some c
  | _ => None
  end.

(** ** Release and acquire *)

Lemma machine_eta m :
  {| self := self m; healthy := healthy m; next_handle := next_handle m |} = m.
Proof. destruct m; reflexivity. Qed.

Lemma release_with_room s m :
  Z.of_nat (List.length (_pool (self m))) < _pool_size (self m) ->
  _release_unix_socket (Some s) true m =
  (Return tt, set_pool m (_pool (self m) ++ [s]), [EvPoolAppend s]).
Proof.
  intros Hroom. rewrite release_healthy. apply Z.ltb_lt in Hroom.
  rewrite Hroom. reflexivity.
Qed.

Lemma acquire_pooled lib sc m front s :
  _pool (self m) = front ++ [s] ->
  _acquire_unix_socket lib sc m = (Return s, set_pool m front, [EvPoolPop s]).
Proof.
  intros Hp. unfold _acquire_unix_socket. unfold bind at 1, get_self at 1.
  rewrite Hp, list_pop_snoc. reflexivity.
Qed.

Lemma set_pool_back m p : set_pool (set_pool m p) (_pool (self m)) = m.
Proof. destruct m as [c h n]. destruct c. reflexivity. Qed.

(** A healthy release into a pool with room, then an acquire: the acquire
    hands back that very connection without connecting, and the client is
    as it was before the release. *)
Theorem release_then_acquire_reuses lib s sc m :
  Z.of_nat (List.length (_pool (self m))) < _pool_size (self m) ->
  (_release_unix_socket (Some s) true;; _acquire_unix_socket lib sc) m =
  (Return s, m, [EvPoolAppend s; EvPoolPop s]).
Proof.
  intros Hroom. unfold bind. rewrite (release_with_room s m Hroom).
  rewrite (@acquire_pooled lib sc _ (_pool (self m)) s) by reflexivity.
  rewrite set_pool_back. reflexivity.
Qed.

Lemma release_then_acquire_reuses_witness :
  (_release_unix_socket (Some 7%nat) true;; _acquire_unix_socket table_lib refuse)
    anonymous =
  (Return 7%nat, anonymous, [EvPoolAppend 7%nat; EvPoolPop 7%nat]).
Proof. apply release_then_acquire_reuses. simpl. lia. Defined.

(** Connections come back out in the reverse of the order they went in. *)
Theorem pool_is_last_in_first_out lib a b sc m :
  Z.of_nat (List.length (_pool (self m))) + 1 < _pool_size (self m) ->
  (_release_unix_socket (Some a) true;;
   _release_unix_socket (Some b) true;;
   first <- _acquire_unix_socket lib sc;;
   second <- _acquire_unix_socket lib sc;;
   ret (first, second)) m =
  (Return (b, a), m, [EvPoolAppend a; EvPoolAppend b; EvPoolPop b; EvPoolPop a]).
Proof.
  intros Hroom. unfold bind.
  rewrite (release_with_room a m) by lia.
  rewrite release_with_room
    by (cbn [set_pool self _pool with_pool]; rewrite length_app; simpl; lia).
  cbn [set_pool self _pool with_pool healthy next_handle].
  rewrite (@acquire_pooled lib sc _ (_pool (self m) ++ [a]) b) by reflexivity.
  rewrite (@acquire_pooled lib sc _ (_pool (self m)) a) by reflexivity.
  unfold ret. cbn [set_pool self _pool with_pool healthy next_handle app].
  f_equal. f_equal. destruct m as [c h n]. destruct c. reflexivity.
Qed.

Lemma pool_is_last_in_first_out_witness :
  fst (fst ((_release_unix_socket (Some 7%nat) true;;
             _release_unix_socket (Some 8%nat) true;;
             first <- _acquire_unix_socket table_lib refuse;;
             second <- _acquire_unix_socket table_lib refuse;;
             ret (first, second)) anonymous)) = Return (8%nat, 7%nat).
Proof. rewrite pool_is_last_in_first_out; [reflexivity|simpl; lia]. Defined.

(** ** Closing the client *)

Lemma close_spec m :
  close m = (Return tt, set_pool m [], map EvClose (_pool (self m))).
Proof.
  unfold close. unfold bind at 1, get_self at 1.
  unfold bind at 1, put_self at 1. rewrite close_each_spec. reflexivity.
Qed.

(** [close] never raises, closes every idle connection once, in pool
    order, and leaves the pool empty; a second [close] does nothing. *)
Theorem close_drains_and_is_idempotent m :
  close m = (Return tt, set_pool m [], map EvClose (_pool (self m))) /\
  (close;; close) m = close m.
Proof.
  split; [apply close_spec|].
  unfold bind. rewrite !close_spec. cbn [set_pool self _pool with_pool map].
  rewrite app_nil_r. reflexivity.
Qed.

(** ** An attempt on a named pipe *)

Section PipeFacts.

Variable lib : pylib.

(** The runs of [pipe_attempt]: the open fails, or a handle is opened and
    closed again around what could be done with it. *)
Lemma pipe_attempt_shape payload sc m r m' t :
  pipe_attempt lib payload sc m = (r, m', t) ->
  (exists k, connect_res sc = Some k /\ r = Raise (OSError k) /\ m' = m /\
             t = [EvConnectFailed k])
  \/
  (connect_res sc = None /\ self m' = self m /\ healthy m' = healthy m /\
   next_handle m' = S (next_handle m) /\
   exists mid,
     t = EvConnect (next_handle m) :: mid ++ [EvClose (next_handle m)] /\
     ((mid = [] /\ exists k, send_res sc = Some k /\ r = Raise (OSError k))
      \/ (mid = [EvSend (next_handle m) payload] /\ send_res sc = None /\
          exists k, readline_res sc = inr k /\ r = Raise (OSError k))
      \/ (exists line,
            mid = [EvSend (next_handle m) payload; EvRecv (next_handle m) line] /\
            send_res sc = None /\ readline_res sc = inl line /\
            r = loads_outcome lib line))).
Proof.
  unfold pipe_attempt, sendall. intros H.
  destruct (connect_res sc) as [k|].
  - unfold_monad. injection H as <- <- <-. left. exists k. auto.
  - right. split; [reflexivity|].
    destruct (send_res sc) as [k|].
    + unfold_monad. simpl in H. injection H as <- <- <-. simpl.
      repeat split. exists []. split; [reflexivity|]. left. eauto.
    + destruct (readline_res sc) as [line|k].
      * unfold bind at 1, new_handle at 1 in H.
        unfold bind at 1, emit at 1 in H.
        unfold try_finally in H. unfold bind at 1, emit at 1 in H.
        unfold bind at 1, emit at 1 in H.
        rewrite loads_utf8_outcome in H.
        unfold emit in H. simpl in H. injection H as <- <- <-. simpl.
        repeat split.
        exists [EvSend (next_handle m) payload; EvRecv (next_handle m) line].
        split; [reflexivity|]. right. right. exists line. auto.
      * unfold_monad. simpl in H. injection H as <- <- <-. simpl.
        repeat split. exists [EvSend (next_handle m) payload].
        split; [reflexivity|]. right. left. repeat split. eauto.
Qed.

End PipeFacts.

(** On Windows an attempt never touches the pool: it opens a handle the
    runtime has not handed out before, moves bytes on that handle only, and
    closes it before the attempt ends, whether the attempt returns or
    raises. *)
Theorem pipe_handle_is_private lib env payload attempt m r m' t :
  os_name_nt env = true ->
  attempt_once lib env payload attempt m = (r, m', t) ->
  self m' = self m /\
  ((exists k, t = [EvConnectFailed k] /\ r = Raise (OSError k))
   \/ (exists mid,
         t = EvConnect (next_handle m) :: mid ++ [EvClose (next_handle m)] /\
         forallb io_event mid = true /\
         forall ev, In ev mid -> conn_of ev = Some (next_handle m))).
Proof.
  intros Hnt H. unfold attempt_once in H. rewrite Hnt in H.
  apply pipe_attempt_shape in H.
  destruct H as [(k & _ & -> & -> & ->)|(_ & Hs & _ & _ & mid & -> & Hmid)].
  - split; [reflexivity|]. left. eauto.
  - split; [assumption|]. right. exists mid. split; [reflexivity|].
    destruct Hmid as [(-> & _)|[(-> & _)|(line & -> & _)]]; split; try reflexivity;
      intros ev Hin; simpl in Hin;
      repeat (destruct Hin as [<-|Hin]; [reflexivity|]); contradiction.
Qed.

Definition windows (sc : script) : environment :=
  {| os_name_nt := true; home_token := "C:\Users\user\.gics_token";
     fs := no_files; transport := fun _ => sc |}.

Lemma pipe_handle_is_private_witness :
  let sc := {| connect_res := None; send_res := None; recv_res := [];
               readline_res := inl (bytes_of "ok" ++ [newline]) |} in
  let '(r, m', t) := attempt_once table_lib (windows sc) (bytes_of "{}") 0 anonymous in
  self m' = self anonymous /\
  t = [EvConnect 0%nat; EvSend 0%nat (bytes_of "{}");
       EvRecv 0%nat (bytes_of "ok" ++ [newline]); EvClose 0%nat].
Proof.
  intros sc.
  destruct (attempt_once table_lib (windows sc) (bytes_of "{}") 0 anonymous)
    as [[r m'] t] eqn:E.
  destruct (@pipe_handle_is_private table_lib (windows sc) _ _ _ _ _ _ eq_refl E)
    as [Hs _].
  split; [exact Hs|].
  vm_compute in E. injection E as _ _ <-. reflexivity.
Defined.

(** ** Connections over a whole run: nothing leaks, nothing is used after
    its close *)

(** No event of [t] is about connection [c]. *)
Definition untouched (c : conn) (t : list event) : Prop :=
  forall ev, In ev t -> conn_of ev <> Some c.

(** After the close of a connection the trace has no further event about
    it. *)
Fixpoint closed_for_good (t : list event) : Prop :=
  match t with
  | [] => True
  | ev :: rest =>
      match ev with
      | EvClose c => untouched c rest
      | _ => True
      end /\ closed_for_good rest
  end.

(** What a step from [m] to [m'] with trace [t] keeps in order. *)
Record tidy (m m' : machine) (t : list event) : Prop := {
  tidy_trace : closed_for_good t;
  tidy_stale : forall c, stale c m -> untouched c t;
  tidy_closed : forall c, In (EvClose c) t -> stale c m';
  tidy_accounted : forall c,
    In (EvConnect c) t \/ In c (_pool (self m)) ->
    In (EvClose c) t \/ In c (_pool (self m'))
}.

Lemma untouched_app c t1 t2 : untouched c t1 -> untouched c t2 -> untouched c (t1 ++ t2).
Proof. intros H1 H2 ev Hin. apply in_app_or in Hin. destruct Hin; auto. Qed.

Lemma closed_for_good_app t1 t2 :
  closed_for_good t1 -> closed_for_good t2 ->
  (forall c, In (EvClose c) t1 -> untouched c t2) ->
  closed_for_good (t1 ++ t2).
Proof.
  induction t1 as [|ev t1 IH]; simpl; intros H1 H2 Hc; [assumption|].
  destruct H1 as [Hev H1]. split.
  - destruct ev; auto. apply untouched_app; auto.
  - apply IH; auto.
Qed.

Lemma closed_for_good_split t : closed_for_good t ->
  forall t1 c t2, t = t1 ++ EvClose c :: t2 -> untouched c t2.
Proof.
  induction t as [|ev t IH]; intros H t1 c t2 E.
  - destruct t1; discriminate.
  - destruct H as [Hev H]. destruct t1 as [|ev1 t1]; simpl in E.
    + injection E as -> ->. exact Hev.
    + injection E as -> ->. eapply IH; [exact H|reflexivity].
Qed.

(** A trace without a close, and then one more event. *)
Lemma closed_for_good_last t ev :
  (forall c, ~ In (EvClose c) t) -> closed_for_good (t ++ [ev]).
Proof.
  induction t as [|e t IH]; simpl; intros H.
  - split; [destruct ev; auto; intros x []|exact I].
  - split.
    + destruct e; auto. exfalso. eapply H. left. reflexivity.
    + apply IH. intros c Hin. eapply H. right. exact Hin.
Qed.

Lemma tidy_app m m1 m2 t1 t2 :
  tame m m1 t1 -> tame m1 m2 t2 ->
  tidy m m1 t1 -> tidy m1 m2 t2 -> tidy m m2 (t1 ++ t2).
Proof.
  intros T1 T2 [A1 B1 C1 D1] [A2 B2 C2 D2]. split.
  - apply closed_for_good_app; auto.
  - intros c Hc. apply untouched_app; [auto|].
    apply B2. apply (tame_stale T1 Hc).
  - intros c Hin. apply in_app_or in Hin. destruct Hin as [Hin|Hin]; [|auto].
    apply (tame_stale T2 (C1 c Hin)).
  - intros c [Hin|Hin].
    + apply in_app_or in Hin. destruct Hin as [Hin|Hin].
      * destruct (D1 c (or_introl Hin)) as [H|H].
        -- left. apply in_or_app. auto.
        -- destruct (D2 c (or_intror H)) as [H'|H']; [left; apply in_or_app|]; auto.
      * destruct (D2 c (or_introl Hin)) as [H'|H']; [left; apply in_or_app|]; auto.
    + destruct (D1 c (or_intror Hin)) as [H|H].
      * left. apply in_or_app. auto.
      * destruct (D2 c (or_intror H)) as [H'|H']; [left; apply in_or_app|]; auto.
Qed.

(** A step that logs nothing about any connection and keeps the pool. *)
Lemma tidy_quiet m m' t :
  (forall ev, In ev t -> conn_of ev = None) ->
  _pool (self m') = _pool (self m) ->
  tidy m m' t.
Proof.
  intros Hq Hp.
  assert (Hno : forall c, untouched c t).
  { intros c ev Hin. rewrite (Hq ev Hin). discriminate. }
  split.
  - clear Hp Hno. induction t as [|ev t IH]; simpl; [exact I|]. split.
    + destruct ev; auto. specialize (Hq (EvClose c) (or_introl eq_refl)). discriminate.
    + apply IH. intros e He. apply Hq. right. exact He.
  - auto.
  - intros c Hin. specialize (Hq _ Hin). discriminate.
  - intros c [Hin|Hin]; [specialize (Hq _ Hin); discriminate|].
    right. rewrite Hp. exact Hin.
Qed.

Lemma fs_quiet t : forallb fs_event t = true -> forall ev, In ev t -> conn_of ev = None.
Proof.
  intros H ev Hin. rewrite forallb_forall in H. apply H in Hin.
  destruct ev; try discriminate; reflexivity.
Qed.

Section TidyFacts.

Variable lib : pylib.
Variable env : environment.

Lemma recv_loop_on s recvs : forall buffer m r m' t,
  recv_loop s buffer recvs m = (r, m', t) ->
  forall ev, In ev t -> conn_of ev = Some s.
Proof.
  induction recvs as [|[chunk|k] rest IH]; intros buffer m r m' t H; simpl in H.
  - unfold_monad. injection H as <- <- <-. intros ev [].
  - destruct chunk as [|b chunk].
    + unfold_monad. simpl in H. injection H as <- <- <-.
      intros ev [<-|[]]. reflexivity.
    + unfold bind at 1 in H. unfold emit at 1 in H.
      destruct (has_newline (buffer ++ b :: chunk)).
      * unfold_monad. injection H as <- <- <-. intros ev [<-|[]]. reflexivity.
      * destruct (recv_loop s (buffer ++ b :: chunk) rest m) as [[r1 m1] t1] eqn:E.
        pose proof (IH _ _ _ _ _ E) as Hon.
        destruct r1; injection H as <- <- <-; intros ev [<-|Hin];
          try reflexivity; auto.
  - unfold_monad. injection H as <- <- <-. intros ev [].
Qed.

Lemma exchange_on s payload sc m r m' t :
  exchange lib s payload sc m = (r, m', t) ->
  forall ev, In ev t -> conn_of ev = Some s.
Proof.
  intros H. unfold exchange, sendall in H.
  destruct (send_res sc).
  - unfold_monad. injection H as <- <- <-. intros ev [].
  - unfold bind at 1 in H. unfold emit at 1 in H. unfold bind at 1 in H.
    destruct (recv_loop s [] (recv_res sc) m) as [[r1 m1] t1] eqn:E.
    pose proof (recv_loop_on _ _ _ _ E) as Hon.
    destruct r1 as [buffer|e].
    + rewrite loads_utf8_outcome in H. injection H as <- <- <-.
      rewrite app_nil_r. intros ev [<-|Hin]; [reflexivity|auto].
    + injection H as <- <- <-. intros ev [<-|Hin]; [reflexivity|auto].
Qed.

Lemma unix_attempt_tidy payload sc m r m' t :
  pool_ok m ->
  unix_attempt lib payload sc m = (r, m', t) ->
  tidy m m' t.
Proof.
  intros (P1 & P2 & P3 & P4) H. apply unix_attempt_anatomy in H.
  destruct H as [(k & Hp & Hc & -> & -> & Hs & Hn & Hh)
                |[(Hp & Hto & -> & -> & Hs & Hn & Hh)
                 |(s & front & t_acq & t_io & Hacq & (m1 & m2 & _ & _ & Ex) & Hio & _ & Hrel)]].
  - apply tidy_quiet; [|rewrite Hs; reflexivity].
    intros ev [<-|[]]. reflexivity.
  - apply tidy_quiet; [|rewrite Hs; reflexivity].
    intros ev [].
  - pose proof (exchange_on _ _ _ _ Ex) as Hon.
    assert (Ht : exists last, t = (t_acq ++ t_io) ++ [last] /\
                   (last = EvPoolAppend s \/ last = EvClose s)).
    { destruct Hrel as [(_ & _ & _ & ->)|(_ & _ & ->)];
        rewrite app_assoc; eauto. }
    destruct Ht as (last & Ht & Hlast).
    assert (Hacq_ev : (t_acq = [EvPoolPop s] \/ t_acq = [EvConnect s])).
    { destruct Hacq as [(_ & -> & _)|(_ & _ & _ & _ & _ & -> & _)]; auto. }
    assert (Hall : forall ev, In ev t -> conn_of ev = Some s).
    { rewrite Ht. intros ev Hin. apply in_app_or in Hin.
      destruct Hin as [Hin|[<-|[]]].
      - apply in_app_or in Hin. destruct Hin as [Hin|Hin]; [|auto].
        destruct Hacq_ev as [-> | ->]; destruct Hin as [<-|[]]; reflexivity.
      - destruct Hlast as [-> | ->]; reflexivity. }
    assert (Hnc : forall c, ~ In (EvClose c) (t_acq ++ t_io)).
    { intros c Hin. apply in_app_or in Hin. destruct Hin as [Hin|Hin].
      - destruct Hacq_ev as [-> | ->]; destruct Hin as [Hin|[]]; discriminate.
      - rewrite forallb_forall in Hio. apply Hio in Hin. discriminate. }
    assert (Hin_s : In s (_pool (self m)) \/ s = next_handle m).
    { destruct Hacq as [(Hp & _)|(_ & _ & _ & _ & -> & _)]; [|auto].
      left. rewrite Hp. apply in_or_app. right. left. reflexivity. }
    split.
    + rewrite Ht. apply closed_for_good_last, Hnc.
    + intros c [Hc Hlt] ev Hin E. rewrite (Hall ev Hin) in E. injection E as ->.
      destruct Hin_s as [Hs|Hs]; [contradiction|lia].
    + intros c Hin. rewrite Ht in Hin. apply in_app_or in Hin.
      destruct Hin as [Hin|[E|[]]]; [exfalso; eapply Hnc; eassumption|].
      assert (c = s /\ last = EvClose s) as [-> ->].
      { destruct Hlast as [-> | ->]; [discriminate|]. injection E as ->. auto. }
      assert (Hself : self m' = with_pool (self m) front).
      { destruct Hrel as [(_ & _ & _ & Ht')|(_ & Hs & _)]; [|assumption].
        rewrite Ht, <- app_assoc in Ht'. apply app_inv_head in Ht'.
        apply app_inv_head in Ht'. discriminate. }
      unfold stale. rewrite Hself. cbn [_pool with_pool].
      destruct Hacq as [(Hp & _ & ->)|(Hp & -> & _ & _ & -> & _ & ->)].
      * rewrite Hp in P3, P4. split.
        -- apply NoDup_remove_2 with (l' := []) in P3. rewrite app_nil_r in P3. exact P3.
        -- apply P4, in_or_app. right. left. reflexivity.
      * split; [intros []|lia].
    + intros c Hc.
      assert (Hpool' : (last = EvPoolAppend s /\ _pool (self m') = front ++ [s]) \/
                       (last = EvClose s /\ _pool (self m') = front)).
      { destruct Hrel as [(_ & _ & -> & Ht')|(_ & -> & Ht')];
          rewrite Ht, <- app_assoc in Ht'; apply app_inv_head in Ht';
          apply app_inv_head in Ht'; injection Ht' as ->; auto. }
      assert (Hcs : c = s \/ In c front).
      { destruct Hc as [Hin|Hin].
        - left. rewrite Ht in Hin. apply in_app_or in Hin.
          destruct Hin as [Hin|[E|[]]].
          + apply in_app_or in Hin. destruct Hin as [Hin|Hin].
            * destruct Hacq_ev as [-> | ->]; destruct Hin as [E|[]]; congruence.
            * rewrite forallb_forall in Hio. apply Hio in Hin. discriminate.
          + destruct Hlast as [-> | ->]; discriminate.
        - destruct Hacq as [(Hp & _)|(Hp & _)]; rewrite Hp in Hin.
          + apply in_app_or in Hin. destruct Hin as [Hin|[<-|[]]]; auto.
          + destruct Hin. }
      destruct Hpool' as [[-> Hp']|[-> Hp']]; rewrite Hp'.
      * right. apply in_or_app. destruct Hcs as [-> |Hcs]; [right; left|left]; auto.
      * destruct Hcs as [-> |Hcs]; [left|right; assumption].
        rewrite Ht. apply in_or_app. right. left. reflexivity.
Qed.

Lemma pipe_attempt_tidy payload sc m r m' t :
  pool_ok m ->
  pipe_attempt lib payload sc m = (r, m', t) ->
  tidy m m' t.
Proof.
  intros (P1 & P2 & P3 & P4) H. apply pipe_attempt_shape in H.
  destruct H as [(k & _ & _ & -> & ->)|(_ & Hs & _ & Hn & mid & -> & Hmid)].
  - apply tidy_quiet; [|reflexivity]. intros ev [<-|[]]. reflexivity.
  - assert (Hmid_on : forall ev, In ev mid ->
                        conn_of ev = Some (next_handle m) /\ io_event ev = true).
    { destruct Hmid as [(-> & _)|[(-> & _)|(line & -> & _)]];
        intros ev Hin; simpl in Hin;
        repeat (destruct Hin as [<-|Hin]; [split; reflexivity|]); contradiction. }
    assert (Hall : forall ev,
               In ev (EvConnect (next_handle m) :: mid ++ [EvClose (next_handle m)]) ->
               conn_of ev = Some (next_handle m)).
    { intros ev [<-|Hin]; [reflexivity|]. apply in_app_or in Hin.
      destruct Hin as [Hin|[<-|[]]]; [apply Hmid_on, Hin|reflexivity]. }
    assert (Hfresh : ~ In (next_handle m) (_pool (self m))).
    { intros Hin. apply P4 in Hin. lia. }
    split.
    + change (closed_for_good ((EvConnect (next_handle m) :: mid) ++ [EvClose (next_handle m)])).
      apply closed_for_good_last. intros c [E|Hin]; [discriminate|].
      apply Hmid_on in Hin. destruct Hin as [_ Hin]. discriminate.
    + intros c [Hc Hlt] ev Hin E. rewrite (Hall ev Hin) in E.
      injection E as E. lia.
    + intros c Hin. assert (E := Hall _ Hin). injection E as E. subst c.
      unfold stale. rewrite Hs, Hn. split; [assumption|lia].
    + intros c [Hin|Hin].
      * assert (E := Hall _ Hin). injection E as E. subst c. left.
        right. apply in_or_app. right. left. reflexivity.
      * right. rewrite Hs. assumption.
Qed.

Lemma attempt_once_tidy payload attempt m r m' t :
  pool_ok m ->
  attempt_once lib env payload attempt m = (r, m', t) ->
  tidy m m' t.
Proof.
  unfold attempt_once. destruct (os_name_nt env); intros Hok H.
  - eapply pipe_attempt_tidy; eassumption.
  - eapply unix_attempt_tidy; eassumption.
Qed.

End TidyFacts.

Lemma loop_events_quiet m q :
  forallb loop_event q = true -> tame m m q /\ tidy m m q.
Proof.
  intros H. rewrite forallb_forall in H. split.
  - apply tame_quiet.
    + induction q as [|ev q IH]; simpl; [reflexivity|].
      assert (Hev := H ev (or_introl eq_refl)).
      destruct ev; try discriminate; simpl; apply IH; intros x Hx; apply H; right; exact Hx.
    + intros s. split; intros Hin; apply H in Hin; discriminate.
  - apply tidy_quiet; [|reflexivity].
    intros ev Hin. apply H in Hin. destruct ev; try discriminate; reflexivity.
Qed.

Section TidyRuns.

Variable lib : pylib.

Lemma for_attempts_tidy env payload attempts : forall last m r m' t,
  pool_ok m ->
  for_attempts lib env payload attempts last m = (r, m', t) ->
  tidy m m' t.
Proof.
  induction attempts as [|a rest IH]; intros last m r m' t Hok H.
  - simpl in H. destruct last; unfold raise in H; injection H as <- <- <-;
      apply tidy_quiet; try reflexivity; intros ev [].
  - rewrite for_attempts_cons in H.
    destruct (attempt_once lib env payload a m) as [[r1 m1] t1] eqn:E1.
    pose proof (attempt_once_tidy _ _ _ _ Hok E1) as D1.
    apply attempt_once_tame in E1. destruct E1 as [T1 _].
    pose proof (tame_bound T1 Hok) as Hok1.
    destruct r1 as [v|e].
    + injection H as <- <- <-.
      destruct (loop_events_quiet m1 [EvAttempt a None] eq_refl) as [Tq Dq].
      eapply tidy_app; eassumption.
    + destruct (outer_except e && (a <? _max_retries (self m1))).
      * unfold bind at 1 in H.
        destruct (sleep lib (_retry_delay (self m1)) m1) as [[r2 m2] t2] eqn:E2.
        apply sleep_spec in E2. destruct E2 as [-> E2].
        assert (Hq : forallb loop_event (EvAttempt a (Some e) :: t2) = true).
        { destruct E2 as [(_ & _ & ->)|(_ & _ & ->)]; reflexivity. }
        destruct (loop_events_quiet m1 _ Hq) as [Tq Dq].
        pose proof (tidy_app T1 Tq D1 Dq) as D12.
        pose proof (tame_trans T1 Tq) as T12.
        destruct r2 as [[]|e2].
        -- destruct (for_attempts lib env payload rest (Some e) m1) as [[r3 m3] t3] eqn:E3.
           pose proof (IH _ _ _ _ _ Hok1 E3) as D3.
           apply for_attempts_tame in E3. injection H as <- <- <-.
           replace (t1 ++ EvAttempt a (Some e) :: t2 ++ t3)
             with ((t1 ++ EvAttempt a (Some e) :: t2) ++ t3)
             by (rewrite <- app_assoc; reflexivity).
           eapply tidy_app; eassumption.
        -- injection H as <- <- <-. exact D12.
      * injection H as <- <- <-.
        destruct (loop_events_quiet m1 [EvAttempt a (Some e)] eq_refl) as [Tq Dq].
        eapply tidy_app; eassumption.
Qed.

Lemma call_tidy env method params m r m' t :
  pool_ok m ->
  _call lib env method params m = (r, m', t) ->
  tidy m m' t.
Proof.
  intros Hok H.
  destruct (get_token_spec lib env (bump_id m))
    as (tok' & m0' & t0' & E & _ & Hnh & Hfs & _ & Hpool & Hcfg & _).
  simpl in Hnh, Hpool.
  assert (D01 : tidy m m0' t0') by (apply tidy_quiet; [apply fs_quiet, Hfs|exact Hpool]).
  destruct (resolves env m) eqn:Hres.
  2:{ destruct (call_unresolved lib env method params m Hres)
        as (e & m0 & t0 & Etok & Ecall).
      rewrite Ecall in H. rewrite Etok in E. injection E as <- <- <-.
      injection H as <- <- <-. exact D01. }
  destruct (call_unfold lib env method params m Hres) as (tok & m0 & t0 & Etok & Ecall).
  rewrite Ecall in H. clear Ecall. cbv zeta in H.
  rewrite Etok in E. injection E as <- <- <-.
  pose proof (@get_token_tame _ _ _ _ _ _ Etok) as [T1 _].
  pose proof (@next_request_id_tame m _ _ _ (next_request_id_spec m)) as [T0 _].
  fold (bump_id m) in T0.
  pose proof (tame_trans T0 T1) as T01. simpl in T01.
  match type of H with
  | context [for_attempts lib env ?pl ?a ?l m0] =>
      destruct (for_attempts lib env pl a l m0) as [[r2 m2] t2] eqn:E2
  end.
  injection H as <- <- <-.
  assert (D2 : tidy m0 m2 t2)
    by (eapply for_attempts_tidy; [apply (tame_bound T01 Hok)|exact E2]).
  apply for_attempts_tame in E2.
  eapply tidy_app; eassumption.
Qed.

Lemma invoke_tidy env a m r m' t :
  pool_ok m ->
  invoke lib env a m = (r, m', t) ->
  tidy m m' t.
Proof.
  intros Hok. rewrite invoke_shape.
  destruct (_call lib env (method_of a) (params_of a) m) as [[r1 m1] t1] eqn:E.
  intros H. injection H as _ <- <-. eapply call_tidy; eassumption.
Qed.

Lemma closes_for_good p : NoDup p -> closed_for_good (map EvClose p).
Proof.
  induction 1 as [|c p Hc Hp IH]; simpl; [exact I|]. split; [|exact IH].
  intros ev Hin E. apply in_map_iff in Hin. destruct Hin as (x & <- & Hx).
  injection E as ->. contradiction.
Qed.

Lemma close_tidy m r m' t :
  pool_ok m -> close m = (r, m', t) -> tidy m m' t.
Proof.
  intros (P1 & P2 & P3 & P4). rewrite close_spec. intros H. injection H as <- <- <-.
  split.
  - apply closes_for_good, P3.
  - intros c [Hc _] ev Hin E. apply in_map_iff in Hin. destruct Hin as (x & <- & Hx).
    injection E as ->. contradiction.
  - intros c Hin. apply in_map_iff in Hin. destruct Hin as (x & E & Hx).
    injection E as ->. unfold stale. simpl. split; [intros []|auto].
  - intros c [Hin|Hin].
    + apply in_map_iff in Hin. destruct Hin as (x & E & _). discriminate.
    + left. apply in_map. exact Hin.
Qed.

Lemma run_op_tidy o m m' t :
  pool_ok m -> run_op lib o m = (m', t) -> tidy m m' t.
Proof.
  intros Hok.
  destruct o as [env a|env method params|env payload attempt|]; simpl.
  - destruct (invoke lib env a m) as [[r m1] t1] eqn:E.
    intros H. injection H as <- <-. eapply invoke_tidy; eassumption.
  - destruct (_call lib env method params m) as [[r m1] t1] eqn:E.
    intros H. injection H as <- <-. eapply call_tidy; eassumption.
  - destruct (attempt_once lib env payload attempt m) as [[r m1] t1] eqn:E.
    intros H. injection H as <- <-. eapply attempt_once_tidy; eassumption.
  - destruct (close m) as [[r m1] t1] eqn:E.
    intros H. injection H as <- <-. eapply close_tidy; eassumption.
Qed.

Lemma run_ops_tidy ops : forall m m' t,
  pool_ok m -> run_ops lib ops m = (m', t) -> tidy m m' t.
Proof.
  induction ops as [|o rest IH]; simpl; intros m m' t Hok H.
  - injection H as <- <-. apply tidy_quiet; [intros ev []|reflexivity].
  - destruct (run_op lib o m) as [m1 t1] eqn:E1.
    destruct (run_ops lib rest m1) as [m2 t2] eqn:E2.
    injection H as <- <-.
    pose proof (run_op_tame _ _ _ E1) as T1.
    pose proof (run_ops_tame _ _ _ E2) as T2.
    eapply tidy_app; [exact T1|exact T2|eapply run_op_tidy; eassumption|].
    eapply IH; [apply (tame_bound T1 Hok)|exact E2].
Qed.

Lemma do_calls_steps calls : forall m r m' t,
  do_calls lib calls m = (r, m', t) -> tame m m' t /\ (pool_ok m -> tidy m m' t).
Proof.
  induction calls as [|[env a] rest IH]; intros m r m' t H; simpl in H.
  - unfold ret in H. injection H as <- <- <-. split; [apply tame_refl|].
    intros _. apply tidy_quiet; [intros ev []|reflexivity].
  - unfold bind in H.
    destruct (invoke lib env a m) as [[r1 m1] t1] eqn:E1.
    pose proof (invoke_tame _ _ _ _ E1) as T1.
    destruct r1 as [v|e].
    + destruct (do_calls lib rest m1) as [[r2 m2] t2] eqn:E2.
      injection H as <- <- <-. destruct (IH _ _ _ _ E2) as [T2 D2].
      split; [eapply tame_trans; eassumption|].
      intros Hok. eapply tidy_app; [exact T1|exact T2| |].
      * eapply invoke_tidy; eassumption.
      * apply D2, (tame_bound T1 Hok).
    + injection H as <- <- <-. split; [assumption|].
      intros Hok. eapply invoke_tidy; eassumption.
Qed.

End TidyRuns.

(** Whatever a client does after it is built, its idle pool stays within
    the capacity, holds no connection twice, and holds only connections
    that exist; its settings stay what [__init__] made them. *)
Theorem pool_invariant_kept
    lib env addr token max_retries retry_delay request_timeout pool_size ops :
  let client := __init__ env addr token max_retries retry_delay request_timeout pool_size in
  let m' := fst (run_ops lib ops (boot client)) in
  pool_ok m' /\ same_config client (self m').
Proof.
  intros client m'. subst m'.
  destruct (run_ops lib ops (boot client)) as [m' t] eqn:E.
  apply run_ops_tame in E. simpl. split.
  - apply (tame_bound E). apply boot_pool_ok; [reflexivity|]. simpl. lia.
  - apply (tame_config E).
Qed.

(** Once a connection has been closed, nothing more happens on it: it is
    not popped from the pool, not appended to it, not written to or read
    from, and not closed a second time. *)
Theorem no_use_after_close
    lib env addr token max_retries retry_delay request_timeout pool_size ops m' t :
  let client := __init__ env addr token max_retries retry_delay request_timeout pool_size in
  run_ops lib ops (boot client) = (m', t) ->
  forall t1 c t2, t = t1 ++ EvClose c :: t2 ->
  forall ev, In ev t2 -> conn_of ev <> Some c.
Proof.
  intros client H t1 c t2 Ht.
  apply run_ops_tidy in H.
  - apply (closed_for_good_split (tidy_trace H) _ _ Ht).
  - apply boot_pool_ok; [reflexivity|]. simpl. lia.
Qed.

(** A daemon that sends one byte and hangs up. *)
Definition hangs_up : script := answer [bytes_of "o"; []].

Lemma no_use_after_close_witness :
  let ops := [OpInvoke (posix no_files (answer ok_chunks)) Ping;
              OpInvoke (posix no_files hangs_up) Ping;
              OpInvoke (posix no_files (answer ok_chunks)) Ping; OpClose] in
  let t := snd (run_ops table_lib ops anonymous) in
  In (EvClose 0%nat) t /\
  forall t1 t2, t = t1 ++ EvClose 0%nat :: t2 ->
  forall ev, In ev t2 -> conn_of ev <> Some 0%nat.
Proof.
  intros ops t. split.
  - vm_compute. tauto.
  - intros t1 t2 Ht.
    apply (@no_use_after_close table_lib (posix no_files refuse) None None 2 (1 # 10)
             (5 # 1) 4 ops (fst (run_ops table_lib ops anonymous)) t
             (surjective_pairing _) t1 0%nat t2 Ht).
Defined.

(** The block of a [with] statement made of method calls: the outcome of
    the statement is the outcome of the block (an exception is not
    swallowed); when the statement is left the idle pool is empty and every
    connection that was opened inside it has been closed. *)
Theorem with_block_closes_everything
    lib env addr token max_retries retry_delay request_timeout pool_size calls r m' t :
  let client := __init__ env addr token max_retries retry_delay request_timeout pool_size in
  with_client (do_calls lib calls) (boot client) = (r, m', t) ->
  r = fst (fst (do_calls lib calls (boot client))) /\
  _pool (self m') = [] /\
  (forall c, In (EvConnect c) t -> In (EvClose c) t) /\
  closed_for_good t.
Proof.
  intros client H.
  assert (Hok : pool_ok (boot client))
    by (apply boot_pool_ok; [reflexivity|simpl; lia]).
  unfold with_client, __enter__, __exit__ in H.
  unfold bind, ret, try_finally in H.
  destruct (do_calls lib calls (boot client)) as [[rb mb] tb] eqn:Eb.
  destruct (do_calls_steps _ _ _ Eb) as [Tb Db]. specialize (Db Hok).
  pose proof (tame_bound Tb Hok) as Hokb.
  rewrite close_spec in H. injection H as <- <- <-. simpl.
  pose proof (@close_tidy mb _ _ _ Hokb (close_spec mb)) as Dc.
  pose proof (@close_tame mb _ _ _ (close_spec mb)) as Tc.
  pose proof (tidy_app Tb Tc Db Dc) as D.
  split; [reflexivity|]. split; [reflexivity|]. split.
  - intros c Hin. destruct (tidy_accounted D c (or_introl Hin)) as [Hc|Hc]; [auto|].
    destruct Hc.
  - apply (tidy_trace D).
Qed.

Lemma with_block_closes_everything_witness :
  let env := posix no_files (answer ok_chunks) in
  let '(r, m', t) :=
    with_client (do_calls table_lib [(env, Ping); (env, Get (JStr "k")); (env, Flush)])
      anonymous in
  r = Return tt /\ _pool (self m') = [] /\
  In (EvConnect 0%nat) t /\ In (EvClose 0%nat) t.
Proof.
  intros env.
  destruct (with_client (do_calls table_lib [(env, Ping); (env, Get (JStr "k")); (env, Flush)])
              anonymous) as [[r m'] t] eqn:E.
  destruct (@with_block_closes_everything table_lib (posix no_files refuse) None None 2
              (1 # 10) (5 # 1) 4 _ _ _ _ E) as (A & B & C & _).
  assert (Hc : In (EvConnect 0%nat) t).
  { vm_compute in E. injection E as _ _ <-. simpl. tauto. }
  split; [rewrite A; reflexivity|]. split; [exact B|]. split; [exact Hc|].
  apply C, Hc.
Defined.

(** ** The shape of every call *)


Section ShapeFacts.

Variable lib : pylib.
Variable env : environment.


End ShapeFacts.




(** ** Lines that do not decode *)

Lemma skeleton_of_exchange ev s payload chunks last rest :
  loop_event ev = false -> loop_event last = false ->
  skeleton (ev :: EvSend s payload :: (map (EvRecv s) chunks ++ [last]) ++ rest) =
  skeleton rest.
Proof.
  intros Hev Hlast.
  change (skeleton ((ev :: EvSend s payload :: map (EvRecv s) chunks ++ [last]) ++ rest) =
          skeleton rest).
  rewrite skeleton_app. cbn [skeleton filter]. rewrite Hev.
  cbn [loop_event]. fold (skeleton (map (EvRecv s) chunks ++ [last])).
  rewrite skeleton_app. cbn [skeleton filter]. rewrite Hlast.
  rewrite (io_no_loop (map (EvRecv s) chunks)); [reflexivity|].
  clear. induction chunks; simpl; auto.
Qed.

Section DecodeFacts.

Variable lib : pylib.

(** A call whose first attempt is delivered a line, when the outcome of
    decoding it ends the retry loop. *)
Lemma call_first_final env method params m chunks rest :
  os_name_nt env = false ->
  0 <= _max_retries (self m) ->
  resolves env m = true ->
  pool_ok m ->
  acquires lib (transport env 0) m ->
  send_res (transport env 0) = None ->
  recv_res (transport env 0) = map Chunk chunks ++ rest ->
  delivers_line chunks ->
  let r := loads_outcome lib (first_line (List.concat chunks)) in
  match r with Return _ => True | Raise e => outer_except e = false end ->
  exists tok m0 t0 payload,
    _get_token lib env (bump_id m) = (Return tok, m0, t0) /\
    forallb fs_event t0 = true /\
    next_conn m0 = next_conn m /\ pool_rest m0 = pool_rest m /\
    _call lib env method params m =
      (r, after_attempt m0 r,
       t0 ++ (acquire_event m0 :: EvSend (next_conn m0) payload ::
                map (EvRecv (next_conn m0)) chunks ++
                [if healthy_after r then EvPoolAppend (next_conn m0)
                 else EvClose (next_conn m0)])
          ++ [EvAttempt 0 (raised r)]).
Proof.
  intros Hnt Hmax Hres Hok Hacq Hsend Hrecv Hline r Hfinal.
  destruct (call_unfold lib env method params m Hres) as (tok & m0 & t0 & Etok & Ecall).
  destruct (get_token_spec lib env (bump_id m))
    as (tok' & m0' & t0' & E & _ & Hnh & Hfs & _ & Hpool & Hcfg & _).
  rewrite Etok in E. injection E as <- <- <-. simpl in Hnh, Hpool.
  assert (Hok0 : pool_ok m0).
  { destruct Hok as (A & B & C & D). destruct Hcfg as (_ & _ & _ & _ & Hsz).
    simpl in Hsz. unfold pool_ok. rewrite Hsz, Hpool, Hnh. auto. }
  eexists tok, m0, t0, _. split; [exact Etok|]. split; [exact Hfs|].
  split; [unfold next_conn; rewrite Hpool, Hnh; reflexivity|].
  split; [unfold pool_rest; rewrite Hpool; reflexivity|].
  rewrite Ecall. cbv zeta.
  rewrite (range_positive Hmax), for_attempts_cons.
  unfold attempt_once. rewrite Hnt.
  rewrite (@unix_attempt_line lib _ (transport env 0) chunks rest m0 Hok0);
    try assumption; [|exact (@acquires_same lib _ m m0 Hpool Hcfg Hacq)].
  cbv zeta. fold r. destruct r as [v|e]; [reflexivity|].
  rewrite Hfinal. reflexivity.
Qed.

End DecodeFacts.

(** On a socket, when the line the first attempt is delivered is not valid
    UTF-8, the call raises [UnicodeDecodeError] after that one attempt,
    whatever [max_retries >= 0] is: the error is outside the classes of both
    [except] clauses. It never sleeps, and the connection is not closed but
    appended to the idle pool. That the first attempt is delivered a line
    says that the token resolution before it did not raise ([resolves]) and
    that the attempt got a connection ([acquires]). *)
Theorem undecodable_line_is_not_retried
    lib env method params m chunks rest r m' t :
  os_name_nt env = false ->
  0 <= _max_retries (self m) ->
  resolves env m = true ->
  pool_ok m ->
  acquires lib (transport env 0) m ->
  send_res (transport env 0) = None ->
  recv_res (transport env 0) = map Chunk chunks ++ rest ->
  delivers_line chunks ->
  utf8_decode lib (first_line (List.concat chunks)) = None ->
  _call lib env method params m = (r, m', t) ->
  let s := next_conn m in
  r = Raise UnicodeDecodeError /\
  skeleton t = [EvAttempt 0 (Some UnicodeDecodeError)] /\
  In (EvPoolAppend s) t /\
  (forall c, ~ In (EvClose c) t) /\
  _pool (self m') = pool_rest m ++ [s].
Proof.
  intros Hnt Hmax Hres Hok Hacq Hsend Hrecv Hline Hutf H s.
  assert (Hr : loads_outcome lib (first_line (List.concat chunks)) = Raise UnicodeDecodeError)
    by (unfold loads_outcome; rewrite Hutf; reflexivity).
  destruct (@call_first_final lib env method params m chunks rest)
    as (tok & m0 & t0 & payload & Etok & Hfs & Hnc & Hpr & Ecall); try assumption.
  { rewrite Hr. reflexivity. }
  rewrite Hr in Ecall. cbn [healthy_after inner_except negb raised] in Ecall.
  rewrite Ecall in H. injection H as <- <- <-. rewrite Hnc.
  split; [reflexivity|]. split; [|split; [|split]].
  - rewrite skeleton_app, (fs_no_loop _ Hfs).
    rewrite skeleton_of_exchange; [reflexivity|apply acquire_event_loop|reflexivity].
  - repeat (rewrite in_app_iff || simpl). tauto.
  - intros c Hin.
    assert (A : ~ In (EvClose c) t0).
    { intros Hc. rewrite forallb_forall in Hfs. apply Hfs in Hc. discriminate. }
    assert (B : acquire_event m0 <> EvClose c) by apply acquire_event_not_close.
    assert (C : ~ In (EvClose c) (map (EvRecv (next_conn m)) chunks)).
    { intros Hc. apply in_map_iff in Hc. destruct Hc as (x & Hx & _). discriminate. }
    repeat (rewrite in_app_iff in Hin || simpl in Hin).
    intuition discriminate.
  - unfold after_attempt. cbn [self _pool with_pool healthy_after inner_except negb].
    rewrite Hpr, Hnc. reflexivity.
Qed.

Lemma undecodable_line_is_not_retried_witness :
  let env := posix no_files (answer [[xff; newline]]) in
  let '(r, m', t) := _call strict_lib env "ping" JNull anonymous in
  r = Raise UnicodeDecodeError /\
  skeleton t = [EvAttempt 0 (Some UnicodeDecodeError)] /\
  _pool (self m') = [0%nat].
Proof.
  intros env.
  destruct (_call strict_lib env "ping" JNull anonymous) as [[r m'] t] eqn:E.
  eapply (@undecodable_line_is_not_retried strict_lib env "ping" JNull anonymous
            [[xff; newline]] []) in E.
  - destruct E as (A & B & _ & _ & C). auto.
  - reflexivity.
  - simpl. lia.
  - reflexivity.
  - apply boot_pool_ok; [reflexivity|simpl; lia].
  - right. split; reflexivity.
  - reflexivity.
  - reflexivity.
  - repeat split; try reflexivity. repeat constructor; discriminate.
  - reflexivity.
Defined.

(** On a socket, when the line an attempt is delivered decodes as text but
    is not JSON, the attempt raises [JSONDecodeError], which the retry loop
    catches: the connection is closed, not appended to the pool, and the loop
    sleeps and tries again while attempts are left. *)
Theorem malformed_json_closes_and_retries
    lib env payload attempt chunks rest text m r m' t :
  os_name_nt env = false ->
  pool_ok m ->
  acquires lib (transport env attempt) m ->
  send_res (transport env attempt) = None ->
  recv_res (transport env attempt) = map Chunk chunks ++ rest ->
  delivers_line chunks ->
  utf8_decode lib (first_line (List.concat chunks)) = Some text ->
  json_loads lib text = Raise JSONDecodeError ->
  attempt_once lib env payload attempt m = (r, m', t) ->
  let s := next_conn m in
  r = Raise JSONDecodeError /\
  healthy m' = false /\
  In (EvClose s) t /\
  ~ In (EvPoolAppend s) t /\
  _pool (self m') = pool_rest m /\
  forall later last,
    for_attempts lib env payload (attempt :: later) last m =
    if attempt <? _max_retries (self m') then
      let '(r2, m2, t2) :=
        (sleep lib (_retry_delay (self m'));;
         for_attempts lib env payload later (Some JSONDecodeError)) m' in
      (r2, m2, t ++ EvAttempt attempt (Some JSONDecodeError) :: t2)
    else (Raise JSONDecodeError, m', t ++ [EvAttempt attempt (Some JSONDecodeError)]).
Proof.
  intros Hnt Hok Hacq Hsend Hrecv Hline Hutf Hjson H s.
  pose proof H as Hrun.
  unfold attempt_once in H. rewrite Hnt in H.
  rewrite (@unix_attempt_line lib payload _ chunks rest m Hok Hacq Hsend Hrecv Hline) in H.
  cbv zeta in H.
  assert (Hr : loads_outcome lib (first_line (List.concat chunks)) = Raise JSONDecodeError)
    by (unfold loads_outcome; rewrite Hutf, Hjson; reflexivity).
  rewrite Hr in H. cbn [healthy_after inner_except negb] in H.
  injection H as <- <- <-. fold s.
  split; [reflexivity|]. split; [reflexivity|]. split; [|split; [|split]].
  - right. right. apply in_or_app. right. left. reflexivity.
  - intros [Hin|[Hin|Hin]].
    + unfold acquire_event in Hin.
      destruct (list_pop (_pool (self m))) as [[? ?]|]; discriminate.
    + discriminate.
    + apply in_app_or in Hin. destruct Hin as [Hin|[Hin|[]]]; [|discriminate].
      apply in_map_iff in Hin. destruct Hin as (x & Hx & _). discriminate.
  - reflexivity.
  - intros later last. rewrite for_attempts_cons, Hrun. reflexivity.
Qed.

Lemma malformed_json_closes_and_retries_witness :
  let env := posix no_files (answer [bytes_of "<html>" ++ [newline]]) in
  let '(r, m', t) := attempt_once table_lib env [] 0 anonymous in
  r = Raise JSONDecodeError /\ In (EvClose 0%nat) t /\ _pool (self m') = [].
Proof.
  intros env.
  destruct (attempt_once table_lib env [] 0 anonymous) as [[r m'] t] eqn:E.
  eapply (@malformed_json_closes_and_retries table_lib env [] 0
            [bytes_of "<html>" ++ [newline]] [] "<html>") in E.
  - destruct E as (A & _ & B & _ & C & _). auto.
  - reflexivity.
  - apply boot_pool_ok; [reflexivity|simpl; lia].
  - right. split; reflexivity.
  - reflexivity.
  - reflexivity.
  - repeat split; try reflexivity. repeat constructor; discriminate.
  - reflexivity.
  - reflexivity.
Defined.

(** ** Settings at the edge *)




(** With a [retry_delay] that [time.sleep] refuses (a negative one, with
    [ValueError], or one that does not convert, with [OverflowError]) and at
    least one retry allowed, a call whose first attempt raises an error the
    loop catches does not retry: the error of [time.sleep] is what the
    caller gets in place of the transport error. *)
Theorem negative_delay_masks_the_error lib env method params m r m' t e :
  1 <= _max_retries (self m) ->
  sleep_ok lib (_retry_delay (self m)) = false ->
  _call lib env method params m = (r, m', t) ->
  In (EvAttempt 0 (Some e)) t ->
  outer_except e = true ->
  r = Raise (if sleep_overflows lib (_retry_delay (self m))
             then OverflowError else ValueError) /\
  skeleton t = [EvAttempt 0 (Some e)].
Proof.
  intros Hmax Hd H Hin He.
  change (if sleep_overflows lib (_retry_delay (self m)) then OverflowError else ValueError)
    with (sleep_error lib (_retry_delay (self m))).
  destruct (get_token_spec lib env (bump_id m))
    as (tok' & m0' & t0' & E & _ & _ & Hfs & _ & _ & Hcfg & _).
  destruct (resolves env m) eqn:Hres.
  2:{ destruct (call_unresolved lib env method params m Hres)
        as (e0 & m0 & t0 & Etok & Ecall).
      rewrite Ecall in H. rewrite Etok in E. injection E as <- <- <-.
      injection H as <- <- <-. exfalso.
      rewrite forallb_forall in Hfs. apply Hfs in Hin. discriminate. }
  destruct (call_unfold lib env method params m Hres) as (tok & m0 & t0 & Etok & Ecall).
  rewrite Ecall in H. clear Ecall. cbv zeta in H.
  rewrite Etok in E. injection E as <- <- <-.
  destruct Hcfg as (_ & Hmr & Hrd & _). simpl in Hmr, Hrd.
  rewrite range_positive, for_attempts_cons in H by lia.
  match type of H with
  | context [attempt_once lib env ?p 0 m0] =>
      destruct (attempt_once lib env p 0 m0) as [[r1 m1] t1] eqn:E1
  end.
  apply attempt_once_tame in E1. destruct E1 as [T1 K1].
  destruct (tame_config T1) as (_ & Hmr1 & Hrd1 & _).
  assert (Hno : forall o, ~ In (EvAttempt 0 o) (t0 ++ t1)).
  { intros o Hi. apply in_app_or in Hi. destruct Hi as [Hi|Hi].
    - rewrite forallb_forall in Hfs. apply Hfs in Hi. discriminate.
    - assert (Hs : In (EvAttempt 0 o) (skeleton t1))
        by (apply filter_In; split; [exact Hi|reflexivity]).
      rewrite K1 in Hs. destruct Hs. }
  destruct r1 as [v|e1].
  - injection H as <- <- <-. exfalso.
    rewrite app_assoc in Hin. apply in_app_or in Hin.
    destruct Hin as [Hin|[Hin|[]]]; [eapply Hno; eassumption|discriminate].
  - assert (He1 : outer_except e1 = true /\ e1 = e \/ outer_except e1 = false).
    { destruct (outer_except e1) eqn:X; [|auto]. left. split; [reflexivity|].
      replace (0 <? _max_retries (self m1)) with true in H
        by (symmetry; apply Z.ltb_lt; lia).
      simpl in H. unfold bind at 1 in H. rewrite sleep_run, Hrd1, Hrd, Hd in H.
      injection H as <- <- <-.
      rewrite app_assoc in Hin. apply in_app_or in Hin.
      destruct Hin as [Hin|[Hin|[]]]; [exfalso; eapply Hno; eassumption|].
      injection Hin as ->. reflexivity. }
    destruct He1 as [[He1 ->]|He1].
    + rewrite He in H.
      replace (0 <? _max_retries (self m1)) with true in H
        by (symmetry; apply Z.ltb_lt; lia).
      simpl in H. unfold bind at 1 in H. rewrite sleep_run, Hrd1, Hrd, Hd in H.
      injection H as <- <- <-.
      split; [reflexivity|].
      rewrite !skeleton_app, (fs_no_loop _ Hfs), K1. reflexivity.
    + rewrite He1 in H. simpl in H. injection H as <- <- <-. exfalso.
      rewrite app_assoc in Hin. apply in_app_or in Hin.
      destruct Hin as [Hin|[Hin|[]]]; [eapply Hno; eassumption|].
      injection Hin as ->. congruence.
Qed.

Lemma negative_delay_masks_the_error_witness :
  let m := boot (__init__ (posix no_files refuse) None None 3 (-1 # 10) (5 # 1) 4) in
  let '(r, _, t) := _call table_lib (posix no_files refuse) "ping" JNull m in
  r = Raise ValueError /\
  skeleton t = [EvAttempt 0 (Some (OSError ConnectionRefusedError))].
Proof.
  intros m.
  destruct (_call table_lib (posix no_files refuse) "ping" JNull m) as [[r m'] t] eqn:E.
  apply (@negative_delay_masks_the_error table_lib (posix no_files refuse) "ping" JNull
           m r m' t (OSError ConnectionRefusedError)).
  - simpl. lia.
  - reflexivity.
  - exact E.
  - vm_compute in E. injection E as _ _ <-. simpl. tauto.
  - reflexivity.
Defined.

(** ** Ids over a sequence of calls *)

(** The request object of a call, as [_call] builds it. *)
Lemma call_sends_id lib env method params m r m' t :
  _call lib env method params m = (r, m', t) ->
  exists tok, forall c p, In (EvSend c p) t ->
    p = utf8_encode lib
          (json_dumps lib
             (JDict [("jsonrpc", JStr "2.0"); ("method", JStr method);
                     ("params", params_or_empty params);
                     ("id", JInt (_request_id (self m)));
                     ("token", match tok with Some s => JStr s | None => JNull end)])
           ++ nl)%string.
Proof.
  intros H.
  destruct (get_token_spec lib env (bump_id m)) as (tok' & m0' & t0' & E & _ & _ & Hfs & _).
  destruct (resolves env m) eqn:Hres.
  - destruct (call_unfold lib env method params m Hres) as (tok & m0 & t0 & Etok & Ecall).
    rewrite Ecall in H. clear Ecall. cbv zeta in H.
    rewrite Etok in E. injection E as <- <- <-.
    match type of H with
    | context [for_attempts lib env ?pl ?a ?l m0] =>
        destruct (for_attempts lib env pl a l m0) as [[r2 m2] t2] eqn:E2
    end.
    injection H as <- <- <-. exists tok. intros c p Hin.
    apply in_app_or in Hin. destruct Hin as [Hin|Hin].
    + rewrite forallb_forall in Hfs. apply Hfs in Hin. discriminate.
    + eapply for_attempts_sends in E2; [|exact Hin]. subst p. reflexivity.
  - destruct (call_unresolved lib env method params m Hres) as (e & m0 & t0 & Etok & Ecall).
    rewrite Ecall in H. rewrite Etok in E. injection E as <- <- <-.
    injection H as <- <- <-. exists None. intros c p Hin.
    rewrite forallb_forall in Hfs. apply Hfs in Hin. discriminate.
Qed.

Lemma run_ops_app lib ops1 ops2 m :
  run_ops lib (ops1 ++ ops2) m =
  let '(m1, t1) := run_ops lib ops1 m in
  let '(m2, t2) := run_ops lib ops2 m1 in
  (m2, t1 ++ t2).
Proof.
  revert m. induction ops1 as [|o ops1 IH]; intros m; simpl.
  - destruct (run_ops lib ops2 m) as [m2 t2]. reflexivity.
  - destruct (run_op lib o m) as [m1 t1]. rewrite IH.
    destruct (run_ops lib ops1 m1) as [m2 t2].
    destruct (run_ops lib ops2 m2) as [m3 t3]. rewrite app_assoc. reflexivity.
Qed.

Lemma calls_advance_counter lib calls : forall m,
  _request_id (self (fst (run_ops lib (api_ops calls) m))) =
  _request_id (self m) + Z.of_nat (List.length calls).
Proof.
  induction calls as [|[env a] calls IH]; intros m; simpl.
  - lia.
  - rewrite invoke_shape.
    destruct (_call lib env (method_of a) (params_of a) m) as [[r1 m1] t1] eqn:E1.
    specialize (IH m1).
    destruct (run_ops lib (api_ops calls) m1) as [m2 t2]. simpl in *.
    rewrite IH, (call_takes_one_id _ _ _ _ _ E1). lia.
Qed.

(** Over any sequence of method calls, whatever their outcomes, the counter
    advances by one per call. The trace of the sequence is the trace of the
    calls before position [k], then the trace of the call at position [k]
    (counting from zero), then the trace of the calls after it; and every
    request sent within the trace of the call at position [k], on its first
    attempt and on every retry, is the JSON-RPC object with that call's
    method and params and with the id the counter had at the start plus
    [k]. *)
Theorem calls_take_consecutive_ids lib calls m m' t :
  run_ops lib (api_ops calls) m = (m', t) ->
  _request_id (self m') = _request_id (self m) + Z.of_nat (List.length calls) /\
  forall k env a, nth_error calls k = Some (env, a) ->
    exists m_k t_before r_k m_k' t_k t_after,
      run_ops lib (api_ops (firstn k calls)) m = (m_k, t_before) /\
      invoke lib env a m_k = (r_k, m_k', t_k) /\
      run_ops lib (api_ops (skipn (S k) calls)) m_k' = (m', t_after) /\
      t = t_before ++ t_k ++ t_after /\
      exists tok, forall c p, In (EvSend c p) t_k ->
        p = utf8_encode lib
              (json_dumps lib
                 (JDict [("jsonrpc", JStr "2.0"); ("method", JStr (method_of a));
                         ("params", params_or_empty (params_of a));
                         ("id", JInt (_request_id (self m) + Z.of_nat k));
                         ("token", match tok with Some s => JStr s | None => JNull end)])
               ++ nl)%string.
Proof.
  intros H. split.
  - pose proof (calls_advance_counter lib calls m) as Hc. rewrite H in Hc. exact Hc.
  - intros k env a Hk.
    assert (Hsplit : calls = firstn k calls ++ (env, a) :: skipn (S k) calls).
    { clear - Hk. revert k Hk. induction calls as [|x calls IH]; intros [|k] Hk;
        simpl in *; try discriminate.
      - injection Hk as ->. reflexivity.
      - f_equal. apply IH, Hk. }
    assert (Hlen : List.length (firstn k calls) = k).
    { apply firstn_length_le. apply Nat.lt_le_incl, nth_error_Some. congruence. }
    pose proof (calls_advance_counter lib (firstn k calls) m) as Hid.
    rewrite Hlen in Hid.
    rewrite Hsplit in H at 1. unfold api_ops in H. rewrite map_app in H.
    fold (api_ops (firstn k calls)) in H. rewrite run_ops_app in H.
    destruct (run_ops lib (api_ops (firstn k calls)) m) as [m_k t_before].
    cbn [map run_ops run_op fst snd] in H. fold (api_ops (skipn (S k) calls)) in H.
    destruct (invoke lib env a m_k) as [[r_k m_k'] t_k] eqn:Ek.
    destruct (run_ops lib (api_ops (skipn (S k) calls)) m_k') as [m2 t_after] eqn:Ea.
    injection H as <- <-.
    exists m_k, t_before, r_k, m_k', t_k, t_after.
    split; [reflexivity|]. split; [exact Ek|]. split; [exact Ea|].
    split; [reflexivity|].
    rewrite invoke_shape in Ek.
    destruct (_call lib env (method_of a) (params_of a) m_k) as [[r1 m1] t1] eqn:E1.
    injection Ek as _ _ <-.
    destruct (call_sends_id _ _ _ _ _ E1) as [tok Hsend].
    exists tok. simpl in Hid. rewrite <- Hid. exact Hsend.
Qed.

Lemma calls_take_consecutive_ids_witness :
  let env := posix no_files (answer ok_chunks) in
  let calls := [(env, Ping); (env, Flush); (env, Put (JStr "k") (JDict []))] in
  let '(m', t) := run_ops table_lib (api_ops calls) anonymous in
  _request_id (self m') = 4 /\
  exists t_before t_k t_after,
    t = t_before ++ t_k ++ t_after /\
    In (EvSend 0%nat
          (utf8_encode table_lib
             (json_dumps table_lib
                (JDict [("jsonrpc", JStr "2.0"); ("method", JStr "flush");
                        ("params", JDict []); ("id", JInt 2); ("token", JNull)])
              ++ nl)%string)) t_k /\
    exists tok, forall c p, In (EvSend c p) t_k ->
      p = utf8_encode table_lib
            (json_dumps table_lib
               (JDict [("jsonrpc", JStr "2.0"); ("method", JStr "flush");
                       ("params", JDict []); ("id", JInt 2);
                       ("token", match tok with Some s => JStr s | None => JNull end)])
             ++ nl)%string.
Proof.
  intros env calls.
  destruct (run_ops table_lib (api_ops calls) anonymous) as [m' t] eqn:E.
  destruct (calls_take_consecutive_ids _ _ _ E) as [Hid Hsend].
  split; [exact Hid|].
  destruct (Hsend 1%nat env Flush eq_refl)
    as (m_k & t_before & r_k & m_k' & t_k & t_after & E1 & E2 & _ & Ht & Hk).
  exists t_before, t_k, t_after. split; [exact Ht|]. split; [|exact Hk].
  vm_compute in E1. injection E1 as <- _.
  vm_compute in E2. injection E2 as _ _ <-.
  vm_compute. tauto.
Defined.

(** ** Responses that are not what the client expects *)

(** When the daemon's line decodes to something that is not an object (a
    list, a string, a number, [null]), or to an object whose ['error'] is
    truthy but not an object, every synchronous method raises
    [AttributeError]. *)
Theorem malformed_response_attribute_error lib env a m response m1 t :
  _call lib env (method_of a) (params_of a) m = (Return response, m1, t) ->
  match response with
  | JDict d =>
      truthy (dict_get d "error" JNull) = true /\
      (forall ed, dict_get d "error" JNull <> JDict ed)
  | _ => True
  end ->
  invoke lib env a m = (Raise AttributeError, m1, t).
Proof.
  intros Hcall Hbad. rewrite invoke_shape, Hcall.
  unfold finish, unwrap_outcome.
  destruct response as [| | | | | |d]; try reflexivity.
  destruct Hbad as [Ht Hnd]. cbn [get_outcome]. rewrite Ht.
  destruct (dict_get d "error" JNull) as [| | | | | |ed]; try reflexivity.
  exfalso. eapply Hnd. reflexivity.
Qed.

(** A library that also knows the line ["[]"]. *)
Definition array_lib : pylib :=
  {| json_dumps := json_dumps table_lib;
     json_loads := fun text =>
       if (text =? "[]")%string then Return (JList []) else json_loads table_lib text;
     utf8_encode := utf8_encode table_lib;
     utf8_decode := utf8_decode table_lib;
     py_str := py_str table_lib;
     str_strip := str_strip table_lib;
     sleep_overflows := sleep_overflows table_lib;
     timeout_overflows := timeout_overflows table_lib |}.

Lemma malformed_response_attribute_error_witness :
  let env := posix no_files (answer [bytes_of "[]" ++ [newline]]) in
  fst (fst (invoke array_lib env (Scan (JStr "it:")) with_secret)) = Raise AttributeError.
Proof.
  intros env.
  destruct (_call array_lib env "scan" (JDict [("prefix", JStr "it:")]) with_secret)
    as [[r m1] t] eqn:E.
  assert (Hr : r = Return (JList [])) by (vm_compute in E; congruence).
  subst r.
  rewrite (@malformed_response_attribute_error array_lib env (Scan (JStr "it:"))
             with_secret (JList []) m1 t E I).
  reflexivity.
Defined.

(** ** Keeping the connection between calls *)

(** A client that resolves its token in [env] still does after any step. *)
Lemma resolves_tame env m m' t :
  tame m m' t -> resolves env m = true -> resolves env m' = true.
Proof.
  intros T. unfold resolves. intros H. apply orb_true_iff in H.
  destruct H as [H|H]; [|rewrite H; apply orb_true_r].
  destruct (tame_token T H) as [-> _]. rewrite H. reflexivity.
Qed.

(** On a socket, after a call that got its response, the next call that
    gets its response does not connect: it pops the connection the first
    call used from the pool, sends and reads on it, and puts it back. That
    the calls get their responses says that their token resolutions did not
    raise ([resolves]) and that the first got a connection ([acquires]). *)
Theorem next_call_reuses_connection
    lib env1 env2 method1 params1 method2 params2 m
    chunks1 rest1 response1 chunks2 rest2 response2 r1 m1 t1 r2 m2 t2 :
  os_name_nt env1 = false ->
  os_name_nt env2 = false ->
  0 <= _max_retries (self m) ->
  resolves env1 m = true ->
  resolves env2 m = true ->
  pool_ok m ->
  acquires lib (transport env1 0) m ->
  send_res (transport env1 0) = None ->
  recv_res (transport env1 0) = map Chunk chunks1 ++ rest1 ->
  delivers_line chunks1 ->
  loads_outcome lib (first_line (List.concat chunks1)) = Return response1 ->
  send_res (transport env2 0) = None ->
  recv_res (transport env2 0) = map Chunk chunks2 ++ rest2 ->
  delivers_line chunks2 ->
  loads_outcome lib (first_line (List.concat chunks2)) = Return response2 ->
  _call lib env1 method1 params1 m = (r1, m1, t1) ->
  _call lib env2 method2 params2 m1 = (r2, m2, t2) ->
  let s := next_conn m in
  r2 = Return response2 /\
  In (EvPoolPop s) t2 /\
  (forall c, ~ In (EvConnect c) t2) /\
  (exists payload, filter io_event t2 = EvSend s payload :: map (EvRecv s) chunks2) /\
  _pool (self m2) = _pool (self m1).
Proof.
  intros Hnt1 Hnt2 Hmax Hres1 Hres2 Hok Hacq1 Hsend1 Hrecv1 Hline1 Hloads1
         Hsend2 Hrecv2 Hline2 Hloads2 H1 H2 s.
  pose proof (call_tame _ _ _ _ _ H1) as T1.
  pose proof (tame_bound T1 Hok) as Hok1.
  pose proof (resolves_tame env2 T1 Hres2) as Hres21.
  destruct (tame_config T1) as (_ & Hmr & _).
  assert (Hpool1 : _pool (self m1) = pool_rest m ++ [s]).
  { eapply (@call_first_line lib env1 method1 params1 m chunks1 rest1 response1) in H1;
      try assumption.
    destruct H1 as (_ & _ & _ & _ & _ & Hp & _). exact Hp. }
  assert (Hne : _pool (self m1) <> []).
  { rewrite Hpool1. destruct (pool_rest m); discriminate. }
  destruct (@call_first_final lib env2 method2 params2 m1 chunks2 rest2)
    as (tok & m0 & t0 & payload & Etok & Hfs & Hnc & Hpr & Ecall);
    try assumption; try (rewrite Hmr; assumption); try (left; assumption).
  { rewrite Hloads2. exact I. }
  rewrite Hloads2 in Ecall. cbn [healthy_after raised] in Ecall.
  rewrite Ecall in H2. injection H2 as <- <- <-.
  destruct (get_token_spec lib env2 (bump_id m1))
    as (tok' & m0' & t0' & E & _ & _ & _ & _ & Hpool0 & _).
  rewrite Etok in E. injection E as <- <- <-. simpl in Hpool0.
  assert (Hs1 : next_conn m1 = s).
  { unfold next_conn. rewrite Hpool1, list_pop_snoc. reflexivity. }
  assert (Hpr1 : pool_rest m1 = pool_rest m).
  { unfold pool_rest at 1. rewrite Hpool1, list_pop_snoc. reflexivity. }
  assert (Hacq0 : acquire_event m0 = EvPoolPop s).
  { unfold acquire_event. rewrite Hpool0, Hpool1, list_pop_snoc. reflexivity. }
  rewrite Hnc, Hs1, Hacq0.
  assert (A : forall ev, In ev t0 -> fs_event ev = true)
    by (apply forallb_forall, Hfs).
  split; [reflexivity|]. split; [|split; [|split]].
  - repeat (rewrite in_app_iff || simpl). tauto.
  - intros c Hin.
    assert (B : ~ In (EvConnect c) t0) by (intros Hc; apply A in Hc; discriminate).
    assert (C : ~ In (EvConnect c) (map (EvRecv s) chunks2)).
    { intros Hc. apply in_map_iff in Hc. destruct Hc as (x & Hx & _). discriminate. }
    repeat (rewrite in_app_iff in Hin || simpl in Hin).
    intuition discriminate.
  - exists payload. rewrite filter_app, (filter_io_fs _ Hfs).
    cbn [app filter io_event]. rewrite !filter_app, filter_io_recv.
    cbn [filter io_event app]. rewrite !app_nil_r. reflexivity.
  - unfold after_attempt. cbn [self _pool with_pool].
    rewrite Hpr, Hpr1, Hnc, Hs1. symmetry. exact Hpool1.
Qed.

Lemma next_call_reuses_connection_witness :
  let env := posix no_files (answer ok_chunks) in
  let '(_, m1, _) := _call table_lib env "ping" JNull anonymous in
  let '(r2, m2, t2) := _call table_lib env "flush" JNull m1 in
  r2 = Return (JDict [("result", JDict [("ok", JBool true)])]) /\
  In (EvPoolPop 0%nat) t2 /\ ~ In (EvConnect 1%nat) t2 /\ _pool (self m2) = [0%nat].
Proof.
  intros env.
  destruct (_call table_lib env "ping" JNull anonymous) as [[r1 m1] t1] eqn:E1.
  destruct (_call table_lib env "flush" JNull m1) as [[r2 m2] t2] eqn:E2.
  assert (Hp1 : _pool (self m1) = [0%nat]).
  { assert (X : _pool (self (snd (fst (_call table_lib env "ping" JNull anonymous)))) = [0%nat])
      by reflexivity.
    rewrite E1 in X. exact X. }
  destruct (@next_call_reuses_connection table_lib env env "ping" JNull "flush" JNull
              anonymous ok_chunks [] (JDict [("result", JDict [("ok", JBool true)])])
              ok_chunks [] (JDict [("result", JDict [("ok", JBool true)])])
              r1 m1 t1 r2 m2 t2)
    as (A & B & C & _ & D); try reflexivity; try assumption.
  - simpl. lia.
  - apply boot_pool_ok; [reflexivity|simpl; lia].
  - right. split; reflexivity.
  - repeat split; try reflexivity. repeat constructor; discriminate.
  - repeat split; try reflexivity. repeat constructor; discriminate.
  - split; [exact A|]. split; [exact B|]. split; [apply C|]. rewrite D. exact Hp1.
Defined.

(** ** Attempts that fail *)

(** On a socket, an attempt that raises an error of the classes of the inner
    [except] clause ([OSError] with its subclasses, or [JSONDecodeError]),
    whatever step raised it (the connect, the send, a read, the socket
    timeout, the empty read, the JSON decoder), puts no connection into the
    idle pool. Either the connect failed and the pool is as it was, or the
    connection the attempt acquired is closed as the last event of the
    attempt and is not in the pool afterwards. (A timeout that
    [settimeout] refuses raises [ValueError] or [OverflowError], which are
    not of these classes.) *)
Theorem failed_attempt_drops_connection lib env payload attempt m e m' t :
  os_name_nt env = false ->
  pool_ok m ->
  attempt_once lib env payload attempt m = (Raise e, m', t) ->
  inner_except e = true ->
  (forall c, ~ In (EvPoolAppend c) t) /\
  ((exists k, e = OSError k /\ t = [EvConnectFailed k] /\
              _pool (self m) = [] /\ _pool (self m') = [])
   \/ (exists t1,
         t = t1 ++ [EvClose (next_conn m)] /\
         _pool (self m') = pool_rest m /\
         ~ In (next_conn m) (_pool (self m')))).
Proof.
  intros Hnt Hok H He. unfold attempt_once in H. rewrite Hnt in H.
  apply unix_attempt_anatomy in H.
  destruct H as [(k & Hp & _ & Hr & -> & Hs & _)
                |[(_ & _ & Hr & _)
                 |(s & front & t_acq & t_io & Hcase & _ & Hio & _ & Hrel)]].
  - injection Hr as ->. split.
    + intros c [Hin|[]]. discriminate.
    + left. exists k. rewrite Hs. auto.
  - injection Hr as ->. rewrite timeout_error_passes in He. discriminate.
  - destruct Hrel as [(Hh & _)|(_ & Hs & ->)].
    { unfold healthy_after in Hh. rewrite He in Hh. discriminate. }
    assert (Hacq : forall c, ~ In (EvPoolAppend c) t_acq).
    { intros c Hin.
      destruct Hcase as [(_ & -> & _)|(_ & _ & _ & _ & _ & -> & _)];
        destruct Hin as [Hin|[]]; discriminate. }
    assert (Hnio : forall c, ~ In (EvPoolAppend c) t_io).
    { intros c Hin. rewrite forallb_forall in Hio. apply Hio in Hin. discriminate. }
    split.
    + intros c Hin. apply in_app_or in Hin. destruct Hin as [Hin|Hin]; [eapply Hacq, Hin|].
      apply in_app_or in Hin. destruct Hin as [Hin|[Hin|[]]]; [eapply Hnio, Hin|discriminate].
    + right. exists (t_acq ++ t_io). rewrite Hs. cbn [_pool with_pool].
      destruct Hok as (_ & _ & Hnd & Hlt).
      destruct Hcase as [(Hp & _ & _)|(Hp & -> & _ & _ & -> & _ & _)].
      * unfold next_conn, pool_rest. rewrite Hp, list_pop_snoc.
        split; [rewrite app_assoc; reflexivity|]. split; [reflexivity|].
        rewrite Hp in Hnd. apply NoDup_remove_2 in Hnd. rewrite app_nil_r in Hnd. exact Hnd.
      * unfold next_conn, pool_rest. rewrite Hp. cbn [list_pop].
        split; [rewrite app_assoc; reflexivity|]. split; [reflexivity|]. intros [].
Qed.

(** A daemon whose end of the connection is gone: the send fails. *)
Definition broken_pipe : script :=
  {| connect_res := None; send_res := Some BrokenPipeError;
     recv_res := []; readline_res := inl [] |}.

Lemma failed_attempt_drops_connection_witness :
  let m1 := snd (fst (_call table_lib (posix no_files (answer ok_chunks)) "ping" JNull
                        anonymous)) in
  let '(r, m', t) := attempt_once table_lib (posix no_files broken_pipe) [] 0 m1 in
  _pool (self m1) = [0%nat] /\
  r = Raise (OSError BrokenPipeError) /\
  t = [EvPoolPop 0%nat; EvClose 0%nat] /\
  _pool (self m') = [].
Proof.
  intros m1.
  destruct (attempt_once table_lib (posix no_files broken_pipe) [] 0 m1) as [[r m'] t] eqn:E.
  assert (Hr : r = Raise (OSError BrokenPipeError)) by (vm_compute in E; congruence).
  subst r.
  assert (Hok : pool_ok m1).
  { unfold m1.
    destruct (_call table_lib (posix no_files (answer ok_chunks)) "ping" JNull anonymous)
      as [[r1 m1'] t1] eqn:E1.
    apply call_tame in E1. apply (tame_bound E1).
    apply boot_pool_ok; [reflexivity|simpl; lia]. }
  destruct (@failed_attempt_drops_connection table_lib (posix no_files broken_pipe) [] 0
              m1 _ m' t eq_refl Hok E eq_refl) as [_ [(k & _ & Ht & _)|(t1 & _ & Hp & _)]].
  - exfalso. vm_compute in E. rewrite Ht in E. discriminate.
  - split; [reflexivity|]. split; [reflexivity|]. split.
    + vm_compute in E. injection E as _ <-. reflexivity.
    + rewrite Hp. reflexivity.
Defined.

(** ** A token file that cannot be read *)

(** When a client holds no token and the first candidate file that exists
    cannot be read, a call raises the error of [open] or [read] before the
    retry loop: the id is taken, that one file is the only one opened, no
    attempt is made whatever [max_retries] is, nothing is connected or sent,
    and no token is stored. *)
Theorem unreadable_token_aborts_call lib env method params m p e r m' t :
  token_truthy (_token (self m)) = false ->
  first_existing (fs env) (token_paths env) = Some (p, Unreadable e) ->
  _call lib env method params m = (r, m', t) ->
  r = Raise e /\
  m' = bump_id m /\
  forallb fs_event t = true /\
  (forall q, In (EvReadFile q) t <-> q = p).
Proof.
  intros Htok Hfirst H.
  destruct (probe_first lib env (token_paths env) (bump_id m)) as (t0 & Hfs & Hp).
  rewrite Hfirst in Hp. destruct Hp as [Hp Hread].
  rewrite <- (get_token_probe lib env (bump_id m) Htok) in Hp.
  unfold _call in H. unfold bind at 1 in H. rewrite next_request_id_spec in H.
  fold (bump_id m) in H. unfold bind at 1 in H. rewrite Hp in H.
  injection H as <- <- <-. auto.
Qed.

Lemma unreadable_token_aborts_call_witness :
  let '(r, m', t) :=
    _call table_lib (posix locked_token (answer ok_chunks)) "ping" JNull anonymous in
  r = Raise (OSError (OtherOSError 13)) /\
  _request_id (self m') = 2 /\
  t = [EvExists ".gics_token" true; EvReadFile ".gics_token"].
Proof.
  destruct (_call table_lib (posix locked_token (answer ok_chunks)) "ping" JNull anonymous)
    as [[r m'] t] eqn:E.
  destruct (@unreadable_token_aborts_call table_lib
              (posix locked_token (answer ok_chunks)) "ping" JNull anonymous
              ".gics_token" (OSError (OtherOSError 13)) r m' t eq_refl eq_refl E)
    as (A & B & _).
  split; [exact A|]. split; [rewrite B; reflexivity|].
  vm_compute in E. injection E as _ _ <-. reflexivity.
Defined.
